(** * The ant colony of [ants.py]: per-tick transition engine

    A shallow embedding of [Colony.return_to_nest], [Colony.explore] and
    [Colony.advance] together with the NumPy conventions they rely on
    (fixed-width integers, index normalisation, fancy-index assignment),
    followed by the properties of the tick that the design document states. *)

From Stdlib Require Import ZArith QArith Lia Zpow_facts.
From stdpp Require Import base option list numbers.
Local Open Scope Z_scope.

(** ** NumPy conventions *)

(** Two's complement wrap-around of a signed integer of [bits] bits. *)
Definition wrap (bits : Z) (x : Z) : Z :=
  (x + 2 ^ (bits - 1)) mod 2 ^ bits - 2 ^ (bits - 1).

Definition int8 : Z → Z := wrap 8.
Definition int16 : Z → Z := wrap 16.
Definition int32 : Z → Z := wrap 32.
Definition int64 : Z → Z := wrap 64.

Global Arguments wrap : simpl never.
Global Arguments int8 : simpl never.
Global Arguments int16 : simpl never.
Global Arguments int32 : simpl never.
Global Arguments int64 : simpl never.

Definition b2z (b : bool) : Z := if b then 1 else 0.

(** An index [i] into an axis of length [len]: indices in [0, len) are used
    as they are, indices in [-len, 0) count from the end, any other index
    raises IndexError (here [None]). *)
Definition np_index (len : nat) (i : Z) : option nat :=
  if bool_decide (0 ≤ i < Z.of_nat len) then Some (Z.to_nat i)
  else if bool_decide (- Z.of_nat len ≤ i < 0) then Some (Z.to_nat (Z.of_nat len + i))
  else None.

Definition np_get {A} (l : list A) (i : Z) : option A :=
  k ← np_index (length l) i; l !! k.

Definition np_set {A} (l : list A) (i : Z) (x : A) : option (list A) :=
  k ← np_index (length l) i; Some (<[k := x]> l).

(** [l[i] op= v]: read, combine, write back. *)
Definition np_upd {A} (l : list A) (i : Z) (f : A → A) : option (list A) :=
  x ← np_get l i; np_set l i (f x).

Definition np_get2 {A} (m : list (list A)) (r c : Z) : option A :=
  row ← np_get m r; np_get row c.

Definition np_upd2 {A} (m : list (list A)) (r c : Z) (f : A → A)
  : option (list (list A)) :=
  row ← np_get m r; row' ← np_upd row c f; np_set m r row'.

(** [np.nonzero(mask)[0]]: the positions at which [mask] holds, increasing. *)
Fixpoint nonzero_from (k : nat) (mask : list bool) : list nat :=
  match mask with
  | [] => []
  | b :: mask' => if b then k :: nonzero_from (S k) mask' else nonzero_from (S k) mask'
  end.

Definition nonzero (mask : list bool) : list nat := nonzero_from 0 mask.

(** [idx[np.nonzero(mask)[0]]]: the entries of an index array selected by a
    mask computed over that index array. *)
Fixpoint select (idx : list nat) (mask : list bool) : list nat :=
  match idx, mask with
  | i :: idx', b :: mask' => if b then i :: select idx' mask' else select idx' mask'
  | _, _ => []
  end.

(** [a[idx] = f(a[idx])] for an index array [idx]: every row named by [idx]
    is rewritten, once. *)
Definition on_idx {A} (idx : list nat) (f : A → A) (l : list A) : list A :=
  imap (λ i a, if bool_decide (i ∈ idx) then f a else a) l.

(** The same when the right-hand side indexes further arrays and so may
    raise. *)
Definition on_idxM {A} (idx : list nat) (f : nat → A → option A) (l : list A)
  : option (list A) :=
  mapM (λ ia : nat * A, if bool_decide (ia.1 ∈ idx) then f ia.1 ia.2 else Some ia.2)
       (imap pair l).

Definition idx_in_range {A} (idx : list nat) (l : list A) : bool :=
  forallb (λ i, bool_decide (i < length l)%nat) idx.

(** [np.maximum] and [MPI.MAX] on two finite floating-point values. Finite
    doubles are rationals, and comparing them, taking the larger one and
    multiplying by a boolean are exact, so the scent values are modelled in
    [Q]. *)
Definition qmax (a b : Q) : Q := if Qle_bool a b then b else a.

(** ** Constants of the modules imported by [ants.py] *)

(** [direction.py] is not among the sources: the five constants that
    [ants.py] reads from it are parameters. *)
Class direction := {
  DIR_NONE : Z; DIR_NORTH : Z; DIR_EAST : Z; DIR_WEST : Z; DIR_SOUTH : Z }.

(** [maze.py] is not among the sources either: the four exit bits of a cell
    mask are parameters. *)
Class maze_bits := { NORTH : Z; EAST : Z; SOUTH : Z; WEST : Z }.

(** ** Data model *)

(** A grid coordinate [(row, column)]. *)
Definition pos : Type := Z * Z.

Definition UNLOADED : bool := false.
Definition LOADED : bool := true.

Definition exploration_coefs : Q := 0%Q.

(** Row [i] of the six columnar arrays of [Colony]. [__init__] allocates
    the six with [nb_ants] rows and nothing resizes them, so a colony is the
    list of its rows; [historic_path] of a row is the [max_life+1] positions
    recorded for that ant. *)
Record Ant := mkAnt {
  seeds : Z;                   (* int64 *)
  is_loaded : bool;            (* int8, 0 or 1 *)
  max_life : Z;                (* int32 *)
  age : Z;                     (* int64 *)
  historic_path : list pos;    (* int16 pairs *)
  directions : Z               (* int8 *)
}.

Abbreviation Colony := (list Ant).

Definition with_seeds (v : Z) (a : Ant) : Ant :=
  mkAnt v (is_loaded a) (max_life a) (age a) (historic_path a) (directions a).
Definition with_is_loaded (v : bool) (a : Ant) : Ant :=
  mkAnt (seeds a) v (max_life a) (age a) (historic_path a) (directions a).
Definition with_age (v : Z) (a : Ant) : Ant :=
  mkAnt (seeds a) (is_loaded a) (max_life a) v (historic_path a) (directions a).
Definition with_historic_path (v : list pos) (a : Ant) : Ant :=
  mkAnt (seeds a) (is_loaded a) (max_life a) (age a) v (directions a).
Definition with_directions (v : Z) (a : Ant) : Ant :=
  mkAnt (seeds a) (is_loaded a) (max_life a) (age a) (historic_path a) v.

(** [np.mod(16807*seeds, 2147483647)] on int64 seeds. *)
Definition lcg (s : Z) : Z := int64 (16807 * s) mod 2147483647.
Global Arguments lcg : simpl never.

(** The ant's current position, [historic_path[i, age[i], :]]. *)
Definition position (a : Ant) : option pos := np_get (historic_path a) (age a).

(** ** [Colony.__init__] *)

(** [scaled i] stands for entry [i] of the array
    [np.int32(max_life*(seeds/2147483647.))], a floating-point product
    truncated to an integer. *)
Definition Colony_init `{direction} (nb_ants : nat) (pos_init : pos) (max_life0 : Z)
    (scaled : nat → Z) : Colony :=
  (λ i : nat,
    mkAnt (lcg (Z.of_nat i + 1))
          false
          (int32 (int32 max_life0 - int32 (scaled i) / 4))
          0
          ((int16 pos_init.1, int16 pos_init.2)
             :: replicate (Z.to_nat max_life0) (0, 0))
          (int8 DIR_NONE)) <$> seq 0 nb_ants.

(** ** [Colony.return_to_nest] *)

Definition return_to_nest (self : Colony) (loaded_ants : list nat) (pos_nest : pos)
    (food_counter : Z) : option (Colony * Z) :=
  if negb (idx_in_range loaded_ants self) then None else
  (* self.age[loaded_ants] -= 1 *)
  let self := on_idx loaded_ants (λ a, with_age (int64 (age a - 1)) a) self in
  (* in_nest_tmp = self.historic_path[loaded_ants, self.age[loaded_ants], :] == pos_nest *)
  in_nest_tmp ← mapM (λ i, a ← self !! i; p ← position a;
                        Some (bool_decide (p.1 = pos_nest.1),
                              bool_decide (p.2 = pos_nest.2))) loaded_ants;
  if existsb (λ t : bool * bool, t.1 || t.2) in_nest_tmp then
    let in_nest_loc := map (λ t : bool * bool, t.1 && t.2) in_nest_tmp in
    if bool_decide (0 < length (nonzero in_nest_loc))%nat then
      let in_nest := select loaded_ants in_nest_loc in
      Some (on_idx in_nest (λ a, with_age 0 (with_is_loaded UNLOADED a)) self,
            food_counter + Z.of_nat (length (nonzero in_nest_loc)))
    else Some (self, food_counter)
  else Some (self, food_counter).

(** ** [Colony.explore] *)

(** What lines 92 to 119 compute for one ant, before anything moves: its
    cell, the four exits of that cell and the scent of the four neighbours,
    each multiplied by the exit flag of its side. *)
Record Sensed := mkSensed {
  old_pos_ants : pos;
  has_north_exit : bool;
  has_east_exit : bool;
  has_south_exit : bool;
  has_west_exit : bool;
  north_pheromone : Q;
  east_pheromone : Q;
  south_pheromone : Q;
  west_pheromone : Q
}.

Definition max_pheromones (s : Sensed) : Q :=
  qmax (qmax (qmax (north_pheromone s) (east_pheromone s)) (south_pheromone s))
       (west_pheromone s).

Definition nb_exits (s : Sensed) : Z :=
  b2z (has_north_exit s) + b2z (has_east_exit s) + b2z (has_south_exit s)
  + b2z (has_west_exit s).

Definition gated (x : Q) (has_exit : bool) : Q := if has_exit then x else 0%Q.

Definition sense `{maze_bits} (the_maze : list (list Z)) (pheromon : list (list Q))
    (a : Ant) : option Sensed :=
  (* old_pos_ants = self.historic_path[range(0, n), self.age[:], :] *)
  p ← position a;
  cell ← np_get2 the_maze p.1 p.2;
  let hn := bool_decide (0 < Z.land cell NORTH) in
  let he := bool_decide (0 < Z.land cell EAST) in
  let hs := bool_decide (0 < Z.land cell SOUTH) in
  let hw := bool_decide (0 < Z.land cell WEST) in
  n ← np_get2 pheromon p.1 (int16 (p.2 + 1));
  e ← np_get2 pheromon (int16 (p.1 + 1)) (int16 (p.2 + 2));
  s ← np_get2 pheromon (int16 (p.1 + 2)) (int16 (p.2 + 1));
  w ← np_get2 pheromon (int16 (p.1 + 1)) p.2;
  Some (mkSensed p hn he hs hw (gated n hn) (gated e he) (gated s hs) (gated w hw)).

(** [choices = self.seeds[:] / 2147483647.] *)
Definition choices (a : Ant) : Q := Qmake (seeds a) 2147483647.

(** Membership tests of lines 125-126 and 160-161. *)
Definition is_exploring (a : Ant) (s : Sensed) : bool :=
  Qle_bool (choices a) exploration_coefs || Qeq_bool (max_pheromones s) 0.

Definition is_following (ch : Q) (s : Sensed) : bool :=
  negb (Qle_bool ch exploration_coefs) && negb (Qle_bool (max_pheromones s) 0).

(** One ant inside the retry loop of lines 132-158: the ant, what was sensed
    for it, whether it is in [ind_exploring_ants], and its entry of
    [valid_moves]. *)
Record Row := mkRow {
  row_ant : Ant;
  row_sensed : Sensed;
  row_exploring : bool;
  valid_moves : bool
}.

Definition pending (r : Row) : bool := row_exploring r && negb (valid_moves r).

(** [new_pos] of lines 139-147 for a drawn direction [dir]. *)
Definition new_pos `{direction} (s : Sensed) (old_pos : pos) (dir : Z) : pos :=
  (int16 (int16 (old_pos.1 - b2z (bool_decide (dir = DIR_NORTH) && has_north_exit s))
          + b2z (bool_decide (dir = DIR_SOUTH) && has_south_exit s)),
   int16 (int16 (old_pos.2 - b2z (bool_decide (dir = DIR_WEST) && has_west_exit s))
          + b2z (bool_decide (dir = DIR_EAST) && has_east_exit s))).

(** Lines 149-153: the move is kept if the ant left its cell and did not
    turn back, unless its cell has one exit only. *)
Definition is_valid_move (s : Sensed) (directions_a : Z) (old_pos np : pos) (dir : Z)
  : bool :=
  (bool_decide (np.1 ≠ old_pos.1) || bool_decide (np.2 ≠ old_pos.2))
  && (bool_decide (dir ≠ int8 (3 - directions_a)) || bool_decide (nb_exits s = 1)).

(** One pass of the loop body over one ant. Line 135 advances the seed of
    every ant of the colony; the rest concerns [ind_ants_to_move] only. *)
Definition retry_step `{direction} (r : Row) : option Row :=
  let a := with_seeds (lcg (seeds (row_ant r))) (row_ant r) in
  if pending r then
    let dir := seeds a mod 4 in
    old_pos ← position a;
    let np := new_pos (row_sensed r) old_pos dir in
    if is_valid_move (row_sensed r) (directions a) old_pos np dir then
      h ← np_set (historic_path a) (int64 (age a + 1)) np;
      Some (mkRow (with_directions dir (with_historic_path h a))
                  (row_sensed r) (row_exploring r) true)
    else Some (mkRow a (row_sensed r) (row_exploring r) false)
  else Some (mkRow a (row_sensed r) (row_exploring r) (valid_moves r)).

(** [while np.any(valid_moves[ind_exploring_ants] == 0)]. [fuel] bounds the
    number of passes; [None] is an IndexError or an exhausted bound. *)
Fixpoint retry_loop `{direction} (fuel : nat) (rows : list Row) : option (list Row) :=
  if existsb pending rows then
    match fuel with
    | O => None
    | S fuel' => rows' ← mapM (M := option) retry_step rows; retry_loop fuel' rows'
    end
  else Some rows.

(** Lines 164-175 for one ant of [ind_following_ants]. *)
Definition follow_step (s : Sensed) (a : Ant) : option Ant :=
  let k := int64 (age a + 1) in
  let m := max_pheromones s in
  p ← position a;
  h ← np_set (historic_path a) k p;
  h ← np_upd h k (λ q : pos, (q.1, int16 (q.2 + b2z (Qeq_bool (east_pheromone s) m))));
  h ← np_upd h k (λ q : pos, (q.1, int16 (q.2 - b2z (Qeq_bool (west_pheromone s) m))));
  h ← np_upd h k (λ q : pos, (int16 (q.1 - b2z (Qeq_bool (north_pheromone s) m)), q.2));
  h ← np_upd h k (λ q : pos, (int16 (q.1 + b2z (Qeq_bool (south_pheromone s) m)), q.2));
  Some (with_historic_path h a).

(** Lines 182-187 for one ant. *)
Definition kill_step `{direction} (pos_nest : pos) (a : Ant) : option Ant :=
  if bool_decide (age a = max_life a) then
    h ← np_set (historic_path a) 0 (int16 pos_nest.1, int16 pos_nest.2);
    Some (with_directions (int8 DIR_NONE) (with_historic_path h (with_age 0 a)))
  else Some a.

(** Lines 190-194 for one ant of [unloaded_ants]. *)
Definition load_step (pos_food : pos) (a : Ant) : option Ant :=
  p ← position a;
  Some (if bool_decide (p.1 = pos_food.1) && bool_decide (p.2 = pos_food.2)
        then with_is_loaded true a else a).

(** Indices of [idx] whose row satisfies [test]. *)
Definition pick {A} (test : A → bool) (l : list A) (idx : list nat) : list nat :=
  filter (λ i, test <$> l !! i = Some true) idx.

(** Line 89. *)
Definition reseed (unloaded_ants : list nat) (self : Colony) : Colony :=
  on_idx unloaded_ants (λ a, with_seeds (lcg (seeds a)) a) self.

(** Lines 125-128: [self] is the colony after line 89. *)
Definition ind_exploring_ants (self : Colony) (sensed : list Sensed)
    (unloaded_ants : list nat) : list nat :=
  pick (λ x : Ant * Sensed, is_exploring x.1 x.2) (zip self sensed) unloaded_ants.

(** Lines 160-163: [choices_] is the array computed at line 122. *)
Definition ind_following_ants (choices_ : list Q) (sensed : list Sensed)
    (unloaded_ants : list nat) : list nat :=
  pick (λ x : Q * Sensed, is_following x.1 x.2) (zip choices_ sensed) unloaded_ants.

Definition loop_rows (self : Colony) (sensed : list Sensed) (exploring : list nat)
  : list Row :=
  imap (λ i x, mkRow x.1 x.2 (bool_decide (i ∈ exploring)) false) (zip self sensed).

(** The part of [explore] that moves ants: lines 89 to 175. *)
Definition explore_moves `{direction, maze_bits} (fuel : nat) (self : Colony)
    (unloaded_ants : list nat) (the_maze : list (list Z)) (pheromon : list (list Q))
  : option Colony :=
  if negb (idx_in_range unloaded_ants self) then None else
  (* 89 *)
  let self := reseed unloaded_ants self in
  (* 92-119 *)
  sensed ← mapM (M := option) (sense the_maze pheromon) self;
  (* 122 *)
  let choices_ := map choices self in
  (* 125-158 *)
  let exploring := ind_exploring_ants self sensed unloaded_ants in
  self ← (if bool_decide (0 < length exploring)%nat then
            rows ← retry_loop fuel (loop_rows self sensed exploring);
            Some (map row_ant rows)
          else Some self);
  (* 160-175 *)
  let following := ind_following_ants choices_ sensed unloaded_ants in
  if bool_decide (0 < length following)%nat then
    on_idxM following (λ i a, s ← sensed !! i; follow_step s a) self
  else Some self.

Definition explore `{direction, maze_bits} (fuel : nat) (self : Colony)
    (unloaded_ants : list nat) (the_maze : list (list Z)) (pos_food pos_nest : pos)
    (pheromon : list (list Q)) : option Colony :=
  self ← explore_moves fuel self unloaded_ants the_maze pheromon;
  (* 178-179 *)
  let self := if bool_decide (0 < length unloaded_ants)%nat
              then on_idx unloaded_ants (λ a, with_age (int64 (age a + 1)) a) self
              else self in
  (* 182-187 *)
  self ← mapM (M := option) (kill_step pos_nest) self;
  (* 190-194 *)
  on_idxM unloaded_ants (λ _ a, load_step pos_food a) self.

(** ** Scent deposit and the merge across workers *)

(** Modelled from the spec: [pheromone.py], and with it [Pheromon.mark], is
    not among the sources. The design document describes the call as
    [deposit(position, exits, snapshot)], which "adds reinforcement at
    position based on snapshot, not the live field", the field carrying a
    one-cell ghost border. The amount is left open: [reinforcement] is any
    function of the snapshot, the position and the four exit flags. *)
Class pheromone_rule := {
  reinforcement : list (list Q) → pos → list bool → Q }.

Definition mark `{pheromone_rule} (live : list (list Q)) (the_position : pos)
    (has_exits : list bool) (old_pheromone : list (list Q)) : option (list (list Q)) :=
  np_upd2 live (the_position.1 + 1) (the_position.2 + 1)
          (λ v, (v + reinforcement old_pheromone the_position has_exits)%Q).

(** The arguments that lines 208-216 pass to [mark] for one ant: its cell
    (read after the moves of this tick) and the exits of that cell, in the
    order north, east, west, south. *)
Definition deposit_of `{maze_bits} (the_maze : list (list Z)) (a : Ant)
  : option (pos * list bool) :=
  p ← position a;
  cell ← np_get2 the_maze p.1 p.2;
  Some (p, [bool_decide (0 < Z.land cell NORTH); bool_decide (0 < Z.land cell EAST);
            bool_decide (0 < Z.land cell WEST); bool_decide (0 < Z.land cell SOUTH)]).

(** The list comprehension of lines 215-216, one [mark] per ant in order. *)
Fixpoint mark_all `{pheromone_rule} (live : list (list Q))
    (deposits : list (pos * list bool)) (old_pheromone : list (list Q))
  : option (list (list Q)) :=
  match deposits with
  | [] => Some live
  | d :: rest => live' ← mark live d.1 d.2 old_pheromone; mark_all live' rest old_pheromone
  end.

(** [MPI.MAX] on two buffers; buffers of different sizes are a collective
    mismatch. *)
Definition maximum (a b : list Q) : option (list Q) :=
  if bool_decide (length a = length b) then Some (zip_with qmax a b) else None.

(** [comm.Allreduce(MPI.IN_PLACE, buf, op=MPI.MAX)] as seen by one worker:
    [buf] is its own buffer, [others] the buffers of the other workers of
    the communicator. *)
Fixpoint Allreduce_MAX (buf : list Q) (others : list (list Q)) : option (list Q) :=
  match others with
  | [] => Some buf
  | o :: rest => b ← maximum buf o; Allreduce_MAX b rest
  end.

(** [flat.reshape((rows, cols))] *)
Fixpoint reshape {A} (rows cols : nat) (flat : list A) : list (list A) :=
  match rows with
  | O => []
  | S r => take cols flat :: reshape r cols (drop cols flat)
  end.

(** ** [Colony.advance] *)

(** What one call leaves behind: the colony, [pheromones.pheromon], the
    returned [food_counter] and the [new_food] handed to
    [synchronisation_and_send_fonction]. *)
Record Tick := mkTick {
  tick_colony : Colony;
  tick_pheromon : list (list Q);
  tick_food_counter : Z;
  tick_new_food : Z
}.

(** [advance] up to line 216: the colony once the ants have moved, the
    [food_counter] and [new_food] of lines 199-203, and
    [pheromones.pheromon] as the list comprehension of lines 215-216
    leaves it. [old_pheromone], the copy of line 214, is the field on
    entry. *)
Definition advance_marking `{direction, maze_bits, pheromone_rule} (fuel : nat)
    (self : Colony) (the_maze : list (list Z)) (pos_food pos_nest : pos)
    (pheromon : list (list Q)) (food_counter : Z)
  : option (Colony * Z * Z * list (list Q)) :=
  (* 197-198 *)
  let loaded_ants := nonzero (map is_loaded self) in
  let unloaded_ants := nonzero (map (λ a, negb (is_loaded a)) self) in
  (* 199-203 *)
  r ← (if bool_decide (0 < length loaded_ants)%nat then
         let old_food_counter := food_counter in
         r ← return_to_nest self loaded_ants pos_nest 0;
         Some (r.1, r.2, r.2 - old_food_counter)
       else Some (self, food_counter, 0));
  let food_counter := r.1.2 in
  let new_food := r.2 in
  (* 205-206 *)
  self ← (if bool_decide (0 < length unloaded_ants)%nat then
            explore fuel r.1.1 unloaded_ants the_maze pos_food pos_nest pheromon
          else Some r.1.1);
  (* 208-212 *)
  deposits ← mapM (M := option) (deposit_of the_maze) self;
  (* 214-216 *)
  let old_pheromone := pheromon in
  live ← mark_all pheromon deposits old_pheromone;
  Some (self, food_counter, new_food, live).

Definition advance `{direction, maze_bits, pheromone_rule} (fuel : nat) (self : Colony)
    (the_maze : list (list Z)) (pos_food pos_nest : pos) (pheromon : list (list Q))
    (others : list (list Q)) (food_counter : Z) : option Tick :=
  (* 197-216 *)
  marked ← advance_marking fuel self the_maze pos_food pos_nest pheromon food_counter;
  let '(self, food_counter, new_food, _) := marked in
  let old_pheromone := pheromon in
  (* 221-223 *)
  old_pheromone_flat ← Allreduce_MAX (concat old_pheromone) others;
  Some (mkTick self
          (reshape (length old_pheromone) (default 0%nat (length <$> head old_pheromone))
                   old_pheromone_flat)
          food_counter new_food).

(** ** A concrete setting *)

(** One choice of the missing constants: directions numbered so that
    [3 - d] is the direction opposite to [d], which line 153 relies on,
    and one bit per open side of a cell. *)
Definition direction_py : direction :=
  {| DIR_NONE := -1; DIR_NORTH := 0; DIR_EAST := 1; DIR_WEST := 2; DIR_SOUTH := 3 |}.

Definition maze_py : maze_bits := {| NORTH := 1; EAST := 2; SOUTH := 4; WEST := 8 |}.

(** A deposit rule for the examples: a quarter of the scent found in the
    snapshot around the cell, plus one. *)
Definition quarter_rule : pheromone_rule :=
  {| reinforcement := λ snap p _,
       (1 + (1 # 4) * default 0 (np_get2 snap (p.1 + 1) (p.2 + 2)))%Q |}.


(** ** Vocabulary of the statements *)

(** [k] passes of the loop body over one row. *)
Fixpoint retry_steps `{direction} (k : nat) (r : Row) : option Row :=
  match k with
  | O => Some r
  | S k' => r1 ← retry_step r; retry_steps k' r1
  end.

(** The retry loop accepted the draw [dir] for the ant [a] and left [a']:
    the move passed the test of lines 149-153 against the direction stored
    in [a], the new cell was recorded after the current one, and the drawn
    direction was stored. *)
Definition accepted_at `{direction} (s : Sensed) (a : Ant) (dir : Z) (a' : Ant) : Prop :=
  ∃ p h,
    position a = Some p ∧
    is_valid_move s (directions a) p (new_pos s p dir) dir = true ∧
    np_set (historic_path a) (int64 (age a + 1)) (new_pos s p dir) = Some h ∧
    historic_path a' = h ∧ directions a' = dir ∧
    is_loaded a' = is_loaded a ∧ max_life a' = max_life a ∧ age a' = age a.

(** What lines 89-175 do to the ant [a] of row [i], given what was sensed
    for it and the number [k] of passes of the retry loop: [unl] tells
    whether [i] is in [unloaded_ants]. *)
Definition moved_ant `{direction} (k : nat) (unl : bool) (s : Sensed) (a a' : Ant) : Prop :=
  let a1 := if unl then with_seeds (lcg (seeds a)) a else a in
  seeds a' = Nat.iter k lcg (seeds a1) ∧
  is_loaded a' = is_loaded a ∧ max_life a' = max_life a ∧ age a' = age a ∧
  if unl && is_exploring a1 s then
    ∃ j, (1 ≤ j ≤ k)%nat ∧ accepted_at s a (Nat.iter j lcg (seeds a1) mod 4) a'
  else if unl && is_following (choices a1) s then
    ∃ a2, follow_step s a = Some a2 ∧
          historic_path a' = historic_path a2 ∧ directions a' = directions a
  else historic_path a' = historic_path a ∧ directions a' = directions a.

(** What lines 178-194 do to one ant once the moves are made: [unl] tells
    whether its row is in [unloaded_ants]. *)
Definition settle_ant `{direction} (unl : bool) (pos_food pos_nest : pos) (a : Ant)
  : option Ant :=
  let a := if unl then with_age (int64 (age a + 1)) a else a in
  a ← kill_step pos_nest a;
  if unl then load_step pos_food a else Some a.

(** The direction opposite to [d] on the grid, for the four compass
    directions. *)
Definition opposite `{direction} (d : Z) : option Z :=
  if bool_decide (d = DIR_NORTH) then Some DIR_SOUTH
  else if bool_decide (d = DIR_SOUTH) then Some DIR_NORTH
  else if bool_decide (d = DIR_EAST) then Some DIR_WEST
  else if bool_decide (d = DIR_WEST) then Some DIR_EAST
  else None.

(** What [ants.py] relies on about [direction.py]: the four compass
    directions are the four values that [seeds mod 4] can take, [3 - d] is
    the direction opposite to [d] (line 153), and [DIR_NONE] is an int8
    that is none of them. *)
Definition directions_ok `{direction} : Prop :=
  0 ≤ DIR_NORTH ≤ 3 ∧ 0 ≤ DIR_EAST ≤ 3 ∧
  DIR_SOUTH = 3 - DIR_NORTH ∧ DIR_WEST = 3 - DIR_EAST ∧
  DIR_NORTH ≠ DIR_EAST ∧ DIR_NORTH ≠ DIR_WEST ∧
  -128 ≤ DIR_NONE < 128 ∧ ¬ 0 ≤ DIR_NONE ≤ 3.

(** What [return_to_nest] does to one ant of [loaded_ants]: one step back
    along its recorded path, and unloading if that step ends on the nest. *)
Definition back_ant (pos_nest : pos) (a : Ant) : option Ant :=
  let a1 := with_age (int64 (age a - 1)) a in
  p ← position a1;
  Some (if bool_decide (p = pos_nest)
        then with_age 0 (with_is_loaded UNLOADED a1) else a1).

(** What [explore] does to one ant, [unl] telling whether its row is in
    [unloaded_ants]: the moves of lines 89-175 for some number [k] of
    passes of the retry loop, then lines 178-194. *)
Definition explored_ant `{direction, maze_bits} (unl : bool) (the_maze : list (list Z))
    (pheromon : list (list Q)) (pos_food pos_nest : pos) (a a' : Ant) : Prop :=
  ∃ k s am,
    sense the_maze pheromon a = Some s ∧ moved_ant k unl s a am ∧
    settle_ant unl pos_food pos_nest am = Some a'.

(** ** States that a run can reach *)

(** A position that an int16 array stores unchanged. *)
Definition pos_int16 (p : pos) : Prop :=
  -32768 ≤ p.1 < 32768 ∧ -32768 ≤ p.2 < 32768.

(** The colonies of a run: the one that [__init__] builds at the anthill
    [pos_nest] (its docstring: "pos_init: Initial positions of ants
    (anthill position)"), and every colony that a call of [advance] leaves.
    The scent field handed to each call is any field satisfying [fields]:
    between two calls the main loop evaporates it with code that is not
    among the sources. *)
Inductive reachable `{direction, maze_bits, pheromone_rule}
    (fields : list (list Q) → Prop) (the_maze : list (list Z)) (pos_food pos_nest : pos)
  : Colony → Prop :=
| reachable_init nb_ants max_life0 scaled :
    1 ≤ max_life0 < 2147483648 →
    (∀ i, 0 ≤ scaled i ≤ max_life0) →
    reachable fields the_maze pos_food pos_nest
              (Colony_init nb_ants pos_nest max_life0 scaled)
| reachable_advance self fuel pheromon others food_counter r :
    reachable fields the_maze pos_food pos_nest self →
    fields pheromon →
    advance fuel self the_maze pos_food pos_nest pheromon others food_counter = Some r →
    reachable fields the_maze pos_food pos_nest (tick_colony r).

(** The invariant of one ant between two ticks. *)
Definition ant_ok (pos_nest : pos) (a : Ant) : Prop :=
  0 ≤ age a < max_life a ∧
  max_life a < Z.of_nat (length (historic_path a)) ∧
  max_life a < 2147483648 ∧
  historic_path a !! 0%nat = Some pos_nest ∧
  (is_loaded a = true → 1 ≤ age a).

(** The cell that lines 164-175 write for an ant standing on [p]. *)
Definition follow_target (s : Sensed) (p : pos) : pos :=
  let m := max_pheromones s in
  (int16 (int16 (p.1 - b2z (Qeq_bool (north_pheromone s) m))
          + b2z (Qeq_bool (south_pheromone s) m)),
   int16 (int16 (p.2 + b2z (Qeq_bool (east_pheromone s) m))
          - b2z (Qeq_bool (west_pheromone s) m))).

(** The cell of a two-dimensional array that the indices [r, c] name, once
    normalised. *)
Definition cell_of {A} (m : list (list A)) (r c : Z) : option (nat * nat) :=
  i ← np_index (length m) r; row ← m !! i; j ← np_index (length row) c; Some (i, j).

(** ** Moves on the maze *)

(** A maze of [h] rows and [w] columns, small enough for int16 positions,
    in which an open side of a cell leads to a cell of the grid. *)
Definition maze_ok `{maze_bits} (the_maze : list (list Z)) (h w : Z) : Prop :=
  Z.of_nat (length the_maze) = h ∧
  Forall (λ row, Z.of_nat (length row) = w) the_maze ∧
  h < 32767 ∧ w < 32767 ∧
  ∀ r c cell, 0 ≤ r < h → 0 ≤ c < w → np_get2 the_maze r c = Some cell →
    (0 < Z.land cell NORTH → 0 < r) ∧ (0 < Z.land cell SOUTH → r + 1 < h) ∧
    (0 < Z.land cell WEST → 0 < c) ∧ (0 < Z.land cell EAST → c + 1 < w).

Definition in_bounds (h w : Z) (p : pos) : Prop := 0 ≤ p.1 < h ∧ 0 ≤ p.2 < w.

(** The side [bit] of the cell [p] is open. *)
Definition has_exit `{maze_bits} (the_maze : list (list Z)) (p : pos) (bit : Z) : Prop :=
  ∃ cell, np_get2 the_maze p.1 p.2 = Some cell ∧ 0 < Z.land cell bit.

(** The cell reached from [p] by stepping through the sides flagged by
    [n], [e], [s] and [w], all at once. *)
Definition moved_by (p : pos) (n e s w : bool) : pos :=
  (p.1 - b2z n + b2z s, p.2 - b2z w + b2z e).

Definition exits_open `{maze_bits} (the_maze : list (list Z)) (p : pos)
    (n e s w : bool) : Prop :=
  (n = true → has_exit the_maze p NORTH) ∧ (e = true → has_exit the_maze p EAST) ∧
  (s = true → has_exit the_maze p SOUTH) ∧ (w = true → has_exit the_maze p WEST).

(** [q] is one move away from [p], through one open side of [p]. *)
Definition one_move `{maze_bits} (the_maze : list (list Z)) (p q : pos) : Prop :=
  ∃ n e s w, exits_open the_maze p n e s w ∧
             b2z n + b2z e + b2z s + b2z w = 1 ∧ q = moved_by p n e s w.

(** [q] is [p] displaced by the moves through one or more open sides of
    [p], applied together. *)
Definition joint_move `{maze_bits} (the_maze : list (list Z)) (p q : pos) : Prop :=
  ∃ n e s w, exits_open the_maze p n e s w ∧
             1 ≤ b2z n + b2z e + b2z s + b2z w ∧ q = moved_by p n e s w.

(** How many of the four neighbours carry the best scent. *)
Definition tie_count (s : Sensed) : Z :=
  let m := max_pheromones s in
  b2z (Qeq_bool (north_pheromone s) m) + b2z (Qeq_bool (east_pheromone s) m)
  + b2z (Qeq_bool (south_pheromone s) m) + b2z (Qeq_bool (west_pheromone s) m).

(** The data-model invariant of the scent field: no negative value. *)
Definition field_nonneg (pheromon : list (list Q)) : Prop :=
  Forall (Forall (λ x, 0 <= x)%Q) pheromon.

(** The recorded path of an ant: every cell up to the current one is on
    the grid, and each is a joint move away from the one before. *)
Definition path_ok `{maze_bits} (the_maze : list (list Z)) (h w : Z) (a : Ant) : Prop :=
  (∀ k p, (k ≤ Z.to_nat (age a))%nat → historic_path a !! k = Some p → in_bounds h w p) ∧
  (∀ k p q, (k < Z.to_nat (age a))%nat →
     historic_path a !! k = Some p → historic_path a !! S k = Some q →
     joint_move the_maze p q).

(** ** The stream of seeds *)

(** [pw e] is [16807^e] modulo [2^31 - 1]: what [e] passes of the
    recurrence multiply a seed by. *)
Definition pw (e : Z) : Z := 16807 ^ e mod 2147483647.
Global Arguments pw : simpl never.

(** ** Termination of the retry loop *)

(** The scent field of a maze of [h] rows and [w] columns, with its border
    of one cell on every side. *)
Definition field_shape (pheromon : list (list Q)) (h w : Z) : Prop :=
  Z.of_nat (length pheromon) = h + 2 ∧
  Forall (λ row, Z.of_nat (length row) = w + 2) pheromon.

(** The maze invariant of the design document: every cell has at least one
    open side. *)
Definition every_cell_has_an_exit `{maze_bits} (the_maze : list (list Z)) (h w : Z)
  : Prop :=
  ∀ r c cell, 0 ≤ r < h → 0 ≤ c < w → np_get2 the_maze r c = Some cell →
    0 < Z.land cell NORTH ∨ 0 < Z.land cell EAST ∨
    0 < Z.land cell SOUTH ∨ 0 < Z.land cell WEST.

(** An ant whose indices are in range: it stands on a cell of the grid and
    its history has room for one more cell. *)
Definition ant_in_range (h w : Z) (a : Ant) : Prop :=
  0 ≤ age a ∧ age a + 1 < Z.of_nat (length (historic_path a)) ∧
  age a + 1 < 9223372036854775808 ∧
  ∃ p, historic_path a !! Z.to_nat (age a) = Some p ∧ in_bounds h w p.

(** After [n] passes of the loop body the row is no longer waiting for a
    valid move, and no pass raised. *)
Definition settles_within `{direction} (n : nat) (r : Row) : Prop :=
  ∃ r', retry_steps n r = Some r' ∧ pending r' = false.

(** ** Small inputs *)

(** Two cells side by side, open to each other. *)
Definition corridor : list (list Z) := [[2; 8]].

(** Four cells in a ring. *)
Definition ring : list (list Z) := [[6; 12]; [3; 9]].

(** A passage of three cells from the cell (0,0), and a dead end below
    that cell. *)
Definition fork : list (list Z) := [[6; 10; 8]; [1; 2; 8]].

(** The scent field of an [h] by [w] maze before any deposit. *)
Definition no_scent (h w : nat) : list (list Q) :=
  replicate (h + 2) (replicate (w + 2) 0%Q).

(** The scent field of [ring] with the same scent on the cells east and
    south of the cell (0,0). *)
Definition two_trails : list (list Q) :=
  [[0; 0; 0; 0]; [0; 0; 1; 0]; [0; 1; 0; 0]; [0; 0; 0; 0]]%Q.

(** The colony that [__init__] builds under [direction_py] when
    [max_life * seed / 2147483647] rounds to 0 for every ant. *)
Definition young_ants (nb_ants : nat) (pos_init : pos) (max_life0 : Z) : Colony :=
  @Colony_init direction_py nb_ants pos_init max_life0 (λ _, 0).

(** An ant whose seed is 0, on the nest. *)
Definition ant_of_seed_0 : Ant := mkAnt 0 false 3 0 [(0, 0); (0, 0); (0, 0); (0, 0)] (-1).

(** How many ants carried food in [before] and carry none in [after]. *)
Definition delivered (before after : Colony) : Z :=
  Z.of_nat (length (List.filter (λ p, is_loaded p.1 && negb (is_loaded p.2))
                                (zip before after))).

(** Two ants of [ring] one tick after they left the nest: one went east,
    the other south. *)
Definition ring_walkers : Colony :=
  [mkAnt 1622650073 false 5 1 [(0, 0); (0, 1); (0, 0); (0, 0); (0, 0); (0, 0)] 1;
   mkAnt 1097816499 false 5 1 [(0, 0); (1, 0); (0, 0); (0, 0); (0, 0); (0, 0)] 3].

(** ** Vocabulary of the further properties *)

(** The ant [a], taken one step back along its recorded path as line 62
    does, stands on the nest. *)
Definition steps_onto (pos_nest : pos) (a : Ant) : bool :=
  bool_decide (np_get (historic_path a) (int64 (age a - 1)) = Some pos_nest).

(** How many entries of [loaded_ants] name an ant that steps onto the
    nest. *)
Definition arrivals (self : Colony) (loaded_ants : list nat) (pos_nest : pos) : Z :=
  Z.of_nat (length (filter (λ i, steps_onto pos_nest <$> self !! i = Some true)
                           loaded_ants)).

(** ** The set-up of the main program *)

(** Line 266: the number of ants that the worker [rank] of a communicator
    of [size] processes creates for a maze of [size_laby] rows and
    columns. [//] and [%] on Python integers round towards minus infinity,
    as [/] and [mod] on [Z] do; dividing by 0 raises ZeroDivisionError
    (here [None]). *)
Definition nb_ants (size_laby : Z * Z) (size rank : Z) : option Z :=
  if bool_decide (size = 0) then None else
  let total := (size_laby.1 * size_laby.2) / 4 in
  Some (total / size + (if bool_decide (rank < total mod size) then 1 else 0)).

(** The ants of all the workers of the communicator together. *)
Definition all_ants (size_laby : Z * Z) (size : Z) : option Z :=
  ns ← mapM (λ rank, nb_ants size_laby size (Z.of_nat rank)) (seq 0 (Z.to_nat size));
  Some (foldr Z.add 0 ns).

(** ** Runs of several ticks *)

(** [ticks fields the_maze pos_food pos_nest n self self']: [n] calls of
    [advance] in a row take the colony [self] to the colony [self'], each
    call being handed some scent field that satisfies [fields]. *)
Inductive ticks `{direction, maze_bits, pheromone_rule}
    (fields : list (list Q) → Prop) (the_maze : list (list Z)) (pos_food pos_nest : pos)
  : nat → Colony → Colony → Prop :=
| ticks_O self : ticks fields the_maze pos_food pos_nest 0 self self
| ticks_S n self fuel pheromon others food_counter r self' :
    fields pheromon →
    advance fuel self the_maze pos_food pos_nest pheromon others food_counter = Some r →
    ticks fields the_maze pos_food pos_nest n (tick_colony r) self' →
    ticks fields the_maze pos_food pos_nest (S n) self self'.

(** ** [Colony.display] *)

(** The calls of [screen.blit] that [display] makes, one per ant in order:
    the sprite [self.sprites[self.directions[i]]], looked up in a Python
    list, so that a negative direction counts from the end and a direction
    that names no sprite raises IndexError, and the pixel at which it is
    drawn, eight times the column and eight times the row of the ant. The
    products are int16 under the promotion rules of NumPy 2 and int64
    under those of NumPy 1; the two agree below 4096 rows and columns. *)
Definition display {Sprite} (self : Colony) (sprites : list Sprite)
  : option (list (Sprite * (Z * Z))) :=
  mapM (λ a, sprite ← np_get sprites (directions a);
             p ← position a;
             Some (sprite, (int16 (8 * p.2), int16 (8 * p.1)))) self.

(** ** More small inputs *)

(** The ant of [corridor] one tick after it left the nest (0,0): it stands
    on the food (0,1) and carries it. *)
Definition corridor_carrier : Colony :=
  [mkAnt 1622650073 true 3 1 [(0, 0); (0, 1); (0, 0); (0, 0)] 1].

(** The same ant one tick later, back on the nest. *)
Definition corridor_home : Colony :=
  [mkAnt 1622650073 false 3 0 [(0, 0); (0, 1); (0, 0); (0, 0)] 1].

(** The [n]-th direction that line 135 draws (line 137) for an ant that
    enters the retry loop with seed [seed]. *)
Definition draw (seed : Z) (n : nat) : Z := Nat.iter n lcg seed mod 4.

(** Two ants in [fork] at the third tick, once [return_to_nest] has run:
    the first carries food one step back from the food cell (0,2), the
    second has come back to (0,0) from the dead end. *)
Definition fork_walkers : Colony :=
  [mkAnt 2007237709 true 5 1 [(0, 0); (0, 1); (0, 2); (0, 0); (0, 0); (0, 0)] 1;
   mkAnt 1866991771 false 5 2 [(0, 0); (1, 0); (0, 0); (0, 0); (0, 0); (0, 0)] 0].



(** * Properties *)

(** ** Fixed-width integers and indices *)

Lemma wrap_small bits x :
  0 < bits → - 2 ^ (bits - 1) ≤ x < 2 ^ (bits - 1) → wrap bits x = x.
Proof.
  intros Hb Hx. unfold wrap.
  assert (2 ^ bits = 2 * 2 ^ (bits - 1)) as ->.
  { rewrite <- Z.pow_succ_r by lia. f_equal. lia. }
  rewrite Z.mod_small; lia.
Qed.

Lemma int8_small x : -128 ≤ x < 128 → int8 x = x.
Proof. intros. apply wrap_small; [lia|]. by change (2 ^ (8 - 1)) with 128. Qed.

Lemma int16_small x : -32768 ≤ x < 32768 → int16 x = x.
Proof. intros. apply wrap_small; [lia|]. by change (2 ^ (16 - 1)) with 32768. Qed.

Lemma int32_small x : -2147483648 ≤ x < 2147483648 → int32 x = x.
Proof. intros. apply wrap_small; [lia|]. by change (2 ^ (32 - 1)) with 2147483648. Qed.

Lemma int64_small x : -9223372036854775808 ≤ x < 9223372036854775808 → int64 x = x.
Proof.
  intros. apply wrap_small; [lia|].
  by change (2 ^ (64 - 1)) with 9223372036854775808.
Qed.

Lemma np_index_nonneg len i :
  0 ≤ i < Z.of_nat len → np_index len i = Some (Z.to_nat i).
Proof. intros. unfold np_index. by rewrite bool_decide_true. Qed.

Lemma np_index_lt len i k : np_index len i = Some k → (k < len)%nat.
Proof.
  unfold np_index. repeat case_bool_decide; intros; simplify_eq; lia.
Qed.

Lemma np_get_nonneg {A} (l : list A) i :
  0 ≤ i < Z.of_nat (length l) → np_get l i = l !! Z.to_nat i.
Proof. intros. unfold np_get. by rewrite np_index_nonneg. Qed.

Lemma np_get_is_Some {A} (l : list A) i :
  0 ≤ i < Z.of_nat (length l) → is_Some (np_get l i).
Proof.
  intros. rewrite np_get_nonneg by done. apply lookup_lt_is_Some_2. lia.
Qed.

Lemma np_set_nonneg {A} (l : list A) i x :
  0 ≤ i < Z.of_nat (length l) → np_set l i x = Some (<[Z.to_nat i := x]> l).
Proof. intros. unfold np_set. by rewrite np_index_nonneg. Qed.

Lemma np_set_length {A} (l l' : list A) i x :
  np_set l i x = Some l' → length l' = length l.
Proof.
  unfold np_set. destruct (np_index _ _); intros; simplify_eq/=.
  by rewrite length_insert.
Qed.

Lemma np_upd_length {A} (l l' : list A) i f :
  np_upd l i f = Some l' → length l' = length l.
Proof.
  unfold np_upd. destruct (np_get l i); simpl; [|done]. apply np_set_length.
Qed.

(** Reading back what was just written, and reading elsewhere. *)
Lemma np_get_set_eq {A} (l l' : list A) i x :
  np_set l i x = Some l' → np_get l' i = Some x.
Proof.
  intros Hs. unfold np_get. rewrite (np_set_length _ _ _ _ Hs).
  unfold np_set in Hs. destruct (np_index _ _) as [k|] eqn:Hk; simplify_eq/=.
  apply list_lookup_insert_eq. by eapply np_index_lt.
Qed.

Lemma np_upd_set {A} (l l' : list A) i x f :
  np_get l i = Some x → np_upd l i f = Some l' → np_set l i (f x) = Some l'.
Proof. unfold np_upd. by intros ->. Qed.

Lemma np_set_set {A} (l l1 l2 : list A) i x y :
  np_set l i x = Some l1 → np_set l1 i y = Some l2 → np_set l i y = Some l2.
Proof.
  intros H1 H2. unfold np_set in *. rewrite (np_set_length _ _ _ _ H1) in H2.
  destruct (np_index _ _); simplify_eq/=. by rewrite list_insert_insert_eq.
Qed.

(** ** Index arrays *)

Lemma length_on_idx {A} idx (f : A → A) l : length (on_idx idx f l) = length l.
Proof. apply length_imap. Qed.

Lemma lookup_on_idx {A} idx (f : A → A) l i :
  on_idx idx f l !! i = (λ a, if bool_decide (i ∈ idx) then f a else a) <$> l !! i.
Proof. apply list_lookup_imap. Qed.

Lemma mapM_lookup {A B} (f : A → option B) l k i a :
  mapM f l = Some k → l !! i = Some a → ∃ b, k !! i = Some b ∧ f a = Some b.
Proof.
  intros Hm Hl. apply mapM_Some_1 in Hm.
  destruct (Forall2_lookup_l _ _ _ _ _ Hm Hl) as (b & ? & ?). eauto.
Qed.

Lemma mapM_lookup_r {A B} (f : A → option B) l k i b :
  mapM f l = Some k → k !! i = Some b → ∃ a, l !! i = Some a ∧ f a = Some b.
Proof.
  intros Hm Hl. apply mapM_Some_1 in Hm.
  destruct (Forall2_lookup_r _ _ _ _ _ Hm Hl) as (a & ? & ?). eauto.
Qed.

Lemma on_idxM_length {A} idx (f : nat → A → option A) l l' :
  on_idxM idx f l = Some l' → length l' = length l.
Proof.
  intros Hm. apply length_mapM in Hm. by rewrite length_imap in Hm.
Qed.

Lemma on_idxM_lookup {A} idx (f : nat → A → option A) l l' i a :
  on_idxM idx f l = Some l' → l !! i = Some a →
  ∃ a', l' !! i = Some a' ∧
        (if bool_decide (i ∈ idx) then f i a = Some a' else a' = a).
Proof.
  intros Hm Hl. unfold on_idxM in Hm.
  destruct (mapM_lookup _ _ _ i (i, a) Hm) as (a' & Ha' & Hf).
  { by rewrite list_lookup_imap, Hl. }
  exists a'. split; [done|]. simpl in Hf. case_bool_decide; congruence.
Qed.

Lemma on_idxM_is_Some {A} idx (f : nat → A → option A) l :
  (∀ i a, l !! i = Some a → i ∈ idx → is_Some (f i a)) → is_Some (on_idxM idx f l).
Proof.
  intros Hf. unfold on_idxM. apply mapM_is_Some, Forall_lookup.
  intros i [j a] Hl. rewrite list_lookup_imap in Hl.
  destruct (l !! i) as [a0|] eqn:Ha0; simplify_eq/=.
  case_bool_decide; eauto.
Qed.

Lemma elem_of_nonzero_from k mask i :
  i ∈ nonzero_from k mask ↔ (k ≤ i)%nat ∧ mask !! (i - k)%nat = Some true.
Proof.
  revert k. induction mask as [|b mask IH]; intros k; simpl.
  - rewrite elem_of_nil. naive_solver.
  - destruct b.
    + rewrite elem_of_cons, IH. split.
      * intros [->|[? Hl]].
        -- split; [lia|]. by replace (k - k)%nat with 0%nat by lia.
        -- split; [lia|]. by replace (i - k)%nat with (S (i - S k)) by lia.
      * intros [? Hl]. destruct (decide (i = k)) as [->|]; [by left|right].
        split; [lia|]. by replace (i - k)%nat with (S (i - S k)) in Hl by lia.
    + rewrite IH. split.
      * intros [? Hl]. split; [lia|].
        by replace (i - k)%nat with (S (i - S k)) by lia.
      * intros [? Hl]. destruct (decide (i = k)) as [->|].
        -- by replace (k - k)%nat with 0%nat in Hl by lia.
        -- split; [lia|]. by replace (i - k)%nat with (S (i - S k)) in Hl by lia.
Qed.

Lemma elem_of_nonzero mask i : i ∈ nonzero mask ↔ mask !! i = Some true.
Proof.
  unfold nonzero. rewrite elem_of_nonzero_from.
  replace (i - 0)%nat with i by lia. naive_solver lia.
Qed.

Lemma nonzero_nil_iff mask : nonzero mask = [] ↔ ∀ i, mask !! i ≠ Some true.
Proof.
  split.
  - intros Hn i Hi. apply elem_of_nonzero in Hi. rewrite Hn in Hi.
    by apply elem_of_nil in Hi.
  - intros Hall. destruct (nonzero mask) as [|i l] eqn:Hn; [done|].
    destruct (Hall i). apply elem_of_nonzero. rewrite Hn. left.
Qed.

Lemma elem_of_pick {A} (test : A → bool) l idx i :
  i ∈ pick test l idx ↔ i ∈ idx ∧ ∃ a, l !! i = Some a ∧ test a = true.
Proof.
  unfold pick. rewrite list_elem_of_filter. split.
  - intros [Ht ?]. split; [done|]. destruct (l !! i) as [a|]; simplify_eq/=. eauto.
  - intros [? (a & -> & Ht)]. simpl. by rewrite Ht.
Qed.

Lemma elem_of_select idx mask i :
  i ∈ select idx mask → i ∈ idx.
Proof.
  revert mask. induction idx as [|j idx IH]; intros [|b mask]; simpl;
    try (by rewrite elem_of_nil).
  destruct b; rewrite ?elem_of_cons; naive_solver.
Qed.

Lemma elem_of_select_iff idx mask i :
  i ∈ select idx mask ↔ ∃ n, idx !! n = Some i ∧ mask !! n = Some true.
Proof.
  revert mask. induction idx as [|j idx IH]; intros [|b mask]; simpl.
  - rewrite elem_of_nil. naive_solver.
  - rewrite elem_of_nil. naive_solver.
  - rewrite elem_of_nil. split; [done|]. by intros (n & _ & ?).
  - destruct b.
    + rewrite elem_of_cons, IH. split.
      * intros [->|(n & ? & ?)]; [by exists 0%nat|by exists (S n)].
      * intros ([|n] & ? & ?); simplify_eq/=; eauto.
    + rewrite IH. split.
      * intros (n & ? & ?). by exists (S n).
      * intros ([|n] & ? & ?); simplify_eq/=; eauto.
Qed.

(** ** The merge across workers *)



Lemma maximum_lookup a b m k :
  maximum a b = Some m → m !! k = (x ← a !! k; y ← b !! k; Some (qmax x y)).
Proof.
  unfold maximum. case_bool_decide; [|done]. intros [= <-].
  rewrite lookup_zip_with. by destruct (a !! k), (b !! k).
Qed.

Lemma maximum_length a b m : maximum a b = Some m → length m = length a.
Proof.
  unfold maximum. case_bool_decide as Hl; [|done]. intros [= <-].
  rewrite length_zip_with. lia.
Qed.

(** What a worker holds at cell [k] after the collective: its own value
    combined by [qmax] with the value of each other worker in turn. *)
Lemma Allreduce_MAX_lookup others : ∀ buf merged k x,
  Allreduce_MAX buf others = Some merged → buf !! k = Some x →
  ∃ ys, Forall2 (λ o y, o !! k = Some y) others ys ∧
        merged !! k = Some (foldl qmax x ys).
Proof.
  induction others as [|o others IH]; intros buf merged k x Hm Hx; simpl in Hm.
  - simplify_eq. exists []. by split; [constructor|].
  - destruct (maximum buf o) as [b|] eqn:Hb; simplify_eq/=.
    pose proof (maximum_lookup _ _ _ k Hb) as Hk. rewrite Hx in Hk. simpl in Hk.
    destruct (o !! k) as [y|] eqn:Hy.
    + simpl in Hk. destruct (IH _ _ _ _ Hm Hk) as (ys & Hys & Hl).
      exists (y :: ys). split; [by constructor|done].
    + exfalso. simpl in Hk. apply lookup_ge_None in Hk, Hy.
      apply lookup_lt_Some in Hx. apply maximum_length in Hb as Hlen.
      unfold maximum in Hb. case_bool_decide; [|done]. lia.
Qed.




(** ** The retry loop, one row at a time *)

Section retry.
Context `{direction}.

Lemma position_with_seeds v a : position (with_seeds v a) = position a.
Proof. done. Qed.

Lemma retry_step_idle r :
  pending r = false →
  retry_step r = Some (mkRow (with_seeds (lcg (seeds (row_ant r))) (row_ant r))
                             (row_sensed r) (row_exploring r) (valid_moves r)).
Proof. intros Hp. unfold retry_step. by rewrite Hp. Qed.

Lemma retry_step_pending r r' :
  pending r = true → retry_step r = Some r' →
  row_sensed r' = row_sensed r ∧ row_exploring r' = true ∧
  seeds (row_ant r') = lcg (seeds (row_ant r)) ∧
  (valid_moves r' = false ∧
     row_ant r' = with_seeds (lcg (seeds (row_ant r))) (row_ant r)
   ∨ valid_moves r' = true ∧
     accepted_at (row_sensed r) (row_ant r) (lcg (seeds (row_ant r)) mod 4) (row_ant r')).
Proof.
  intros Hp Hs. unfold retry_step in Hs. rewrite Hp in Hs.
  assert (row_exploring r = true) as He.
  { unfold pending in Hp. by apply andb_prop in Hp as [? _]. }
  rewrite position_with_seeds in Hs.
  destruct (position (row_ant r)) as [p|] eqn:Hpos; [|discriminate Hs].
  cbn [mbind option_bind] in Hs.
  destruct (is_valid_move _ _ _ _ _) eqn:Hv.
  - destruct (np_set _ _ _) as [h|] eqn:Hh; [|discriminate Hs].
    cbn [mbind option_bind] in Hs. injection Hs as <-.
    cbn [row_sensed row_exploring row_ant valid_moves].
    split; [done|]. split; [done|]. split; [done|]. right. split; [done|].
    exists p, h. split; [done|]. split; [exact Hv|]. split; [exact Hh|]. done.
  - injection Hs as <-. cbn [row_sensed row_exploring row_ant valid_moves].
    split; [done|]. split; [done|]. split; [done|]. by left.
Qed.

Lemma retry_steps_idle k : ∀ r,
  pending r = false →
  retry_steps k r = Some (mkRow (with_seeds (Nat.iter k lcg (seeds (row_ant r))) (row_ant r))
                                (row_sensed r) (row_exploring r) (valid_moves r)).
Proof.
  induction k as [|k IH]; intros r Hp; simpl.
  - by destruct r as [[] ? ? ?].
  - rewrite retry_step_idle by done. simpl. rewrite IH by done. simpl.
    by rewrite <- Nat.iter_succ_r.
Qed.

(** A row that leaves the loop after [k] passes, having entered it
    pending, was accepted at some pass [j] of these. *)
Lemma retry_steps_pending k : ∀ r r',
  pending r = true → retry_steps k r = Some r' → pending r' = false →
  row_sensed r' = row_sensed r ∧
  seeds (row_ant r') = Nat.iter k lcg (seeds (row_ant r)) ∧
  ∃ j, (1 ≤ j ≤ k)%nat ∧
       accepted_at (row_sensed r) (row_ant r)
                   (Nat.iter j lcg (seeds (row_ant r)) mod 4) (row_ant r').
Proof.
  induction k as [|k IH]; intros r r' Hp Hs Hp'; simpl in Hs.
  - simplify_eq. congruence.
  - destruct (retry_step r) as [r1|] eqn:H1; simplify_eq/=.
    destruct (retry_step_pending _ _ Hp H1) as (Hse & Hex & Hsd & [[Hv Ha]|[Hv Hacc]]).
    + assert (pending r1 = true) as Hp1 by (unfold pending; by rewrite Hex, Hv).
      destruct (IH _ _ Hp1 Hs Hp') as (Hse' & Hsd' & j & Hj & Hacc).
      rewrite Hse' , Hse. split; [done|]. split.
      { rewrite Hsd', Hsd. by rewrite <- Nat.iter_succ_r. }
      exists (S j). split; [lia|]. rewrite Nat.iter_succ_r.
      rewrite Hse, Ha in Hacc. simpl in Hacc.
      destruct Hacc as (p & h & ? & ? & ? & ? & ? & ? & ? & ?).
      exists p, h. by repeat split.
    + assert (pending r1 = false) as Hp1 by (unfold pending; by rewrite Hv, andb_false_r).
      rewrite retry_steps_idle in Hs by done. simplify_eq/=.
      split; [done|]. split.
      { rewrite Hsd. by rewrite <- Nat.iter_succ_r. }
      exists 1%nat. split; [lia|]. simpl.
      destruct Hacc as (p & h & ? & ? & ? & ? & ? & ? & ? & ?).
      exists p, h. by repeat split.
Qed.

Lemma Forall2_retry_steps_S (rows rows1 rows' : list Row) k :
  Forall2 (λ r r1, retry_step r = Some r1) rows rows1 →
  Forall2 (λ r1 r', retry_steps k r1 = Some r') rows1 rows' →
  Forall2 (λ r r', retry_steps (S k) r = Some r') rows rows'.
Proof.
  intros H1. revert rows'. induction H1 as [|r r1 rows rows1 Hr _ IH];
    intros rows' H2; inversion H2; simplify_eq; constructor.
  - simpl. by rewrite Hr.
  - by apply IH.
Qed.

(** The loop is [k] passes over every row, for one [k] shared by the
    colony: the number of passes until no row is pending. *)
Lemma retry_loop_steps fuel : ∀ rows rows',
  retry_loop fuel rows = Some rows' →
  ∃ k, (k ≤ fuel)%nat ∧
       Forall2 (λ r r', retry_steps k r = Some r') rows rows' ∧
       existsb pending rows' = false ∧
       (existsb pending rows = false ↔ k = 0%nat).
Proof.
  induction fuel as [|fuel IH]; intros rows rows' Hl; simpl in Hl.
  - destruct (existsb pending rows) eqn:Hp; simplify_eq.
    exists 0%nat. split; [done|]. split; [|done].
    apply Forall2_same_length_lookup_2; [done|]. intros i r r' ??. simpl. congruence.
  - destruct (existsb pending rows) eqn:Hp; simplify_eq.
    + destruct (mapM retry_step rows) as [rows1|] eqn:Hm; simplify_eq/=.
      destruct (IH _ _ Hl) as (k & Hk & HF & Hp' & _).
      exists (S k). split; [lia|]. split.
      { eapply Forall2_retry_steps_S; [by apply mapM_Some_1|done]. }
      split; [done|]. split; [congruence|lia].
    + exists 0%nat. split; [lia|]. split; [|done].
      apply Forall2_same_length_lookup_2; [done|]. intros i r r' ??. simpl. congruence.
Qed.

End retry.

(** ** [explore_moves], one ant at a time *)

Lemma is_exploring_not_following a s :
  is_exploring a s = true → is_following (choices a) s = false.
Proof.
  unfold is_exploring, is_following. intros [Hc|Hm]%orb_prop.
  - by rewrite Hc.
  - apply Qeq_bool_iff in Hm.
    assert (Qle_bool (max_pheromones s) 0 = true) as ->.
    { apply Qle_bool_iff. rewrite Hm. apply Qle_refl. }
    by rewrite andb_false_r.
Qed.

Lemma sense_with_seeds `{maze_bits} the_maze pheromon v a :
  sense the_maze pheromon (with_seeds v a) = sense the_maze pheromon a.
Proof. done. Qed.

Lemma follow_step_with_seeds s v a :
  follow_step s (with_seeds v a) = with_seeds v <$> follow_step s a.
Proof.
  unfold follow_step. rewrite position_with_seeds. simpl.
  destruct (position a); simpl; [|done].
  repeat (match goal with |- context [mbind _ ?x] => destruct x; simpl; [|done] end).
  done.
Qed.

Lemma follow_step_frame s a a' :
  follow_step s a = Some a' →
  seeds a' = seeds a ∧ is_loaded a' = is_loaded a ∧ max_life a' = max_life a ∧
  age a' = age a ∧ directions a' = directions a ∧
  length (historic_path a') = length (historic_path a).
Proof.
  unfold follow_step. intros Hf.
  destruct (position a) as [p|]; simplify_eq/=.
  destruct (np_set (historic_path a) _ p) as [h0|] eqn:H0; simplify_eq/=.
  destruct (np_upd h0 _ _) as [h1|] eqn:H1; simplify_eq/=.
  destruct (np_upd h1 _ _) as [h2|] eqn:H2; simplify_eq/=.
  destruct (np_upd h2 _ _) as [h3|] eqn:H3; simplify_eq/=.
  destruct (np_upd h3 _ _) as [h4|] eqn:H4; simplify_eq/=.
  repeat split.
  apply np_upd_length in H1, H2, H3, H4. apply np_set_length in H0. congruence.
Qed.

Section explore_moves.
Context `{direction, maze_bits}.

Lemma lookup_reseed unl self i :
  reseed unl self !! i
  = (λ a, if bool_decide (i ∈ unl) then with_seeds (lcg (seeds a)) a else a) <$> self !! i.
Proof. apply lookup_on_idx. Qed.

Lemma elem_of_ind_exploring_ants self sensed unl i :
  i ∈ ind_exploring_ants self sensed unl ↔
  i ∈ unl ∧ ∃ a s, self !! i = Some a ∧ sensed !! i = Some s ∧ is_exploring a s = true.
Proof.
  unfold ind_exploring_ants. rewrite elem_of_pick. split.
  - intros [? ([a s] & Hl & ?)]. split; [done|]. exists a, s.
    rewrite lookup_zip_with in Hl.
    destruct (self !! i), (sensed !! i); simplify_eq/=. done.
  - intros [? (a & s & Ha & Hs & ?)]. split; [done|]. exists (a, s).
    rewrite lookup_zip_with, Ha, Hs. done.
Qed.

Lemma elem_of_ind_following_ants chs sensed unl i :
  i ∈ ind_following_ants chs sensed unl ↔
  i ∈ unl ∧ ∃ c s, chs !! i = Some c ∧ sensed !! i = Some s ∧ is_following c s = true.
Proof.
  unfold ind_following_ants. rewrite elem_of_pick. split.
  - intros [? ([c s] & Hl & ?)]. split; [done|]. exists c, s.
    rewrite lookup_zip_with in Hl.
    destruct (chs !! i), (sensed !! i); simplify_eq/=. done.
  - intros [? (c & s & Ha & Hs & ?)]. split; [done|]. exists (c, s).
    rewrite lookup_zip_with, Ha, Hs. done.
Qed.

Lemma lookup_loop_rows self sensed expl i a s :
  self !! i = Some a → sensed !! i = Some s →
  loop_rows self sensed expl !! i = Some (mkRow a s (bool_decide (i ∈ expl)) false).
Proof.
  intros Ha Hs. unfold loop_rows.
  by rewrite list_lookup_imap, lookup_zip_with, Ha, Hs.
Qed.

Lemma existsb_false_lookup {A} (f : A → bool) l i x :
  existsb f l = false → l !! i = Some x → f x = false.
Proof.
  intros He Hl. destruct (f x) eqn:Hf; [|done].
  assert (existsb f l = true); [|congruence].
  apply existsb_exists. exists x. split; [|done].
  apply list_elem_of_In, list_elem_of_lookup. eauto.
Qed.

Lemma existsb_true_lookup {A} (f : A → bool) l i x :
  l !! i = Some x → f x = true → existsb f l = true.
Proof.
  intros Hl Hf. apply existsb_exists. exists x. split; [|done].
  apply list_elem_of_In, list_elem_of_lookup. eauto.
Qed.

(** The loop stage of [explore_moves]. *)
Lemma loop_stage fuel self sensed expl self2 :
  length sensed = length self →
  (∀ i, i ∈ expl → (i < length self)%nat) →
  (if bool_decide (0 < length expl)%nat then
     rows ← retry_loop fuel (loop_rows self sensed expl); Some (map row_ant rows)
   else Some self) = Some self2 →
  ∃ k, (k ≤ fuel)%nat ∧ (expl = [] ↔ k = 0%nat) ∧ length self2 = length self ∧
    ∀ i a s, self !! i = Some a → sensed !! i = Some s →
      ∃ a', self2 !! i = Some a' ∧
        seeds a' = Nat.iter k lcg (seeds a) ∧
        if bool_decide (i ∈ expl) then
          ∃ j, (1 ≤ j ≤ k)%nat ∧ accepted_at s a (Nat.iter j lcg (seeds a) mod 4) a'
        else a' = with_seeds (Nat.iter k lcg (seeds a)) a.
Proof.
  intros Hlen Hexpl Hst. case_bool_decide as Hne.
  - destruct (retry_loop _ _) as [rows'|] eqn:Hl; simplify_eq/=.
    destruct (retry_loop_steps _ _ _ Hl) as (k & Hk & HF & Hp' & Hk0).
    exists k. split; [done|]. split.
    { split; [intros ->; simpl in Hne; lia|]. intros ->.
      destruct expl as [|i expl]; [done|]. exfalso.
      assert (i < length self)%nat as Hi by (apply Hexpl; left).
      destruct (lookup_lt_is_Some_2 self i Hi) as [a Ha].
      destruct (lookup_lt_is_Some_2 sensed i) as [s Hs]; [lia|].
      pose proof (lookup_loop_rows self sensed (i :: expl) i a s Ha Hs) as Hr.
      assert (existsb pending (loop_rows self sensed (i :: expl)) = true) as Hex.
      { eapply existsb_true_lookup; [done|]. unfold pending. simpl.
        rewrite bool_decide_true; [done|left]. }
      destruct Hk0 as [_ Hk0]. rewrite Hk0 in Hex; done. }
    split.
    { rewrite length_map. apply Forall2_length in HF. rewrite <- HF.
      unfold loop_rows. rewrite length_imap, length_zip_with. lia. }
    intros i a s Ha Hs.
    pose proof (lookup_loop_rows self sensed expl i a s Ha Hs) as Hr.
    destruct (Forall2_lookup_l _ _ _ _ _ HF Hr) as (r' & Hr' & Hsteps).
    exists (row_ant r'). split; [by rewrite list_lookup_fmap, Hr'|].
    case_bool_decide as Hi.
    + assert (pending (mkRow a s true false) = true) as Hpd by done.
      pose proof (existsb_false_lookup _ _ _ _ Hp' Hr') as Hpd'.
      destruct (retry_steps_pending _ _ _ Hpd Hsteps Hpd') as (_ & Hsd & j & Hj & Hacc).
      split; [done|]. by exists j.
    + rewrite retry_steps_idle in Hsteps by done. simplify_eq/=. done.
  - simplify_eq. exists 0%nat. split; [lia|]. split.
    { split; [done|]. intros _. destruct expl; [done|]. simpl in Hne. lia. }
    split; [done|]. intros i a s Ha Hs. exists a. split; [done|]. split; [done|].
    rewrite bool_decide_false; [by destruct a|].
    intros Hi. destruct expl; [by apply elem_of_nil in Hi|]. simpl in Hne. lia.
Qed.

Lemma bool_decide_andb (P Q : Prop) `{Decision P, Decision Q} (b : bool) :
  (P ↔ Q ∧ b = true) → bool_decide P = bool_decide Q && b.
Proof.
  intros Hiff. destruct b; repeat case_bool_decide; simpl; try done; naive_solver.
Qed.

Lemma sense_reseed unl self the_maze pheromon sensed i a :
  mapM (sense the_maze pheromon) (reseed unl self) = Some sensed →
  self !! i = Some a →
  ∃ s, sensed !! i = Some s ∧ sense the_maze pheromon a = Some s.
Proof.
  intros Hm Ha.
  destruct (mapM_lookup _ _ _ i
              (if bool_decide (i ∈ unl) then with_seeds (lcg (seeds a)) a else a) Hm)
    as (s & Hs & Hse).
  { by rewrite lookup_reseed, Ha. }
  exists s. split; [done|]. by case_bool_decide.
Qed.

(** Lines 89-175, read off one ant at a time. The same [k], the number of
    passes of the retry loop, serves every ant. *)
Lemma explore_moves_spec fuel self unl the_maze pheromon self' :
  explore_moves fuel self unl the_maze pheromon = Some self' →
  ∃ k sensed,
    mapM (sense the_maze pheromon) (reseed unl self) = Some sensed ∧
    (k ≤ fuel)%nat ∧
    (ind_exploring_ants (reseed unl self) sensed unl = [] ↔ k = 0%nat) ∧
    length self' = length self ∧
    ∀ i a, self !! i = Some a →
      ∃ s a', sensed !! i = Some s ∧ sense the_maze pheromon a = Some s ∧
              self' !! i = Some a' ∧ moved_ant k (bool_decide (i ∈ unl)) s a a'.
Proof.
  unfold explore_moves. intros He.
  destruct (idx_in_range unl self) eqn:Hrange; simpl in He; [|done].
  destruct (mapM (sense the_maze pheromon) (reseed unl self)) as [sensed|] eqn:Hsense;
    simpl in He; [|done].
  set (self1 := reseed unl self) in *.
  set (expl := ind_exploring_ants self1 sensed unl) in *.
  set (foll := ind_following_ants (map choices self1) sensed unl) in *.
  assert (length self1 = length self) as Hlen1 by apply length_on_idx.
  assert (length sensed = length self1) as Hlens by (symmetry; by eapply length_mapM).
  match type of He with
  | (?stage ≫= _) = _ => destruct stage as [self2|] eqn:Hstage; simpl in He; [|done]
  end.
  destruct (loop_stage fuel self1 sensed expl self2) as (k & Hk & Hk0 & Hlen2 & Hrows);
    [done| |done|].
  { intros i [_ (a & s & Ha & _)]%elem_of_ind_exploring_ants.
    by apply lookup_lt_Some in Ha. }
  exists k, sensed. split; [done|]. split; [done|]. split; [done|].
  assert (length self' = length self2) as Hlen'.
  { case_bool_decide; [by eapply on_idxM_length|by simplify_eq]. }
  split; [congruence|].
  intros i a Ha.
  destruct (sense_reseed _ _ _ _ _ _ _ Hsense Ha) as (s & Hs & Hsa).
  exists s.
  set (a1 := if bool_decide (i ∈ unl) then with_seeds (lcg (seeds a)) a else a).
  assert (self1 !! i = Some a1) as Ha1 by (unfold self1; by rewrite lookup_reseed, Ha).
  destruct (Hrows i a1 s Ha1 Hs) as (a2 & Ha2 & Hsd2 & Hcase).
  assert (bool_decide (i ∈ expl) = bool_decide (i ∈ unl) && is_exploring a1 s) as Hexpl.
  { apply bool_decide_andb. unfold expl.
    rewrite elem_of_ind_exploring_ants. split.
    - intros [? (a0 & s0 & ? & ? & ?)]. simplify_eq. done.
    - intros [? ?]. split; [done|]. by exists a1, s. }
  assert (bool_decide (i ∈ foll) = bool_decide (i ∈ unl) && is_following (choices a1) s)
    as Hfoll.
  { apply bool_decide_andb. unfold foll.
    rewrite elem_of_ind_following_ants. split.
    - intros [? (c0 & s0 & Hc & ? & ?)]. rewrite list_lookup_fmap, Ha1 in Hc.
      simplify_eq/=. done.
    - intros [? ?]. split; [done|]. exists (choices a1), s.
      by rewrite list_lookup_fmap, Ha1. }
  assert (∃ a', self' !! i = Some a' ∧
            if bool_decide (i ∈ foll) then follow_step s a2 = Some a' else a' = a2)
    as (a' & Ha' & Hfollow).
  { clear Hfoll. destruct (bool_decide (0 < length foll)%nat) eqn:Hne.
    - destruct (on_idxM_lookup _ _ _ _ _ _ He Ha2) as (a' & Ha' & Hf).
      exists a'. split; [done|]. case_bool_decide; [|done].
      by rewrite Hs in Hf.
    - simplify_eq. exists a2. split; [done|].
      rewrite bool_decide_false; [done|].
      intros Hi. apply bool_decide_eq_false in Hne.
      destruct foll; [by apply elem_of_nil in Hi|]. simpl in Hne. lia. }
  exists a'. split; [done|]. split; [done|]. split; [done|].
  assert (seeds a1 = seeds (if bool_decide (i ∈ unl) then with_seeds (lcg (seeds a)) a else a))
    as Hsa1 by done.
  unfold moved_ant. fold a1.
  rewrite Hexpl in Hcase. rewrite Hfoll in Hfollow.
  assert (position a1 = position a ∧ historic_path a1 = historic_path a ∧
          directions a1 = directions a ∧ age a1 = age a ∧ is_loaded a1 = is_loaded a ∧
          max_life a1 = max_life a) as (Hp1 & Hh1 & Hd1 & Hg1 & Hl1 & Hm1).
  { unfold a1. by case_bool_decide. }
  destruct (bool_decide (i ∈ unl) && is_exploring a1 s) eqn:Hex.
  - assert (is_following (choices a1) s = false) as Hnf.
    { apply is_exploring_not_following. by apply andb_prop in Hex as [_ ?]. }
    rewrite Hnf, andb_false_r in Hfollow. subst a'.
    destruct Hcase as (j & Hj & p & h & Hpos & Hval & Hset & Hh & Hd & Hl & Hm & Hg).
    split; [done|]. split; [congruence|]. split; [congruence|]. split; [congruence|].
    exists j. split; [done|]. exists p, h.
    rewrite <- Hp1, <- Hd1, <- Hh1, <- Hg1, <- Hl1, <- Hm1. done.
  - subst a2. simpl in Hsd2.
    destruct (bool_decide (i ∈ unl) && is_following (choices a1) s) eqn:Hfo.
    + rewrite follow_step_with_seeds in Hfollow.
      destruct (follow_step s a1) as [a3|] eqn:H3; simplify_eq/=.
      destruct (follow_step_frame _ _ _ H3) as (? & ? & ? & ? & ? & ?).
      split; [done|]. split; [congruence|]. split; [congruence|]. split; [congruence|].
      exists (with_seeds (seeds a) a3). split; [|split; [done|congruence]].
      assert (a1 = with_seeds (seeds a1) a) as Heq1.
      { unfold a1. case_bool_decide; by destruct a. }
      rewrite Heq1, follow_step_with_seeds in H3.
      destruct (follow_step s a) as [a4|] eqn:Hfs4; simplify_eq/=.
      destruct (follow_step_frame _ _ _ Hfs4) as (Hs4 & _).
      rewrite <- Hs4. by destruct a4.
    + subst a'. simpl. done.
Qed.

End explore_moves.

(** ** [explore], one ant at a time *)

Section explore.
Context `{direction, maze_bits}.

Lemma explore_spec fuel self unl the_maze pos_food pos_nest pheromon self' :
  explore fuel self unl the_maze pos_food pos_nest pheromon = Some self' →
  ∃ moved,
    explore_moves fuel self unl the_maze pheromon = Some moved ∧
    length self' = length moved ∧
    ∀ i am, moved !! i = Some am →
      ∃ a', self' !! i = Some a' ∧
            settle_ant (bool_decide (i ∈ unl)) pos_food pos_nest am = Some a'.
Proof.
  unfold explore. intros He.
  destruct (explore_moves _ _ _ _ _) as [moved|]; simpl in He; [|done].
  exists moved. split; [done|].
  destruct (mapM (kill_step pos_nest) _) as [killed|] eqn:Hk; simpl in He; [|done].
  pose proof (length_mapM _ _ _ Hk) as Hlk.
  pose proof (on_idxM_length _ _ _ _ He) as Hll.
  split.
  { rewrite Hll, <- Hlk. case_bool_decide; [apply length_on_idx|done]. }
  intros i am Ham.
  set (aged := if bool_decide (i ∈ unl) then with_age (int64 (age am + 1)) am else am).
  assert ((if bool_decide (0 < length unl)%nat
           then on_idx unl (λ a, with_age (int64 (age a + 1)) a) moved
           else moved) !! i = Some aged) as Haged.
  { unfold aged. case_bool_decide as Hne.
    - by rewrite lookup_on_idx, Ham.
    - rewrite bool_decide_false; [done|]. intros Hi.
      destruct unl; [by apply elem_of_nil in Hi|]. simpl in Hne. lia. }
  destruct (mapM_lookup _ _ _ _ _ Hk Haged) as (ak & Hak & Hkill).
  destruct (on_idxM_lookup _ _ _ _ _ _ He Hak) as (a' & Ha' & Hload).
  exists a'. split; [done|]. unfold settle_ant. fold aged. rewrite Hkill. simpl.
  case_bool_decide; congruence.
Qed.

Lemma kill_step_frame pos_nest a a' :
  kill_step pos_nest a = Some a' →
  seeds a' = seeds a ∧ is_loaded a' = is_loaded a ∧ max_life a' = max_life a ∧
  length (historic_path a') = length (historic_path a).
Proof.
  unfold kill_step. case_bool_decide; [|by intros [= <-]].
  destruct (np_set _ _ _) as [h|] eqn:Hh; simpl; [|done]. intros [= <-]. simpl.
  repeat split. by eapply np_set_length.
Qed.

Lemma load_step_frame pos_food a a' :
  load_step pos_food a = Some a' →
  seeds a' = seeds a ∧ max_life a' = max_life a ∧ age a' = age a ∧
  historic_path a' = historic_path a ∧ directions a' = directions a.
Proof.
  unfold load_step. destruct (position a); simpl; [|done]. intros [= <-].
  by destruct (_ && _).
Qed.

Lemma settle_ant_seeds unl pos_food pos_nest a a' :
  settle_ant unl pos_food pos_nest a = Some a' → seeds a' = seeds a.
Proof.
  unfold settle_ant. intros Hs.
  destruct (kill_step _ _) as [ak|] eqn:Hk; simpl in Hs; [|done].
  apply kill_step_frame in Hk as (Hk & _).
  destruct unl.
  - apply load_step_frame in Hs as (-> & _). by rewrite Hk.
  - simplify_eq. by rewrite Hk.
Qed.

Lemma settle_ant_directions unl pos_food pos_nest a a' :
  settle_ant unl pos_food pos_nest a = Some a' →
  directions a' =
    if bool_decide ((if unl then int64 (age a + 1) else age a) = max_life a)
    then int8 DIR_NONE else directions a.
Proof.
  unfold settle_ant. intros Hs.
  destruct (kill_step _ _) as [ak|] eqn:Hk; simpl in Hs; [|done].
  assert (directions a' = directions ak) as ->.
  { destruct unl; [by apply load_step_frame in Hs as (_ & _ & _ & _ & ->)|congruence]. }
  unfold kill_step in Hk. destruct unl; simpl in *;
    case_bool_decide; simplify_eq/=; try done;
    destruct (np_set _ _ _); simplify_eq/=; done.
Qed.

(** C10. The scent-following branch of lines 160-175 leaves the stored
    direction of the ants it moves as it was: after the moves of the tick
    an ant of [ind_following_ants] still carries the direction it had when
    [explore] was entered, which is therefore what line 153 compares with
    at its next random exploration. At the end of [explore] that direction
    is still there, unless line 187 resets it because the ant reached its
    [max_life]. *)
Theorem following_keeps_directions fuel self unl the_maze pos_food pos_nest pheromon
    self' sensed i a :
  explore fuel self unl the_maze pos_food pos_nest pheromon = Some self' →
  mapM (sense the_maze pheromon) (reseed unl self) = Some sensed →
  i ∈ ind_following_ants (map choices (reseed unl self)) sensed unl →
  self !! i = Some a →
  (∀ s b b', follow_step s b = Some b' → directions b' = directions b) ∧
  ∃ moved am a',
    explore_moves fuel self unl the_maze pheromon = Some moved ∧
    moved !! i = Some am ∧ directions am = directions a ∧
    self' !! i = Some a' ∧
    directions a' = if bool_decide (int64 (age a + 1) = max_life a)
                    then int8 DIR_NONE else directions a.
Proof.
  intros He Hsensed Hi Ha. split.
  { intros s b b' Hf. by apply follow_step_frame in Hf as (_ & _ & _ & _ & ? & _). }
  destruct (explore_spec _ _ _ _ _ _ _ _ He) as (moved & Hm & _ & Hsettle).
  destruct (explore_moves_spec _ _ _ _ _ _ Hm)
    as (k & sensed' & Hs' & _ & _ & _ & Hmoved).
  assert (sensed' = sensed) as -> by congruence.
  destruct (Hmoved i a Ha) as (s & am & Hs & _ & Ham & Hmv).
  destruct (Hsettle i am Ham) as (a' & Ha' & Hst).
  apply elem_of_ind_following_ants in Hi as (Hunl & c & s0 & Hc & Hs0 & Hfol).
  rewrite list_lookup_fmap, lookup_reseed, Ha in Hc. simpl in Hc.
  rewrite bool_decide_true in Hc by done. simplify_eq/=.
  unfold moved_ant in Hmv. rewrite bool_decide_true in Hmv by done. simpl in Hmv.
  destruct Hmv as (_ & _ & Hml & Hage & Hmv).
  match type of Hmv with
  | context [is_exploring ?x ?y] =>
      assert (is_exploring x y = false) as Hne;
        [destruct (is_exploring x y) eqn:Hex; [|done];
         apply is_exploring_not_following in Hex; simpl in *; congruence|]
  end.
  rewrite Hne, Hfol in Hmv. destruct Hmv as (a2 & _ & _ & Hd).
  exists moved, am, a'. repeat (split; [done|]).
  rewrite (settle_ant_directions _ _ _ _ _ Hst).
  rewrite (bool_decide_true (i ∈ unl)) by done. by rewrite Hage, Hml, Hd.
Qed.

Lemma opposite_is_3_minus d d' :
  directions_ok → opposite d = Some d' → d' = int8 (3 - d).
Proof.
  intros (? & ? & ? & ? & ? & ? & ? & ?).
  unfold opposite. repeat case_bool_decide; intros; simplify_eq;
    rewrite int8_small; lia.
Qed.

(** C6. An ant of [ind_exploring_ants] whose cell has two exits or more
    leaves the retry loop with a direction that is not the opposite of the
    direction it had stored; a draw that turns the ant back is accepted
    only in a cell with exactly one exit. *)
Theorem no_u_turn fuel self unl the_maze pheromon moved sensed i a s :
  directions_ok →
  explore_moves fuel self unl the_maze pheromon = Some moved →
  mapM (sense the_maze pheromon) (reseed unl self) = Some sensed →
  i ∈ ind_exploring_ants (reseed unl self) sensed unl →
  self !! i = Some a → sensed !! i = Some s →
  ∃ a', moved !! i = Some a' ∧
        (2 ≤ nb_exits s → opposite (directions a) ≠ Some (directions a')) ∧
        (opposite (directions a) = Some (directions a') → nb_exits s = 1).
Proof.
  intros Hdir Hm Hsensed Hi Ha Hs.
  destruct (explore_moves_spec _ _ _ _ _ _ Hm)
    as (k & sensed' & Hs' & _ & _ & _ & Hmoved).
  assert (sensed' = sensed) as -> by congruence.
  destruct (Hmoved i a Ha) as (s' & a' & Hs'' & _ & Ha' & Hmv).
  assert (s' = s) as -> by congruence.
  apply elem_of_ind_exploring_ants in Hi as (Hunl & a0 & s0 & Ha0 & Hs0 & Hex).
  rewrite lookup_reseed, Ha in Ha0. simpl in Ha0.
  rewrite bool_decide_true in Ha0 by done. simplify_eq/=.
  unfold moved_ant in Hmv. rewrite bool_decide_true in Hmv by done. simpl in Hmv.
  rewrite Hex in Hmv.
  destruct Hmv as (_ & _ & _ & _ & j & _ & p & h & _ & Hval & _ & _ & Hd & _).
  exists a'. split; [done|].
  unfold is_valid_move in Hval. apply andb_prop in Hval as [_ Hturn].
  apply orb_prop in Hturn. rewrite Hd.
  split.
  - intros Hge Hopp%opposite_is_3_minus; [|done].
    destruct Hturn as [Hne|Hone]; case_bool_decide; try done. lia.
  - intros Hopp%opposite_is_3_minus; [|done].
    destruct Hturn as [Hne|Hone]; by case_bool_decide.
Qed.

End explore.

(** ** [return_to_nest], one ant at a time *)

Lemma idx_in_range_lookup {A} idx (l : list A) i :
  idx_in_range idx l = true → i ∈ idx → (i < length l)%nat.
Proof.
  unfold idx_in_range. rewrite forallb_forall. intros Hall Hi.
  apply list_elem_of_In in Hi. apply Hall in Hi. by case_bool_decide.
Qed.

Lemma pos_eq_dec_split (p q : pos) :
  bool_decide (p.1 = q.1) && bool_decide (p.2 = q.2) = bool_decide (p = q).
Proof.
  destruct p as [p1 p2], q as [q1 q2]. simpl.
  repeat case_bool_decide; simplify_eq; done.
Qed.

Lemma return_to_nest_spec self loaded_ants pos_nest food_counter self' fc' :
  return_to_nest self loaded_ants pos_nest food_counter = Some (self', fc') →
  length self' = length self ∧
  ∀ i a, self !! i = Some a →
    ∃ a', self' !! i = Some a' ∧
          if bool_decide (i ∈ loaded_ants) then back_ant pos_nest a = Some a' else a' = a.
Proof.
  unfold return_to_nest. intros Hr.
  destruct (idx_in_range loaded_ants self) eqn:Hrange; simpl in Hr; [|done].
  set (dec := λ a, with_age (int64 (age a - 1)) a) in *.
  set (self1 := on_idx loaded_ants dec self) in *.
  destruct (mapM _ loaded_ants) as [tmp|] eqn:Htmp; simpl in Hr; [|done].
  assert (∀ n i a, loaded_ants !! n = Some i → self !! i = Some a →
            ∃ p, position (dec a) = Some p ∧
                 tmp !! n = Some (bool_decide (p.1 = pos_nest.1),
                                  bool_decide (p.2 = pos_nest.2))) as Hkey.
  { intros n i a Hn Ha.
    destruct (mapM_lookup _ _ _ _ _ Htmp Hn) as (t & Ht & Hf).
    assert (self1 !! i = Some (dec a)) as H1.
    { unfold self1. rewrite lookup_on_idx, Ha. simpl.
      rewrite bool_decide_true; [done|]. apply list_elem_of_lookup. eauto. }
    rewrite H1 in Hf. simpl in Hf.
    destruct (position (dec a)) as [p|]; simplify_eq/=. eauto. }
  set (mask := map (λ t : bool * bool, t.1 && t.2) tmp) in *.
  assert (∀ i a p, i ∈ loaded_ants → self !! i = Some a → position (dec a) = Some p →
            (i ∈ select loaded_ants mask ↔ p = pos_nest)) as Hsel.
  { intros i a p Hi Ha Hp. rewrite elem_of_select_iff. split.
    - intros (n & Hn & Hm). destruct (Hkey n i a Hn Ha) as (p' & Hp' & Ht).
      simplify_eq. unfold mask in Hm. rewrite list_lookup_fmap, Ht in Hm.
      simpl in Hm. rewrite pos_eq_dec_split in Hm. injection Hm as Hm.
      by apply bool_decide_eq_true in Hm.
    - intros ->. apply list_elem_of_lookup in Hi as (n & Hn). exists n. split; [done|].
      destruct (Hkey n i a Hn Ha) as (p' & Hp' & Ht). simplify_eq.
      unfold mask. rewrite list_lookup_fmap, Ht. simpl.
      by rewrite pos_eq_dec_split, bool_decide_true. }
  assert (∀ i a, self !! i = Some a → i ∈ loaded_ants →
            ∃ p, position (dec a) = Some p) as Hpos.
  { intros i a Ha (n & Hn)%list_elem_of_lookup.
    destruct (Hkey n i a Hn Ha) as (p & ? & _). eauto. }
  assert (self' = on_idx (select loaded_ants mask)
                         (λ a, with_age 0 (with_is_loaded UNLOADED a)) self1
          ∨ self' = self1 ∧ select loaded_ants mask = []) as Hcases.
  { assert (nonzero mask = [] → select loaded_ants mask = []) as Hnone.
    { intros Hnz. destruct (select loaded_ants mask) as [|i l] eqn:Hs; [done|].
      assert (i ∈ select loaded_ants mask) as Hi by (rewrite Hs; left).
      apply elem_of_select_iff in Hi as (n & _ & Hm).
      apply elem_of_nonzero in Hm. rewrite Hnz in Hm. by apply elem_of_nil in Hm. }
    destruct (existsb _ tmp) eqn:Hany.
    - case_bool_decide as Hlen; simplify_eq; [by left|right].
      split; [done|]. apply Hnone. destruct (nonzero mask); [done|simpl in Hlen; lia].
    - simplify_eq. right. split; [done|]. apply Hnone.
      apply nonzero_nil_iff. intros n Hn. unfold mask in Hn.
      rewrite list_lookup_fmap in Hn. destruct (tmp !! n) as [t|] eqn:Ht; simplify_eq/=.
      pose proof (existsb_false_lookup _ _ _ _ Hany Ht) as Hf. simpl in Hf.
      destruct t as [[] []]; simpl in *; done. }
  split.
  { destruct Hcases as [->|[-> _]]; unfold self1; by rewrite ?length_on_idx. }
  intros i a Ha.
  assert (self1 !! i = Some (if bool_decide (i ∈ loaded_ants) then dec a else a)) as H1.
  { unfold self1. by rewrite lookup_on_idx, Ha. }
  case_bool_decide as Hi.
  - destruct (Hpos i a Ha Hi) as (p & Hp).
    pose proof (Hsel i a p Hi Ha Hp) as Hiff.
    unfold back_ant. fold (dec a). rewrite Hp. simpl.
    destruct Hcases as [->|[-> Hnil]].
    + eexists. split; [by rewrite lookup_on_idx, H1|]. simpl.
      f_equal. repeat case_bool_decide; naive_solver.
    + exists (dec a). split; [done|]. f_equal.
      rewrite bool_decide_false; [done|]. intros Hn. apply Hiff in Hn.
      rewrite Hnil in Hn. by apply elem_of_nil in Hn.
  - exists a. split; [|done].
    destruct Hcases as [->|[-> _]]; [|done].
    rewrite lookup_on_idx, H1. simpl. rewrite bool_decide_false; [done|].
    intros Hs. by apply elem_of_select in Hs.
Qed.

(** ** [advance], one ant at a time *)

Section advance.
Context `{direction, maze_bits, pheromone_rule}.

Lemma explore_explored_ant fuel self unl the_maze pos_food pos_nest pheromon self' :
  explore fuel self unl the_maze pos_food pos_nest pheromon = Some self' →
  length self' = length self ∧
  ∀ i a, self !! i = Some a →
    ∃ a', self' !! i = Some a' ∧
          explored_ant (bool_decide (i ∈ unl)) the_maze pheromon pos_food pos_nest a a'.
Proof.
  intros He. destruct (explore_spec _ _ _ _ _ _ _ _ He) as (moved & Hm & Hlen & Hsettle).
  destruct (explore_moves_spec _ _ _ _ _ _ Hm) as (k & sensed & _ & _ & _ & Hlen' & Hmoved).
  split; [congruence|]. intros i a Ha.
  destruct (Hmoved i a Ha) as (s & am & _ & Hs & Ham & Hmv).
  destruct (Hsettle i am Ham) as (a' & Ha' & Hst).
  exists a'. split; [done|]. by exists k, s, am.
Qed.

(** [advance] in one piece, lines 197 to 223 in a row. *)
Lemma advance_unfold fuel self the_maze pos_food pos_nest pheromon others food_counter :
  advance fuel self the_maze pos_food pos_nest pheromon others food_counter
  = (
  let loaded_ants := nonzero (map is_loaded self) in
  let unloaded_ants := nonzero (map (λ a, negb (is_loaded a)) self) in
  r ← (if bool_decide (0 < length loaded_ants)%nat then
         let old_food_counter := food_counter in
         r ← return_to_nest self loaded_ants pos_nest 0;
         Some (r.1, r.2, r.2 - old_food_counter)
       else Some (self, food_counter, 0));
  let food_counter := r.1.2 in
  let new_food := r.2 in
  self ← (if bool_decide (0 < length unloaded_ants)%nat then
            explore fuel r.1.1 unloaded_ants the_maze pos_food pos_nest pheromon
          else Some r.1.1);
  deposits ← mapM (M := option) (deposit_of the_maze) self;
  let old_pheromone := pheromon in
  _ ← mark_all pheromon deposits old_pheromone;
  old_pheromone_flat ← Allreduce_MAX (concat old_pheromone) others;
  Some (mkTick self
          (reshape (length old_pheromone) (default 0%nat (length <$> head old_pheromone))
                   old_pheromone_flat)
          food_counter new_food)).
Proof.
  unfold advance, advance_marking.
  destruct (if bool_decide _ then _ else _) as [[[selfb fcb] nf]|]; simpl; [|done].
  destruct (if bool_decide _ then _ else _) as [selfe|]; simpl; [|done].
  destruct (mapM (deposit_of the_maze) selfe); simpl; [|done].
  destruct (mark_all _ _ _); simpl; done.
Qed.

Lemma advance_spec fuel self the_maze pos_food pos_nest pheromon others food_counter r :
  advance fuel self the_maze pos_food pos_nest pheromon others food_counter = Some r →
  length (tick_colony r) = length self ∧
  ∀ i a, self !! i = Some a →
    ∃ a', tick_colony r !! i = Some a' ∧
      if is_loaded a then
        ∃ ab, back_ant pos_nest a = Some ab ∧
              (a' = ab ∨ explored_ant false the_maze pheromon pos_food pos_nest ab a')
      else explored_ant true the_maze pheromon pos_food pos_nest a a'.
Proof.
  rewrite advance_unfold. cbv zeta. intros Ha.
  set (loaded_ants := nonzero (map is_loaded self)) in *.
  set (unloaded_ants := nonzero (map (λ a, negb (is_loaded a)) self)) in *.
  assert (∀ i a, self !! i = Some a →
            bool_decide (i ∈ loaded_ants) = is_loaded a ∧
            bool_decide (i ∈ unloaded_ants) = negb (is_loaded a)) as Hidx.
  { intros i a Hi. unfold loaded_ants, unloaded_ants.
    split; apply bool_decide_eq_iff_true || idtac.
    - destruct (is_loaded a) eqn:Hl.
      + apply bool_decide_eq_true, elem_of_nonzero. by rewrite list_lookup_fmap, Hi; simpl; rewrite Hl.
      + apply bool_decide_eq_false. rewrite elem_of_nonzero, list_lookup_fmap, Hi. simpl. congruence.
    - destruct (is_loaded a) eqn:Hl.
      + apply bool_decide_eq_false. rewrite elem_of_nonzero, list_lookup_fmap, Hi. simpl. rewrite Hl. done.
      + apply bool_decide_eq_true, elem_of_nonzero. by rewrite list_lookup_fmap, Hi; simpl; rewrite Hl. }
  match type of Ha with
  | (?st ≫= _) = _ => destruct st as [[[selfb fcb] nf]|] eqn:Hback; simpl in Ha; [|done]
  end.
  assert (length selfb = length self ∧
          ∀ i a, self !! i = Some a →
            ∃ ab, selfb !! i = Some ab ∧
                  if is_loaded a then back_ant pos_nest a = Some ab else ab = a) as [Hlenb Hb].
  { destruct (bool_decide (0 < length loaded_ants)%nat) eqn:Hne.
    - destruct (return_to_nest self loaded_ants pos_nest 0) as [[s1 f1]|] eqn:Hr;
        simplify_eq/=.
      destruct (return_to_nest_spec _ _ _ _ _ _ Hr) as [Hl Hspec].
      split; [done|]. intros i a Hi. destruct (Hspec i a Hi) as (a' & Ha' & Hc).
      exists a'. split; [done|]. by rewrite (proj1 (Hidx i a Hi)) in Hc.
    - simplify_eq/=. split; [done|]. intros i a Hi. exists a. split; [done|].
      destruct (is_loaded a) eqn:Hl; [|done]. exfalso.
      apply bool_decide_eq_false in Hne.
      pose proof (proj1 (Hidx i a Hi)) as Hin. rewrite Hl in Hin.
      apply bool_decide_eq_true in Hin.
      destruct loaded_ants; [by apply elem_of_nil in Hin|simpl in Hne; lia]. }
  match type of Ha with
  | (?st ≫= _) = _ => destruct st as [selfe|] eqn:Hexp; simpl in Ha; [|done]
  end.
  destruct (mapM (deposit_of the_maze) selfe) as [deps|]; simpl in Ha; [|done].
  destruct (mark_all _ _ _); simpl in Ha; [|done].
  destruct (Allreduce_MAX _ _); simplify_eq/=.
  destruct (bool_decide (0 < length unloaded_ants)%nat) eqn:Hne.
  - destruct (explore_explored_ant _ _ _ _ _ _ _ _ Hexp) as [Hlen Hspec].
    split; [congruence|]. intros i a Hi.
    destruct (Hb i a Hi) as (ab & Hab & Hc).
    destruct (Hspec i ab Hab) as (a' & Ha' & Hex).
    exists a'. split; [done|].
    rewrite (proj2 (Hidx i a Hi)) in Hex.
    destruct (is_loaded a); simpl in Hex.
    + exists ab. split; [done|]. by right.
    + by subst ab.
  - simplify_eq. split; [done|]. intros i a Hi.
    destruct (Hb i a Hi) as (ab & Hab & Hc).
    exists ab. split; [done|].
    destruct (is_loaded a) eqn:Hl.
    + exists ab. split; [done|]. by left.
    + exfalso. apply bool_decide_eq_false in Hne.
      pose proof (proj2 (Hidx i a Hi)) as Hin. rewrite Hl in Hin.
      apply bool_decide_eq_true in Hin.
      destruct unloaded_ants; [by apply elem_of_nil in Hin|simpl in Hne; lia].
Qed.

End advance.

(** ** The invariant of an ant *)

Lemma follow_step_target s a p :
  0 ≤ age a → age a + 1 < Z.of_nat (length (historic_path a)) →
  age a + 1 < 9223372036854775808 →
  historic_path a !! Z.to_nat (age a) = Some p →
  follow_step s a
  = Some (with_historic_path
            (<[Z.to_nat (age a + 1) := follow_target s p]> (historic_path a)) a).
Proof.
  intros Hage Hlen H64 Hp. unfold follow_step, position.
  rewrite int64_small by lia.
  rewrite np_get_nonneg by lia. rewrite Hp. simpl.
  rewrite np_set_nonneg by lia. simpl.
  set (k := Z.to_nat (age a + 1)).
  assert (k < length (historic_path a))%nat as Hk by lia.
  assert (∀ (h : list pos) (q : pos) (f : pos → pos),
            length h = length (historic_path a) → h !! k = Some q →
            np_upd h (age a + 1) f = Some (<[k := f q]> h)) as Hupd.
  { intros h q f Hl Hq. unfold np_upd. rewrite np_get_nonneg by lia.
    fold k. rewrite Hq. simpl. rewrite np_set_nonneg by lia. done. }
  do 4 (erewrite Hupd;
          [|by rewrite ?length_insert
           |by apply list_lookup_insert_eq; rewrite ?length_insert];
        simpl; rewrite list_insert_insert_eq).
  unfold follow_target. simpl. do 3 f_equal.
Qed.

Lemma back_ant_ok pos_nest a ab :
  ant_ok pos_nest a → is_loaded a = true → back_ant pos_nest a = Some ab →
  ant_ok pos_nest ab.
Proof.
  intros (Hage & Hlen & H31 & H0 & Hload) Hl Hb. specialize (Hload Hl).
  unfold back_ant, position in Hb. simpl in Hb.
  rewrite int64_small in Hb by lia.
  rewrite np_get_nonneg in Hb by lia.
  destruct (historic_path a !! Z.to_nat (age a - 1)) as [p|] eqn:Hp; simplify_eq/=.
  case_bool_decide as Hn; unfold ant_ok; simpl.
  - repeat split; try done; lia.
  - repeat split; try done; try lia. intros _.
    destruct (decide (age a = 1)) as [He|]; [|lia].
    replace (Z.to_nat (age a - 1)) with 0%nat in Hp by lia. congruence.
Qed.

Section invariant.
Context `{direction}.

Lemma moved_ant_ok pos_nest k unl s a am :
  ant_ok pos_nest a → moved_ant k unl s a am →
  ant_ok pos_nest am ∧ is_loaded am = is_loaded a.
Proof.
  intros (Hage & Hlen & H31 & H0 & Hload) (_ & Hl & Hm & Hg & Hcase).
  assert (length (historic_path am) = length (historic_path a) ∧
          historic_path am !! 0%nat = Some pos_nest) as [Hlen' H0'].
  { destruct (unl && is_exploring _ s).
    - destruct Hcase as (j & _ & p & h & _ & _ & Hset & Hh & _).
      rewrite int64_small, np_set_nonneg in Hset by lia.
      injection Hset as Hset. rewrite Hh, <- Hset.
      rewrite length_insert. split; [done|].
      rewrite list_lookup_insert_ne by lia. done.
    - destruct (unl && is_following _ s).
      + destruct Hcase as (a2 & Hf & -> & _).
        destruct (lookup_lt_is_Some_2 (historic_path a) (Z.to_nat (age a))) as [p Hp];
          [lia|].
        rewrite (follow_step_target s a p) in Hf by (done || lia). simplify_eq/=.
        rewrite length_insert. split; [done|].
        rewrite list_lookup_insert_ne by lia. done.
      + destruct Hcase as [-> _]. done. }
  split; [|done]. unfold ant_ok. rewrite Hl, Hm, Hg, Hlen'. done.
Qed.

Lemma settle_ant_ok pos_food pos_nest unl am a' :
  pos_food ≠ pos_nest → pos_int16 pos_nest →
  ant_ok pos_nest am → (unl = true → is_loaded am = false) →
  settle_ant unl pos_food pos_nest am = Some a' →
  ant_ok pos_nest a'.
Proof.
  intros Hfn [Hn1 Hn2] (Hage & Hlen & H31 & H0 & Hload) Hunl Hs.
  unfold settle_ant in Hs. destruct unl.
  - specialize (Hunl eq_refl).
    rewrite int64_small in Hs by lia. unfold kill_step in Hs. simpl in Hs.
    case_bool_decide as Hdie.
    + rewrite np_set_nonneg in Hs by lia.
      rewrite !int16_small in Hs by lia. simpl in Hs.
      unfold load_step, position in Hs. simpl in Hs.
      rewrite np_get_nonneg in Hs by (rewrite length_insert; lia).
      rewrite list_lookup_insert_eq in Hs by lia. simpl in Hs.
      rewrite pos_eq_dec_split in Hs.
      rewrite bool_decide_false in Hs by (destruct pos_nest; naive_solver).
      simplify_eq. unfold ant_ok. simpl. rewrite length_insert.
      rewrite list_lookup_insert_eq by lia. rewrite Hunl.
      destruct pos_nest. repeat split; try done; lia.
    + simpl in Hs. unfold load_step, position in Hs. simpl in Hs.
      destruct (np_get _ _) as [p|]; simplify_eq/=.
      destruct (_ && _); unfold ant_ok; simpl; repeat split; try done; try lia.
  - unfold kill_step in Hs. rewrite bool_decide_false in Hs by lia.
    simplify_eq/=. done.
Qed.

End invariant.

Section reach.
Context `{direction, maze_bits, pheromone_rule}.

Lemma explored_ant_ok unl the_maze pheromon pos_food pos_nest a a' :
  pos_food ≠ pos_nest → pos_int16 pos_nest →
  ant_ok pos_nest a → (unl = true → is_loaded a = false) →
  explored_ant unl the_maze pheromon pos_food pos_nest a a' →
  ant_ok pos_nest a'.
Proof.
  intros Hfn Hn Hok Hunl (k & s & am & _ & Hmv & Hst).
  destruct (moved_ant_ok _ _ _ _ _ _ Hok Hmv) as [Hokm Hlm].
  eapply settle_ant_ok; [done..| |done]. intros. rewrite Hlm. auto.
Qed.

Lemma advance_ant_ok fuel self the_maze pos_food pos_nest pheromon others food_counter r :
  pos_food ≠ pos_nest → pos_int16 pos_nest →
  Forall (ant_ok pos_nest) self →
  advance fuel self the_maze pos_food pos_nest pheromon others food_counter = Some r →
  Forall (ant_ok pos_nest) (tick_colony r).
Proof.
  intros Hfn Hn Hok Ha. destruct (advance_spec _ _ _ _ _ _ _ _ _ Ha) as [Hlen Hspec].
  apply Forall_lookup. intros i a' Ha'.
  destruct (lookup_lt_is_Some_2 self i) as [a Hi].
  { rewrite <- Hlen. by eapply lookup_lt_Some. }
  pose proof (Forall_lookup_1 _ _ _ _ Hok Hi) as Hoka.
  destruct (Hspec i a Hi) as (a'' & Ha'' & Hc). simplify_eq.
  destruct (is_loaded a) eqn:Hl.
  - destruct Hc as (ab & Hb & [->|Hex]).
    + by eapply back_ant_ok.
    + apply (explored_ant_ok false the_maze pheromon pos_food pos_nest ab a');
        [done|done| |done|done]. by eapply back_ant_ok.
  - by apply (explored_ant_ok true the_maze pheromon pos_food pos_nest a a').
Qed.

Lemma Colony_init_ok nb_ants pos_nest max_life0 scaled :
  pos_int16 pos_nest → 1 ≤ max_life0 < 2147483648 →
  (∀ i, 0 ≤ scaled i ≤ max_life0) →
  Forall (ant_ok pos_nest) (Colony_init nb_ants pos_nest max_life0 scaled).
Proof.
  intros [Hn1 Hn2] Hm Hsc. unfold Colony_init. apply Forall_fmap, Forall_forall.
  intros i _. unfold ant_ok; simpl. specialize (Hsc i).
  assert (0 ≤ scaled i / 4 ≤ max_life0 / 4).
  { split; [apply Z.div_pos; lia|apply Z.div_le_mono; lia]. }
  assert (max_life0 / 4 < max_life0) by (apply Z.div_lt; lia).
  rewrite (int32_small max_life0), (int32_small (scaled i)) by lia.
  rewrite int32_small by lia. rewrite !int16_small by lia.
  rewrite length_replicate. destruct pos_nest. repeat split; try done; lia.
Qed.

Lemma reachable_ant_ok fields the_maze pos_food pos_nest self :
  pos_food ≠ pos_nest → pos_int16 pos_nest →
  reachable fields the_maze pos_food pos_nest self →
  Forall (ant_ok pos_nest) self.
Proof.
  intros Hfn Hn Hr. induction Hr as [nb max_life0 scaled Hm Hsc|? ? ? ? ? ? _ IH _ Ha].
  - by apply Colony_init_ok.
  - by eapply advance_ant_ok.
Qed.

Lemma settle_ant_reset pos_food pos_nest am a' :
  pos_int16 pos_nest → ant_ok pos_nest am → age am + 1 = max_life am →
  settle_ant true pos_food pos_nest am = Some a' →
  age a' = 0 ∧ position a' = Some pos_nest ∧ directions a' = int8 DIR_NONE.
Proof.
  intros [Hn1 Hn2] (Hage & Hlen & H31 & Hh0 & _) Hdie Hs.
  unfold settle_ant in Hs. rewrite int64_small in Hs by lia.
  unfold kill_step in Hs. simpl in Hs. rewrite bool_decide_true in Hs by done.
  rewrite np_set_nonneg in Hs by lia. rewrite !int16_small in Hs by lia.
  simpl in Hs. apply load_step_frame in Hs as (_ & _ & Hg & Hh & Hd).
  simpl in *. split; [done|]. split; [|done].
  unfold position. rewrite Hg, Hh. rewrite np_get_nonneg by (rewrite length_insert; lia).
  rewrite list_lookup_insert_eq by lia. by destruct pos_nest.
Qed.

(** C4, with the condition it needs. When the food is not on the nest,
    every ant of a reachable colony leaves [advance] with
    [0 <= age < max_life], so within [0, max_life] and never resting at
    [max_life]; and an unloaded ant whose age reaches [max_life] during the
    tick leaves it with age 0, standing on the nest, with direction
    [DIR_NONE]. *)
Theorem age_within_max_life fields the_maze pos_food pos_nest self fuel pheromon others
    food_counter r :
  pos_food ≠ pos_nest → pos_int16 pos_nest → -128 ≤ DIR_NONE < 128 →
  reachable fields the_maze pos_food pos_nest self →
  advance fuel self the_maze pos_food pos_nest pheromon others food_counter = Some r →
  ∀ i a', tick_colony r !! i = Some a' →
    0 ≤ age a' ≤ max_life a' ∧ age a' ≠ max_life a' ∧
    ∀ a, self !! i = Some a → is_loaded a = false → age a + 1 = max_life a →
         age a' = 0 ∧ position a' = Some pos_nest ∧ directions a' = DIR_NONE.
Proof.
  intros Hfn Hn Hnone Hr Ha i a' Ha'.
  pose proof (reachable_ant_ok _ _ _ _ _ Hfn Hn Hr) as Hok.
  pose proof (advance_ant_ok _ _ _ _ _ _ _ _ _ Hfn Hn Hok Ha) as Hok'.
  destruct (Forall_lookup_1 _ _ _ _ Hok' Ha') as (Hage & _).
  split; [lia|]. split; [lia|]. intros a Hi Hl Hdie.
  destruct (advance_spec _ _ _ _ _ _ _ _ _ Ha) as [_ Hspec].
  destruct (Hspec i a Hi) as (a'' & Ha'' & Hc). simplify_eq. rewrite Hl in Hc.
  destruct Hc as (k & s & am & _ & Hmv & Hst).
  pose proof (Forall_lookup_1 _ _ _ _ Hok Hi) as Hoka.
  destruct (moved_ant_ok _ _ _ _ _ _ Hoka Hmv) as [Hokm _].
  destruct Hmv as (_ & _ & Hm & Hg & _).
  rewrite <- (int8_small DIR_NONE) by done.
  eapply settle_ant_reset; [done|done| |done]. by rewrite Hm, Hg.
Qed.

(** C9. When the food is not on the nest, every loaded ant of a reachable
    colony has [age >= 1]: the decrement of line 62 leaves a non-negative
    age, and the lookup of line 64 uses that age as it is, not an index
    counted from the end of the history. Reachable colonies are closed
    under [advance], so this holds again after every tick. *)
Theorem loaded_ants_have_positive_age fields the_maze pos_food pos_nest self :
  pos_food ≠ pos_nest → pos_int16 pos_nest →
  reachable fields the_maze pos_food pos_nest self →
  (∀ i a, self !! i = Some a → is_loaded a = true →
     1 ≤ age a ∧ 0 ≤ int64 (age a - 1) ∧
     np_index (length (historic_path a)) (int64 (age a - 1))
     = Some (Z.to_nat (age a - 1))) ∧
  (∀ fuel pheromon others food_counter r,
     fields pheromon →
     advance fuel self the_maze pos_food pos_nest pheromon others food_counter = Some r →
     ∀ i a', tick_colony r !! i = Some a' → is_loaded a' = true → 1 ≤ age a').
Proof.
  intros Hfn Hn Hr.
  pose proof (reachable_ant_ok _ _ _ _ _ Hfn Hn Hr) as Hok. split.
  - intros i a Hi Hl.
    destruct (Forall_lookup_1 _ _ _ _ Hok Hi) as (Hage & Hlen & H31 & _ & Hload).
    specialize (Hload Hl). rewrite int64_small by lia.
    split; [done|]. split; [lia|]. apply np_index_nonneg. lia.
  - intros fuel pheromon others fc r _ Ha i a' Ha' Hl.
    pose proof (advance_ant_ok _ _ _ _ _ _ _ _ _ Hfn Hn Hok Ha) as Hok'.
    destruct (Forall_lookup_1 _ _ _ _ Hok' Ha') as (_ & _ & _ & _ & Hload). auto.
Qed.

End reach.

(** ** Deposits commute *)

Lemma np_upd2_alter {A} (m : list (list A)) r c f :
  np_upd2 m r c f = ij ← cell_of m r c; Some (alter (alter f ij.2) ij.1 m).
Proof.
  unfold np_upd2, cell_of, np_get, np_upd, np_set, np_get.
  destruct (np_index (length m) r) as [i|]; simpl; [|done].
  destruct (m !! i) as [row|] eqn:Hrow; simpl; [|done].
  destruct (np_index (length row) c) as [j|] eqn:Hj; simpl; [|done].
  destruct (lookup_lt_is_Some_2 row j) as [x Hx]; [by eapply np_index_lt|].
  rewrite Hx. simpl. f_equal.
  rewrite list_insert_alter. apply list_alter_ext; [|done].
  intros row' Hrow'. simplify_eq.
  rewrite list_insert_alter. apply list_alter_ext; [|done]. congruence.
Qed.

Lemma cell_of_alter {A} (m : list (list A)) i j f r c :
  cell_of (alter (alter f j) i m) r c = cell_of m r c.
Proof.
  unfold cell_of. rewrite length_alter.
  destruct (np_index (length m) r) as [i'|]; simpl; [|done].
  rewrite list_lookup_alter. case_decide; [subst i'|done].
  destruct (m !! i) as [row|]; simpl; [|done]. by rewrite length_alter.
Qed.

Lemma alter2_commute {A} (m : list (list A)) i1 j1 i2 j2 (f g : A → A) :
  (∀ v, f (g v) = g (f v)) →
  alter (alter g j2) i2 (alter (alter f j1) i1 m)
  = alter (alter f j1) i1 (alter (alter g j2) i2 m).
Proof.
  intros Hfg. destruct (decide (i2 = i1)) as [->|]; [|by apply list_alter_alter_ne].
  rewrite !list_alter_alter_eq. apply list_alter_ext; [|done]. intros row _. simpl.
  destruct (decide (j2 = j1)) as [->|]; [|by apply list_alter_alter_ne].
  rewrite !list_alter_alter_eq. apply list_alter_ext; [|done]. intros v _. simpl.
  symmetry. apply Hfg.
Qed.

Lemma np_upd2_commute {A} (m : list (list A)) r1 c1 r2 c2 (f g : A → A) :
  (∀ v, f (g v) = g (f v)) →
  (m1 ← np_upd2 m r1 c1 f; np_upd2 m1 r2 c2 g)
  = (m2 ← np_upd2 m r2 c2 g; np_upd2 m2 r1 c1 f).
Proof.
  intros Hfg. rewrite !np_upd2_alter.
  destruct (cell_of m r1 c1) as [[i1 j1]|] eqn:H1,
           (cell_of m r2 c2) as [[i2 j2]|] eqn:H2; simpl;
    rewrite ?np_upd2_alter, ?cell_of_alter, ?H1, ?H2; simpl; try done.
  f_equal. by apply alter2_commute.
Qed.

Lemma Qplus_swap (v x y : Q) : (v + x + y = v + y + x)%Q.
Proof.
  destruct v as [vn vd], x as [xn xd], y as [yn yd]. unfold Qplus. simpl. f_equal.
  - rewrite !Pos2Z.inj_mul. ring.
  - rewrite <- !Pos.mul_assoc. f_equal. apply Pos.mul_comm.
Qed.

Section deposits.
Context `{direction, maze_bits, pheromone_rule}.

Lemma mark_commute live d1 d2 snapshot :
  (l ← mark live d1.1 d1.2 snapshot; mark l d2.1 d2.2 snapshot)
  = (l ← mark live d2.1 d2.2 snapshot; mark l d1.1 d1.2 snapshot).
Proof.
  unfold mark. apply np_upd2_commute. intros v. apply Qplus_swap.
Qed.

(** The field left by the deposits of a tick does not depend on the order
    in which the ants are taken. *)
Lemma mark_all_Permutation deposits deposits' snapshot :
  deposits ≡ₚ deposits' →
  ∀ live, mark_all live deposits snapshot = mark_all live deposits' snapshot.
Proof.
  induction 1 as [|d l l' _ IH|d1 d2 l|l l' l'' _ IH1 _ IH2]; intros live; simpl.
  - done.
  - destruct (mark live d.1 d.2 snapshot); simpl; [apply IH|done].
  - pose proof (mark_commute live d2 d1 snapshot) as Hc.
    destruct (mark live d2.1 d2.2 snapshot) as [l2|],
             (mark live d1.1 d1.2 snapshot) as [l1|]; simpl in *; try done.
    + by rewrite Hc.
    + by rewrite Hc.
    + by rewrite <- Hc.
  - by rewrite IH1.
Qed.

End deposits.

(** ** Moves stay on the maze *)

Lemma qmax_either a b : qmax a b = a ∨ qmax a b = b.
Proof. unfold qmax. destruct (Qle_bool a b); auto. Qed.

Lemma Qeq_bool_self a : Qeq_bool a a = true.
Proof. apply Qeq_bool_iff, Qeq_refl. Qed.

Lemma np_get_elem_of {A} (l : list A) i x : np_get l i = Some x → x ∈ l.
Proof.
  unfold np_get. destruct (np_index _ _); simpl; [|done].
  intros Hl. apply list_elem_of_lookup. eauto.
Qed.

Lemma np_get2_nonneg pheromon r c x :
  field_nonneg pheromon → np_get2 pheromon r c = Some x → (0 <= x)%Q.
Proof.
  intros Hf Hg. unfold np_get2 in Hg.
  destruct (np_get pheromon r) as [row|] eqn:Hrow; simpl in Hg; [|done].
  apply np_get_elem_of in Hrow, Hg.
  apply list_elem_of_In in Hrow, Hg.
  unfold field_nonneg in Hf. rewrite Forall_forall in Hf.
  specialize (Hf row Hrow). rewrite Forall_forall in Hf. by apply Hf.
Qed.

Lemma gated_nonneg x b : (0 <= x)%Q → (0 <= gated x b)%Q.
Proof. intros. destruct b; simpl; [done|apply Qle_refl]. Qed.

Section moves.
Context `{direction, maze_bits}.

(** What [sense] found, in terms of the maze. *)
Lemma sense_inv the_maze pheromon a s :
  sense the_maze pheromon a = Some s →
  ∃ p cell n e so w,
    position a = Some p ∧ np_get2 the_maze p.1 p.2 = Some cell ∧
    np_get2 pheromon p.1 (int16 (p.2 + 1)) = Some n ∧
    np_get2 pheromon (int16 (p.1 + 1)) (int16 (p.2 + 2)) = Some e ∧
    np_get2 pheromon (int16 (p.1 + 2)) (int16 (p.2 + 1)) = Some so ∧
    np_get2 pheromon (int16 (p.1 + 1)) p.2 = Some w ∧
    s = mkSensed p (bool_decide (0 < Z.land cell NORTH)) (bool_decide (0 < Z.land cell EAST))
          (bool_decide (0 < Z.land cell SOUTH)) (bool_decide (0 < Z.land cell WEST))
          (gated n (bool_decide (0 < Z.land cell NORTH)))
          (gated e (bool_decide (0 < Z.land cell EAST)))
          (gated so (bool_decide (0 < Z.land cell SOUTH)))
          (gated w (bool_decide (0 < Z.land cell WEST))).
Proof.
  unfold sense. intros Hs.
  destruct (position a) as [p|]; simpl in Hs; [|done].
  destruct (np_get2 the_maze _ _) as [cell|] eqn:E0; simpl in Hs; [|done].
  destruct (np_get2 pheromon p.1 _) as [n|] eqn:E1; simpl in Hs; [|done].
  destruct (np_get2 pheromon _ (int16 (p.2 + 2))) as [e|] eqn:E2; simpl in Hs; [|done].
  destruct (np_get2 pheromon (int16 (p.1 + 2)) _) as [so|] eqn:E3; simpl in Hs; [|done].
  destruct (np_get2 pheromon _ p.2) as [w|] eqn:E4; simpl in Hs; [|done].
  injection Hs as <-. exists p, cell, n, e, so, w. repeat split; done.
Qed.

Lemma sense_exits the_maze pheromon a s p :
  sense the_maze pheromon a = Some s → position a = Some p →
  exits_open the_maze p (has_north_exit s) (has_east_exit s)
             (has_south_exit s) (has_west_exit s).
Proof.
  intros Hs Hp. destruct (sense_inv _ _ _ _ Hs)
    as (p' & cell & n & e & so & w & Hp' & Hc & _ & _ & _ & _ & ->).
  simplify_eq. simpl. repeat split; intros Hb%bool_decide_eq_true; by exists cell.
Qed.

Lemma sense_nonneg the_maze pheromon a s :
  field_nonneg pheromon → sense the_maze pheromon a = Some s →
  (0 <= max_pheromones s)%Q.
Proof.
  intros Hf Hs. destruct (sense_inv _ _ _ _ Hs)
    as (p' & cell & n & e & so & w & _ & _ & Hn & He & Hso & Hw & ->).
  apply (np_get2_nonneg _ _ _ _ Hf) in Hn, He, Hso, Hw.
  unfold max_pheromones. simpl.
  destruct (qmax_either (qmax (qmax (gated n (bool_decide (0 < Z.land cell NORTH)))
                                    (gated e (bool_decide (0 < Z.land cell EAST))))
                              (gated so (bool_decide (0 < Z.land cell SOUTH))))
                        (gated w (bool_decide (0 < Z.land cell WEST)))) as [->| ->];
    [|by apply gated_nonneg].
  destruct (qmax_either (qmax (gated n (bool_decide (0 < Z.land cell NORTH)))
                              (gated e (bool_decide (0 < Z.land cell EAST))))
                        (gated so (bool_decide (0 < Z.land cell SOUTH)))) as [->| ->];
    [|by apply gated_nonneg].
  destruct (qmax_either (gated n (bool_decide (0 < Z.land cell NORTH)))
                        (gated e (bool_decide (0 < Z.land cell EAST)))) as [->| ->];
    by apply gated_nonneg.
Qed.

(** With a field without negative values, an ant of [unloaded_ants] that
    does not explore at random follows the scent. *)
Lemma explores_or_follows the_maze pheromon a s :
  field_nonneg pheromon → sense the_maze pheromon a = Some s →
  is_exploring a s = false → is_following (choices a) s = true.
Proof.
  intros Hf Hs Hex. apply (sense_nonneg _ _ _ _ Hf) in Hs.
  unfold is_exploring in Hex. apply orb_false_elim in Hex as [Hc Hm].
  unfold is_following. rewrite Hc. simpl.
  destruct (Qle_bool (max_pheromones s) 0) eqn:Hle; [|done].
  apply Qle_bool_iff in Hle.
  assert (Qeq_bool (max_pheromones s) 0 = true); [|congruence].
  apply Qeq_bool_iff. by apply Qle_antisym.
Qed.

(** A neighbour that carries the best scent, when that scent is positive,
    lies behind an open exit. *)
Lemma tied_is_open (x : Q) (b : bool) (m : Q) :
  Qle_bool m 0 = false → Qeq_bool (gated x b) m = true → b = true.
Proof.
  intros Hm Heq. destruct b; [done|]. simpl in Heq. apply Qeq_bool_iff in Heq.
  assert (Qle_bool m 0 = true); [|congruence].
  apply Qle_bool_iff. rewrite <- Heq. apply Qle_refl.
Qed.

Lemma max_pheromones_tied s : 1 ≤ tie_count s.
Proof.
  unfold tie_count, max_pheromones.
  set (n := north_pheromone s). set (e := east_pheromone s).
  set (so := south_pheromone s). set (w := west_pheromone s).
  destruct (qmax_either (qmax (qmax n e) so) w) as [-> | ->].
  - destruct (qmax_either (qmax n e) so) as [-> | ->].
    + destruct (qmax_either n e) as [-> | ->].
      * rewrite (Qeq_bool_self n). unfold b2z. repeat destruct (Qeq_bool _ _); lia.
      * rewrite (Qeq_bool_self e). unfold b2z. repeat destruct (Qeq_bool _ _); lia.
    + rewrite (Qeq_bool_self so). unfold b2z. repeat destruct (Qeq_bool _ _); lia.
  - rewrite (Qeq_bool_self w). unfold b2z. repeat destruct (Qeq_bool _ _); lia.
Qed.

Lemma moved_by_in_bounds the_maze h w p n e so we :
  maze_ok the_maze h w → in_bounds h w p → exits_open the_maze p n e so we →
  in_bounds h w (moved_by p n e so we).
Proof.
  intros (_ & _ & _ & _ & Hgrid) [Hr Hc] (Hn & He & Hs & Hw).
  assert (∀ bit, has_exit the_maze p bit →
            ∃ cell, np_get2 the_maze p.1 p.2 = Some cell ∧ 0 < Z.land cell bit) as Hex
    by (intros bit Hb; exact Hb).
  unfold in_bounds, moved_by. simpl.
  assert (n = true → 0 < p.1) as Hn'.
  { intros Hb. destruct (Hex _ (Hn Hb)) as (cell & Hc1 & Hl).
    by apply (Hgrid _ _ _ Hr Hc Hc1). }
  assert (so = true → p.1 + 1 < h) as Hs'.
  { intros Hb. destruct (Hex _ (Hs Hb)) as (cell & Hc1 & Hl).
    by apply (Hgrid _ _ _ Hr Hc Hc1). }
  assert (we = true → 0 < p.2) as Hw'.
  { intros Hb. destruct (Hex _ (Hw Hb)) as (cell & Hc1 & Hl).
    by apply (Hgrid _ _ _ Hr Hc Hc1). }
  assert (e = true → p.2 + 1 < w) as He'.
  { intros Hb. destruct (Hex _ (He Hb)) as (cell & Hc1 & Hl).
    by apply (Hgrid _ _ _ Hr Hc Hc1). }
  destruct n, e, so, we; simpl; lia.
Qed.

Lemma int16_moved_by h w p n e so we :
  h < 32767 → w < 32767 → in_bounds h w p →
  (int16 (int16 (p.1 - b2z n) + b2z so), int16 (int16 (p.2 - b2z we) + b2z e))
  = moved_by p n e so we ∧
  (int16 (int16 (p.1 - b2z n) + b2z so), int16 (int16 (p.2 + b2z e) - b2z we))
  = moved_by p n e so we.
Proof.
  intros Hh Hw [Hr Hc]. unfold moved_by.
  assert (∀ b, 0 ≤ b2z b ≤ 1) as Hb by (intros []; simpl; lia).
  pose proof (Hb n). pose proof (Hb e). pose proof (Hb so). pose proof (Hb we).
  rewrite (int16_small (p.1 - b2z n)), (int16_small (p.2 - b2z we)),
    (int16_small (p.2 + b2z e)) by lia.
  rewrite !int16_small by lia. split; f_equal; lia.
Qed.

(** A draw that the retry loop accepts is one move through an open exit,
    or several at once should direction constants coincide. *)
Lemma accepted_move the_maze h w s p d dir :
  maze_ok the_maze h w → in_bounds h w p →
  exits_open the_maze p (has_north_exit s) (has_east_exit s)
             (has_south_exit s) (has_west_exit s) →
  is_valid_move s d p (new_pos s p dir) dir = true →
  joint_move the_maze p (new_pos s p dir) ∧ in_bounds h w (new_pos s p dir) ∧
  (directions_ok → one_move the_maze p (new_pos s p dir)).
Proof.
  intros Hmz Hp (Hn & He & Hs & Hw) Hv.
  pose proof Hmz as (_ & _ & Hh & Hw' & _).
  set (n := bool_decide (dir = DIR_NORTH) && has_north_exit s).
  set (e := bool_decide (dir = DIR_EAST) && has_east_exit s).
  set (so := bool_decide (dir = DIR_SOUTH) && has_south_exit s).
  set (we := bool_decide (dir = DIR_WEST) && has_west_exit s).
  assert (new_pos s p dir = moved_by p n e so we) as Hnp.
  { unfold new_pos. fold n e so we. by apply (int16_moved_by h w). }
  assert (exits_open the_maze p n e so we) as Hopen.
  { unfold n, e, so, we.
    repeat split; intros [_ Hb]%andb_prop; auto. }
  assert (1 ≤ b2z n + b2z e + b2z so + b2z we) as Hsum.
  { unfold is_valid_move in Hv. apply andb_prop in Hv as [Hmoved _].
    rewrite Hnp in Hmoved. unfold moved_by in Hmoved. simpl in Hmoved.
    destruct n, e, so, we; simpl in *; try lia.
    repeat case_bool_decide; simpl in *; try done; lia. }
  rewrite Hnp. split; [by exists n, e, so, we|].
  split; [by eapply moved_by_in_bounds|].
  intros (? & ? & ? & ? & ? & ? & _). exists n, e, so, we.
  split; [done|]. split; [|done].
  unfold n, e, so, we in *.
  repeat case_bool_decide; simpl in *;
    destruct (has_north_exit s), (has_east_exit s), (has_south_exit s),
      (has_west_exit s); simpl in *; lia.
Qed.

(** The cell written by the scent-following branch is the current cell
    displaced through every open exit whose neighbour carries the best
    scent. *)
Lemma followed_move the_maze h w s p :
  maze_ok the_maze h w → in_bounds h w p →
  exits_open the_maze p (has_north_exit s) (has_east_exit s)
             (has_south_exit s) (has_west_exit s) →
  (∃ x, north_pheromone s = gated x (has_north_exit s)) →
  (∃ x, east_pheromone s = gated x (has_east_exit s)) →
  (∃ x, south_pheromone s = gated x (has_south_exit s)) →
  (∃ x, west_pheromone s = gated x (has_west_exit s)) →
  Qle_bool (max_pheromones s) 0 = false →
  joint_move the_maze p (follow_target s p) ∧ in_bounds h w (follow_target s p) ∧
  (tie_count s = 1 → one_move the_maze p (follow_target s p)).
Proof.
  intros Hmz Hp (Hn & He & Hs & Hw) [xn Hxn] [xe Hxe] [xs Hxs] [xw Hxw] Hpos.
  pose proof Hmz as (_ & _ & Hh & Hw' & _).
  set (m := max_pheromones s) in *.
  set (n := Qeq_bool (north_pheromone s) m).
  set (e := Qeq_bool (east_pheromone s) m).
  set (so := Qeq_bool (south_pheromone s) m).
  set (we := Qeq_bool (west_pheromone s) m).
  assert (follow_target s p = moved_by p n e so we) as Hft.
  { unfold follow_target. fold m n e so we. by apply (int16_moved_by h w). }
  assert (exits_open the_maze p n e so we) as Hopen.
  { unfold n, e, so, we. repeat split; intros Hb.
    - apply Hn. rewrite Hxn in Hb. by eapply tied_is_open.
    - apply He. rewrite Hxe in Hb. by eapply tied_is_open.
    - apply Hs. rewrite Hxs in Hb. by eapply tied_is_open.
    - apply Hw. rewrite Hxw in Hb. by eapply tied_is_open. }
  pose proof (max_pheromones_tied s) as Htie. unfold tie_count in *.
  fold m n e so we in Htie |- *.
  rewrite Hft. split; [by exists n, e, so, we|].
  split; [by eapply moved_by_in_bounds|].
  intros H1. by exists n, e, so, we.
Qed.

End moves.

(** ** The recorded path *)

Section path.
Context `{direction, maze_bits, pheromone_rule}.

Lemma back_ant_path the_maze h w pos_nest a ab :
  ant_ok pos_nest a → path_ok the_maze h w a → is_loaded a = true →
  back_ant pos_nest a = Some ab → path_ok the_maze h w ab.
Proof.
  intros (Hage & Hlen & H31 & Hh0 & Hload) [Hb Hj] Hl Hba. specialize (Hload Hl).
  unfold back_ant in Hba. destruct (position _) as [p|]; simplify_eq/=.
  rewrite int64_small by lia.
  case_bool_decide; split; simpl.
  - intros k p0 Hk Hp0. apply (Hb k p0); [lia|done].
  - intros k p0 q0 Hk. lia.
  - intros k p0 Hk Hp0. apply (Hb k p0); [lia|done].
  - intros k p0 q0 Hk Hp0 Hq0. apply (Hj k p0 q0); [lia|done..].
Qed.

Lemma moved_ant_path the_maze h w pos_nest pheromon k s a am :
  maze_ok the_maze h w → field_nonneg pheromon →
  ant_ok pos_nest a → path_ok the_maze h w a →
  sense the_maze pheromon a = Some s → moved_ant k true s a am →
  ∃ p q,
    historic_path a !! Z.to_nat (age a) = Some p ∧
    historic_path am = <[Z.to_nat (age a + 1) := q]> (historic_path a) ∧
    joint_move the_maze p q ∧ in_bounds h w q ∧
    (is_exploring (with_seeds (lcg (seeds a)) a) s = true ∧ directions_ok
     ∨ is_exploring (with_seeds (lcg (seeds a)) a) s = false ∧ tie_count s = 1
     → one_move the_maze p q).
Proof.
  intros Hmz Hf (Hage & Hlen & H31 & Hh0 & Hload) [Hb Hj] Hs (_ & _ & _ & _ & Hcase).
  destruct (lookup_lt_is_Some_2 (historic_path a) (Z.to_nat (age a))) as [p Hp]; [lia|].
  assert (position a = Some p) as Hpos.
  { unfold position. rewrite np_get_nonneg by lia. done. }
  assert (in_bounds h w p) as Hpb by (eapply Hb; [|done]; lia).
  pose proof (sense_exits _ _ _ _ _ Hs Hpos) as Hopen.
  exists p. simpl in Hcase.
  destruct (is_exploring (with_seeds (lcg (seeds a)) a) s) eqn:Hex.
  - destruct Hcase as (j & _ & p' & h' & Hp' & Hv & Hset & Hh & _). simplify_eq.
    rewrite int64_small, np_set_nonneg in Hset by lia. injection Hset as Hset.
    destruct (accepted_move _ _ _ _ _ _ _ Hmz Hpb Hopen Hv) as (Hjm & Hib & Hone).
    eexists. split; [done|]. split; [by rewrite <- Hset|].
    split; [done|]. split; [done|]. intros [[_ Hd]|[? _]]; [auto|done].
  - assert (is_following (choices (with_seeds (lcg (seeds a)) a)) s = true) as Hfo.
    { by eapply explores_or_follows. }
    rewrite Hfo in Hcase. destruct Hcase as (a2 & Hfs & Hh & _).
    rewrite (follow_step_target s a p) in Hfs by (done || lia).
    injection Hfs as <-. simpl in Hh.
    destruct (sense_inv _ _ _ _ Hs)
      as (p' & cell & n & e & so & we & _ & _ & _ & _ & _ & _ & Hseq).
    destruct (followed_move the_maze h w s p Hmz Hpb Hopen) as (Hjm & Hib & Hone).
    { exists n. by rewrite Hseq. }
    { exists e. by rewrite Hseq. }
    { exists so. by rewrite Hseq. }
    { exists we. by rewrite Hseq. }
    { unfold is_following in Hfo. apply andb_prop in Hfo as [_ Hm].
      by apply negb_true_iff in Hm. }
    eexists. split; [done|]. split; [done|].
    split; [done|]. split; [done|]. intros [[? _]|[_ Ht]]; [done|auto].
Qed.

Lemma settle_ant_path the_maze h w pos_food pos_nest a am a' p q :
  pos_int16 pos_nest → in_bounds h w pos_nest →
  ant_ok pos_nest a → path_ok the_maze h w a →
  age am = age a → max_life am = max_life a →
  historic_path a !! Z.to_nat (age a) = Some p →
  historic_path am = <[Z.to_nat (age a + 1) := q]> (historic_path a) →
  joint_move the_maze p q → in_bounds h w q →
  settle_ant true pos_food pos_nest am = Some a' →
  path_ok the_maze h w a' ∧
  (age a + 1 ≠ max_life a → position a' = Some q).
Proof.
  intros [Hn1 Hn2] Hnb (Hage & Hlen & H31 & Hh0 & _) [Hb Hj] Hg Hm Hp Hh Hjm Hqb Hs.
  unfold settle_ant in Hs. rewrite Hg, int64_small in Hs by lia.
  unfold kill_step in Hs. simpl in Hs. rewrite Hm in Hs.
  case_bool_decide as Hdie.
  - rewrite np_set_nonneg in Hs by (rewrite Hh, length_insert; lia).
    simpl in Hs. apply load_step_frame in Hs as (_ & _ & Hg' & Hh' & _).
    simpl in *. split; [|done]. split; rewrite Hg', Hh'; simpl.
    + intros [|k] p' Hk Hp'; [|lia].
      rewrite list_lookup_insert_eq in Hp' by (rewrite Hh, length_insert; lia).
      rewrite !int16_small in Hp' by lia. simplify_eq. by destruct pos_nest.
    + intros; lia.
  - simpl in Hs. pose proof Hs as Hs'.
    apply load_step_frame in Hs as (_ & _ & Hg' & Hh' & _). simpl in *.
    split.
    + split; rewrite Hg', Hh', Hh.
      * intros k p' Hk Hp'. destruct (decide (k = Z.to_nat (age a + 1))) as [->|].
        -- rewrite list_lookup_insert_eq in Hp' by lia. by simplify_eq.
        -- rewrite list_lookup_insert_ne in Hp' by done. eapply Hb; [|done]. lia.
      * intros k p' q' Hk Hp' Hq'.
        destruct (decide (S k = Z.to_nat (age a + 1))) as [Heq|].
        -- rewrite Heq, list_lookup_insert_eq in Hq' by lia.
           rewrite list_lookup_insert_ne in Hp' by lia.
           replace k with (Z.to_nat (age a)) in Hp' by lia. by simplify_eq.
        -- rewrite list_lookup_insert_ne in Hq' by done.
           rewrite list_lookup_insert_ne in Hp' by lia.
           eapply Hj; [|done..]. lia.
    + intros _. unfold position. rewrite Hg', Hh', Hh.
      rewrite np_get_nonneg by (rewrite length_insert; lia).
      by rewrite list_lookup_insert_eq by lia.
Qed.

(** The two invariants together. *)
Lemma explored_ant_walk_ok unl the_maze h w pheromon pos_food pos_nest a a' :
  maze_ok the_maze h w → field_nonneg pheromon →
  pos_food ≠ pos_nest → pos_int16 pos_nest → in_bounds h w pos_nest →
  ant_ok pos_nest a → path_ok the_maze h w a → (unl = true → is_loaded a = false) →
  explored_ant unl the_maze pheromon pos_food pos_nest a a' →
  path_ok the_maze h w a'.
Proof.
  intros Hmz Hf Hfn Hn Hnb Hok Hpath Hunl (k & s & am & Hs & Hmv & Hst).
  destruct unl.
  - destruct (moved_ant_path _ _ _ _ _ _ _ _ _ Hmz Hf Hok Hpath Hs Hmv)
      as (p & q & Hp & Hh & Hjm & Hqb & _).
    destruct Hmv as (_ & _ & Hm & Hg & _).
    by destruct (settle_ant_path _ _ _ _ _ _ _ _ _ _ Hn Hnb Hok Hpath Hg Hm Hp Hh Hjm Hqb Hst).
  - destruct Hmv as (_ & _ & Hm & Hg & Hh & _). simpl in Hh.
    pose proof Hok as (Hage & _).
    unfold settle_ant, kill_step in Hst. rewrite bool_decide_false in Hst by lia.
    simplify_eq/=. destruct Hpath as [Hb Hj].
    split; rewrite Hg, Hh; done.
Qed.

Lemma advance_walk_ok fuel self the_maze h w pos_food pos_nest pheromon others
    food_counter r :
  maze_ok the_maze h w → field_nonneg pheromon →
  pos_food ≠ pos_nest → pos_int16 pos_nest → in_bounds h w pos_nest →
  Forall (λ a, ant_ok pos_nest a ∧ path_ok the_maze h w a) self →
  advance fuel self the_maze pos_food pos_nest pheromon others food_counter = Some r →
  Forall (λ a, ant_ok pos_nest a ∧ path_ok the_maze h w a) (tick_colony r).
Proof.
  intros Hmz Hf Hfn Hn Hnb Hok Ha.
  assert (Forall (ant_ok pos_nest) (tick_colony r)) as Hok'.
  { eapply advance_ant_ok; [done|done| |done]. apply Forall_lookup. intros j b Hj.
    by destruct (Forall_lookup_1 _ _ _ _ Hok Hj). }
  destruct (advance_spec _ _ _ _ _ _ _ _ _ Ha) as [Hlen Hspec].
  apply Forall_lookup. intros i a' Ha'.
  split; [by eapply Forall_lookup_1|].
  destruct (lookup_lt_is_Some_2 self i) as [a Hi].
  { rewrite <- Hlen. by eapply lookup_lt_Some. }
  destruct (Forall_lookup_1 _ _ _ _ Hok Hi) as [Hoka Hpa].
  destruct (Hspec i a Hi) as (a'' & Ha'' & Hc). simplify_eq.
  destruct (is_loaded a) eqn:Hl.
  - destruct Hc as (ab & Hb & [->|Hex]).
    + by eapply back_ant_path.
    + apply (explored_ant_walk_ok false the_maze h w pheromon pos_food pos_nest ab a');
        try done; [by eapply back_ant_ok|by eapply back_ant_path].
  - by apply (explored_ant_walk_ok true the_maze h w pheromon pos_food pos_nest a a').
Qed.

Lemma Colony_init_path_ok the_maze h w nb_ants pos_nest max_life0 scaled :
  pos_int16 pos_nest → in_bounds h w pos_nest →
  Forall (path_ok the_maze h w) (Colony_init nb_ants pos_nest max_life0 scaled).
Proof.
  intros [Hn1 Hn2] Hnb. unfold Colony_init. apply Forall_fmap, Forall_forall.
  intros i _. split; simpl.
  - intros [|k] p Hk Hp; [|lia]. simpl in Hp. rewrite !int16_small in Hp by lia.
    simplify_eq. by destruct pos_nest.
  - intros; lia.
Qed.

Lemma reachable_walk_ok the_maze h w pos_food pos_nest self :
  maze_ok the_maze h w →
  pos_food ≠ pos_nest → pos_int16 pos_nest → in_bounds h w pos_nest →
  reachable field_nonneg the_maze pos_food pos_nest self →
  Forall (λ a, ant_ok pos_nest a ∧ path_ok the_maze h w a) self.
Proof.
  intros Hmz Hfn Hn Hnb Hr.
  induction Hr as [nb max_life0 scaled Hm Hsc|? ? ? ? ? ? _ IH Hf Ha].
  - apply Forall_lookup. intros i a Hi. split.
    + eapply Forall_lookup_1; [by apply Colony_init_ok|done].
    + eapply Forall_lookup_1; [by apply Colony_init_path_ok|done].
  - by eapply advance_walk_ok.
Qed.

Lemma in_bounds_int16 the_maze h w p :
  maze_ok the_maze h w → in_bounds h w p → pos_int16 p.
Proof. intros (_ & _ & ? & ? & _) [? ?]. unfold pos_int16. lia. Qed.

(** C5, as the code has it, for a maze whose open sides lead to cells of
    the grid, a scent field without negative values and food away from the
    nest. In every reachable colony the current cell [history[age]] of an
    ant is on the grid and, when [age >= 1], is the cell [history[age-1]]
    displaced by the moves through one or more of its open exits, applied
    together. In a tick, an unloaded ant that is not reset makes exactly
    one move through an open exit when it explores at random, and also
    when it follows the scent and a single neighbour carries the best
    scent; when several neighbours tie, the scent-following branch adds
    the moves towards all of them. *)
Theorem history_follows_open_exits the_maze h w pos_food pos_nest self :
  maze_ok the_maze h w → pos_food ≠ pos_nest → in_bounds h w pos_nest →
  reachable field_nonneg the_maze pos_food pos_nest self →
  (∀ i a, self !! i = Some a →
     ∃ q, position a = Some q ∧ in_bounds h w q ∧
          (1 ≤ age a →
           ∃ p, np_get (historic_path a) (age a - 1) = Some p ∧
                joint_move the_maze p q)) ∧
  (∀ fuel pheromon others food_counter r i a a' s,
     field_nonneg pheromon →
     advance fuel self the_maze pos_food pos_nest pheromon others food_counter = Some r →
     self !! i = Some a → tick_colony r !! i = Some a' →
     is_loaded a = false → age a + 1 ≠ max_life a →
     sense the_maze pheromon a = Some s →
     (is_exploring (with_seeds (lcg (seeds a)) a) s = true ∧ directions_ok
      ∨ is_exploring (with_seeds (lcg (seeds a)) a) s = false ∧ tie_count s = 1) →
     ∃ p q, position a = Some p ∧ position a' = Some q ∧ one_move the_maze p q).
Proof.
  intros Hmz Hfn Hnb Hr.
  pose proof (in_bounds_int16 _ _ _ _ Hmz Hnb) as Hn.
  pose proof (reachable_walk_ok _ _ _ _ _ _ Hmz Hfn Hn Hnb Hr) as Hok.
  split.
  - intros i a Hi.
    destruct (Forall_lookup_1 _ _ _ _ Hok Hi)
      as [(Hage & Hlen & H31 & Hh0 & Hload) [Hb Hj]].
    destruct (lookup_lt_is_Some_2 (historic_path a) (Z.to_nat (age a))) as [q Hq]; [lia|].
    exists q. unfold position. rewrite np_get_nonneg by lia.
    split; [done|]. split; [by apply (Hb (Z.to_nat (age a)))|].
    intros Hge.
    destruct (lookup_lt_is_Some_2 (historic_path a) (Z.to_nat (age a - 1))) as [p Hp];
      [lia|].
    exists p. rewrite np_get_nonneg by lia. split; [done|].
    apply (Hj (Z.to_nat (age a - 1)) p q); [lia|done|].
    by replace (S (Z.to_nat (age a - 1))) with (Z.to_nat (age a)) by lia.
  - intros fuel pheromon others fc r i a a' s Hf Ha Hi Ha' Hl Hlive Hs Hbranch.
    destruct (Forall_lookup_1 _ _ _ _ Hok Hi) as [Hoka Hpa].
    destruct (advance_spec _ _ _ _ _ _ _ _ _ Ha) as [_ Hspec].
    destruct (Hspec i a Hi) as (a'' & Ha'' & Hc). simplify_eq. rewrite Hl in Hc.
    destruct Hc as (k & s' & am & Hs' & Hmv & Hst).
    assert (s' = s) as -> by congruence.
    destruct (moved_ant_path _ _ _ _ _ _ _ _ _ Hmz Hf Hoka Hpa Hs Hmv)
      as (p & q & Hp & Hh & Hjm & Hqb & Hone).
    destruct Hmv as (_ & _ & Hm & Hg & _).
    destruct (settle_ant_path _ _ _ _ _ _ _ _ _ _ Hn Hnb Hoka Hpa Hg Hm Hp Hh Hjm Hqb Hst)
      as [_ Hpos'].
    exists p, q. split.
    { destruct Hoka as (Hage & Hlen & _). unfold position.
      rewrite np_get_nonneg by lia. done. }
    split; [by apply Hpos'|by apply Hone].
Qed.

End path.

(** ** The stream of seeds reaches every draw *)

Lemma lcg_modular s : 0 ≤ s < 2147483647 → lcg s = (16807 * s) mod 2147483647.
Proof. intros Hs. unfold lcg. by rewrite int64_small by lia. Qed.

Lemma lcg_range s : 0 ≤ lcg s < 2147483647.
Proof. unfold lcg. apply Z.mod_pos_bound. lia. Qed.

Lemma iter_lcg_range t s : 0 ≤ s < 2147483647 → 0 ≤ Nat.iter t lcg s < 2147483647.
Proof. intros Hs. destruct t; simpl; [done|apply lcg_range]. Qed.

Lemma iter_lcg_power (t : nat) s :
  0 ≤ s < 2147483647 →
  Nat.iter t lcg s = (16807 ^ Z.of_nat t * s) mod 2147483647.
Proof.
  intros Hs. induction t as [|t IH].
  - simpl. rewrite Z.mul_1_l, Z.mod_small; lia.
  - rewrite Nat.iter_succ, lcg_modular by (by apply iter_lcg_range).
    rewrite IH, Nat2Z.inj_succ, Z.pow_succ_r by lia.
    rewrite Z.mul_mod_idemp_r by lia. f_equal. lia.
Qed.

Lemma pw_range e : 0 ≤ pw e < 2147483647.
Proof. unfold pw. apply Z.mod_pos_bound. lia. Qed.

Lemma pw_add a b : 0 ≤ a → 0 ≤ b → pw (a + b) = (pw a * pw b) mod 2147483647.
Proof. intros. unfold pw. rewrite Z.pow_add_r by done. by rewrite Zmult_mod. Qed.

Lemma pw_mul a b : 0 ≤ a → 0 ≤ b → pw a = 1 → pw (a * b) = 1.
Proof.
  unfold pw. intros Ha Hb H1. rewrite Z.pow_mul_r by done.
  rewrite Zpower_mod by lia. rewrite H1, Z.pow_1_l by done. done.
Qed.

Lemma pw_full_period : pw 2147483646 = 1.
Proof. unfold pw. rewrite <- Zpow_mod_correct by done. by vm_compute. Qed.

Lemma pw_period a k : 0 ≤ a → 0 ≤ k → pw (a + 2147483646 * k) = pw a.
Proof.
  intros Ha Hk. rewrite pw_add by lia.
  rewrite (pw_mul 2147483646 k); [|lia|lia|exact pw_full_period].
  rewrite Z.mul_1_r. apply Z.mod_small, pw_range.
Qed.

Lemma pw_congr a b :
  0 ≤ a → 0 ≤ b → a mod 2147483646 = b mod 2147483646 → pw a = pw b.
Proof.
  intros Ha Hb Hab.
  rewrite (Z.div_mod a 2147483646), (Z.div_mod b 2147483646) by done.
  rewrite (Z.add_comm _ (a mod _)), (Z.add_comm _ (b mod _)).
  rewrite !pw_period; try (apply Z.mod_pos_bound; lia); try (apply Z.div_pos; lia).
  by rewrite Hab.
Qed.

Lemma pw_cofactors :
  Forall (λ p, pw (2147483646 / p) ≠ 1) [2; 3; 7; 11; 31; 151; 331].
Proof.
  repeat constructor; unfold pw; rewrite <- Zpow_mod_correct by done; by vm_compute.
Qed.

Local Ltac in_list :=
  repeat first [apply list_elem_of_here | apply list_elem_of_further].

(** The divisors of the numbers 2, 3, 7, 11, 31, 151 and 331. *)
Lemma trivial_divisors p d :
  p ∈ [2; 3; 7; 11; 31; 151; 331] → 0 < d → (d | p) → d = 1 ∨ d = p.
Proof.
  intros Hp Hd Hdiv.
  assert (0 < p) as Hp0.
  { repeat (apply elem_of_cons in Hp as [->|Hp]; [lia|]). by apply elem_of_nil in Hp. }
  assert (d ≤ p) as Hle by (by apply Z.divide_pos_le).
  destruct (decide (d = 1)) as [|Hn1]; [by left|].
  destruct (decide (d = p)) as [|Hnp]; [by right|]. exfalso.
  assert (forallb (λ k, negb (p mod k =? 0)) (seqZ 2 (p - 2)) = true) as Hall.
  { repeat (apply elem_of_cons in Hp as [->|Hp]; [by vm_compute|]).
    by apply elem_of_nil in Hp. }
  rewrite forallb_forall in Hall. specialize (Hall d).
  rewrite <- list_elem_of_In, elem_of_seqZ in Hall.
  assert (p mod d = 0) as Hmod by (apply Z.mod_divide; [lia|done]).
  rewrite Hmod in Hall. simpl in Hall. discriminate Hall. lia.
Qed.

Lemma coprime_or_divides p c :
  p ∈ [2; 3; 7; 11; 31; 151; 331] → (p | c) ∨ Z.gcd c p = 1.
Proof.
  intros Hp.
  assert (0 < p) as Hp0.
  { repeat (apply elem_of_cons in Hp as [->|Hp']; [lia|]; try rename Hp' into Hp).
    by apply elem_of_nil in Hp. }
  pose proof (Z.gcd_nonneg c p) as Hg0.
  pose proof (Z.gcd_divide_l c p) as Hgc.
  pose proof (Z.gcd_divide_r c p) as Hgp.
  assert (Z.gcd c p ≠ 0) as Hne.
  { intros Hz. rewrite Hz in Hgp. apply Z.divide_0_l in Hgp. lia. }
  destruct (trivial_divisors p (Z.gcd c p) Hp) as [H1|Hpp]; [lia|done|by right|].
  left. by rewrite Hpp in Hgc.
Qed.

(** A divisor of [2^31 - 2] other than 1 is a multiple of one of its prime
    factors. *)
Lemma cofactor_has_prime c :
  0 < c → (c | 2147483646) → c ≠ 1 →
  ∃ p, p ∈ [2; 3; 7; 11; 31; 151; 331] ∧ (p | c).
Proof.
  intros Hc Hdiv Hne.
  destruct (coprime_or_divides 2 c) as [?|H2]; [in_list|exists 2; split; [in_list|done]|].
  destruct (coprime_or_divides 3 c) as [?|H3]; [in_list|exists 3; split; [in_list|done]|].
  destruct (coprime_or_divides 7 c) as [?|H7]; [in_list|exists 7; split; [in_list|done]|].
  destruct (coprime_or_divides 11 c) as [?|H11]; [in_list|exists 11; split; [in_list|done]|].
  destruct (coprime_or_divides 31 c) as [?|H31]; [in_list|exists 31; split; [in_list|done]|].
  destruct (coprime_or_divides 151 c) as [?|H151]; [in_list|exists 151; split; [in_list|done]|].
  destruct (coprime_or_divides 331 c) as [?|H331]; [in_list|exists 331; split; [in_list|done]|].
  exfalso.
  assert (Z.gcd c (2 * (3 * (3 * (7 * (11 * (31 * (151 * 331))))))) = 1) as Hcop.
  { repeat (apply Z.coprime_mul_r; [done|]). done. }
  change (2 * (3 * (3 * (7 * (11 * (31 * (151 * 331))))))) with 2147483646 in Hcop.
  apply Z.divide_gcd_iff in Hdiv; [|lia]. lia.
Qed.

(** The multiplier has order [2^31 - 2] modulo [2^31 - 1]. *)
Lemma pw_one_multiple e : 0 < e → pw e = 1 → (2147483646 | e).
Proof.
  intros He H1.
  set (d := Z.gcd e 2147483646).
  pose proof (Z.gcd_nonneg e 2147483646) as Hd0.
  pose proof (Z.gcd_divide_l e 2147483646) as Hde.
  pose proof (Z.gcd_divide_r e 2147483646) as HdN.
  fold d in Hd0, Hde, HdN.
  assert (0 < d) as Hdpos.
  { destruct (decide (d = 0)) as [Hz|]; [|lia].
    rewrite Hz in HdN. apply Z.divide_0_l in HdN. lia. }
  assert (pw d = 1) as Hpd.
  { destruct (Z.gcd_bezout e 2147483646 d eq_refl) as (u & v & Huv).
    rewrite (pw_congr d (e * (u mod 2147483646))).
    - apply pw_mul; [lia| |done]. apply Z.mod_pos_bound. lia.
    - lia.
    - apply Z.mul_nonneg_nonneg; [lia|]. apply Z.mod_pos_bound. lia.
    - rewrite Z.mul_mod_idemp_r by done.
      replace d with (e * u + v * 2147483646) by lia.
      by rewrite Z.mod_add by done. }
  destruct HdN as [c Hc].
  assert (0 < c) as Hcpos by nia.
  destruct (decide (c = 1)) as [->|Hc1].
  { by replace 2147483646 with d by lia. }
  exfalso.
  destruct (cofactor_has_prime c Hcpos) as (p & Hp & [c' Hc']); [by exists d; lia|done|].
  pose proof pw_cofactors as Hcof. rewrite Forall_forall in Hcof.
  apply (Hcof p); [by apply list_elem_of_In|].
  assert (0 < p) as Hp0.
  { repeat (apply elem_of_cons in Hp as [->|Hp]; [lia|]). by apply elem_of_nil in Hp. }
  assert (2147483646 / p = d * c') as ->.
  { symmetry. apply Z.div_unique_exact; [lia|]. rewrite Hc, Hc'. ring. }
  apply pw_mul; [lia|nia|done].
Qed.

Lemma pw_inj i j :
  0 ≤ i < 2147483646 → 0 ≤ j < 2147483646 → pw i = pw j → i = j.
Proof.
  assert (∀ i j, 0 ≤ i → i < j → j < 2147483646 → pw i = pw j → False) as Hlt.
  { clear i j. intros i j Hi Hij Hj Heq.
    assert (pw (j - i) = 1) as H1.
    { rewrite <- (pw_period (j - i) 1) by lia.
      replace (j - i + 2147483646 * 1) with (j + (2147483646 - i)) by lia.
      rewrite pw_add, <- Heq, <- pw_add by lia.
      replace (i + (2147483646 - i)) with 2147483646 by lia. exact pw_full_period. }
    apply pw_one_multiple in H1; [|lia].
    apply Z.divide_pos_le in H1; lia. }
  intros Hi Hj Heq.
  destruct (Z.lt_trichotomy i j) as [?|[?|?]]; [|done|].
  - exfalso. apply (Hlt i j); lia || done.
  - exfalso. apply (Hlt j i); lia || done.
Qed.

Lemma pw_nonzero e : 0 ≤ e → pw e ≠ 0.
Proof.
  intros He Hz.
  pose proof (pw_period (e mod 2147483646 + (2147483646 - e mod 2147483646)) 0) as Hp.
  assert (0 ≤ e mod 2147483646 < 2147483646) as Hm by (apply Z.mod_pos_bound; lia).
  assert (pw (e mod 2147483646) = pw e) as Hc.
  { apply pw_congr; [lia|done|]. by rewrite Z.mod_mod. }
  assert (pw (e mod 2147483646 + (2147483646 - e mod 2147483646)) = 1) as H1.
  { replace (e mod 2147483646 + (2147483646 - e mod 2147483646)) with 2147483646 by lia.
    exact pw_full_period. }
  rewrite pw_add, Hc, Hz, Z.mul_0_l, Z.mod_0_l in H1 by lia. discriminate H1.
Qed.

(** An injection of [0, n) into itself reaches every element. *)
Lemma injective_bounded_surjective (n : nat) (f : nat → nat) :
  (∀ i, (i < n)%nat → (f i < n)%nat) →
  (∀ i j, (i < n)%nat → (j < n)%nat → f i = f j → i = j) →
  ∀ y, (y < n)%nat → ∃ i, (i < n)%nat ∧ f i = y.
Proof.
  intros Hb Hinj y Hy.
  assert (NoDup (f <$> seq 0 n)) as Hnd.
  { apply NoDup_fmap_2_strong; [|apply NoDup_seq].
    intros i j Hi%elem_of_seq Hj%elem_of_seq. apply Hinj; lia. }
  assert (f <$> seq 0 n ⊆+ seq 0 n) as Hsub.
  { apply NoDup_submseteq; [done|]. intros x (i & -> & Hi%elem_of_seq)%list_elem_of_fmap.
    apply elem_of_seq. specialize (Hb i). lia. }
  apply submseteq_length_Permutation in Hsub; [|by rewrite length_fmap].
  assert (y ∈ f <$> seq 0 n) as (i & -> & Hi%elem_of_seq)%list_elem_of_fmap.
  { rewrite Hsub. apply elem_of_seq. lia. }
  exists i. split; [lia|done].
Qed.

(** Every residue other than 0 is a power of the multiplier. *)
Lemma pw_surjective y :
  1 ≤ y < 2147483647 → ∃ e, 0 ≤ e < 2147483646 ∧ pw e = y.
Proof.
  intros Hy. destruct (Z_of_nat_complete 2147483646) as [n Hn]; [lia|].
  destruct (injective_bounded_surjective n (λ i, Z.to_nat (pw (Z.of_nat i) - 1)))
    with (y := Z.to_nat (y - 1)) as (i & Hi & Hfi).
  - intros i Hi. pose proof (pw_range (Z.of_nat i)).
    pose proof (pw_nonzero (Z.of_nat i)). lia.
  - intros i j Hi Hj Hij.
    pose proof (pw_range (Z.of_nat i)). pose proof (pw_nonzero (Z.of_nat i)).
    pose proof (pw_range (Z.of_nat j)). pose proof (pw_nonzero (Z.of_nat j)).
    apply Nat2Z.inj, pw_inj; lia.
  - lia.
  - exists (Z.of_nat i). split; [lia|].
    pose proof (pw_range (Z.of_nat i)). pose proof (pw_nonzero (Z.of_nat i)). lia.
Qed.

(** From any seed that is not 0, the stream reaches every value that is
    not 0, hence every draw [seed mod 4]. *)
Lemma lcg_reaches s y :
  1 ≤ s < 2147483647 → 1 ≤ y < 2147483647 →
  ∃ t : nat, (1 ≤ t)%nat ∧ Nat.iter t lcg s = y.
Proof.
  intros Hs Hy.
  destruct (pw_surjective s Hs) as (a & Ha & Hpa).
  destruct (pw_surjective y Hy) as (b & Hb & Hpb).
  exists (Z.to_nat (b + 2147483646 - a)). split; [lia|].
  rewrite iter_lcg_power by lia. rewrite Z2Nat.id by lia.
  rewrite <- Hpa at 1. unfold pw at 1. rewrite Z.mul_mod_idemp_r by done.
  rewrite <- Z.pow_add_r by lia.
  replace (b + 2147483646 - a + a) with (b + 2147483646 * 1) by lia.
  fold (pw (b + 2147483646 * 1)). rewrite pw_period by lia. done.
Qed.

Lemma lcg_draws s r :
  1 ≤ s < 2147483647 → 0 ≤ r < 4 →
  ∃ t : nat, (1 ≤ t)%nat ∧ Nat.iter t lcg s mod 4 = r.
Proof.
  intros Hs Hr.
  destruct (lcg_reaches s (if bool_decide (r = 0) then 4 else r)) as (t & Ht & Hit);
    [done|case_bool_decide; lia|].
  exists t. split; [done|]. rewrite Hit.
  case_bool_decide; [by subst|]. apply Z.mod_small. lia.
Qed.

(** ** The retry loop terminates *)

Lemma lcg_nonzero s : 1 ≤ s < 2147483647 → 1 ≤ lcg s < 2147483647.
Proof.
  intros Hs. destruct (pw_surjective s Hs) as (a & Ha & Hpa).
  pose proof (lcg_range s).
  assert (lcg s = pw (1 + a)) as Heq.
  { rewrite lcg_modular by lia. rewrite pw_add by lia.
    rewrite <- Hpa. by replace (pw 1) with 16807 by (by vm_compute). }
  pose proof (pw_nonzero (1 + a)). lia.
Qed.

Lemma np_get2_is_Some {A} (m : list (list A)) rows cols r c :
  Z.of_nat (length m) = rows → Forall (λ row, Z.of_nat (length row) = cols) m →
  0 ≤ r < rows → 0 ≤ c < cols → is_Some (np_get2 m r c).
Proof.
  intros Hrows Hcols Hr Hc. unfold np_get2. rewrite np_get_nonneg by lia.
  destruct (lookup_lt_is_Some_2 m (Z.to_nat r)) as [row Hrow]; [lia|].
  rewrite Hrow. simpl. apply np_get_is_Some.
  rewrite Forall_forall in Hcols. rewrite (Hcols row); [done|].
  apply list_elem_of_In, list_elem_of_lookup. eauto.
Qed.

Section termination.
Context `{direction, maze_bits}.

Lemma sense_is_Some the_maze h w pheromon a :
  maze_ok the_maze h w → field_shape pheromon h w → ant_in_range h w a →
  is_Some (sense the_maze pheromon a).
Proof.
  intros (Hh & Hw & Hh' & Hw' & _) [Hfh Hfw] (Hage & Hlen & _ & p & Hp & [Hr Hc]).
  unfold sense, position. rewrite np_get_nonneg by lia. rewrite Hp. simpl.
  destruct (np_get2_is_Some the_maze h w p.1 p.2) as [cell ->]; [done..|]. simpl.
  rewrite !int16_small by lia.
  destruct (np_get2_is_Some pheromon (h + 2) (w + 2) p.1 (p.2 + 1)) as [? ->];
    [done|done|lia|lia|]. simpl.
  destruct (np_get2_is_Some pheromon (h + 2) (w + 2) (p.1 + 1) (p.2 + 2)) as [? ->];
    [done|done|lia|lia|]. simpl.
  destruct (np_get2_is_Some pheromon (h + 2) (w + 2) (p.1 + 2) (p.2 + 1)) as [? ->];
    [done|done|lia|lia|]. simpl.
  destruct (np_get2_is_Some pheromon (h + 2) (w + 2) (p.1 + 1) p.2) as [? ->];
    [done|done|lia|lia|]. simpl.
  done.
Qed.

(** A draw towards an open side passes the test of lines 149-153 when it is
    not a turn back, or when the cell has no other exit. *)
Lemma is_valid_move_open h w s d p dir :
  directions_ok → h < 32767 → w < 32767 → in_bounds h w p →
  (dir = DIR_NORTH ∧ has_north_exit s = true ∨ dir = DIR_EAST ∧ has_east_exit s = true ∨
   dir = DIR_SOUTH ∧ has_south_exit s = true ∨ dir = DIR_WEST ∧ has_west_exit s = true) →
  (dir ≠ int8 (3 - d) ∨ nb_exits s = 1) →
  is_valid_move s d p (new_pos s p dir) dir = true.
Proof.
  intros (? & ? & ? & ? & ? & ? & _) Hh Hw Hp Hopen Hturn.
  unfold is_valid_move. apply andb_true_intro. split.
  - set (n := bool_decide (dir = DIR_NORTH) && has_north_exit s).
    set (e := bool_decide (dir = DIR_EAST) && has_east_exit s).
    set (so := bool_decide (dir = DIR_SOUTH) && has_south_exit s).
    set (we := bool_decide (dir = DIR_WEST) && has_west_exit s).
    assert (new_pos s p dir = moved_by p n e so we) as ->.
    { unfold new_pos. fold n e so we. by apply (int16_moved_by h w). }
    assert (b2z n + b2z e + b2z so + b2z we = 1) as Hone.
    { unfold n, e, so, we.
      destruct Hopen as [[-> ->]|[[-> ->]|[[-> ->]|[-> ->]]]];
        repeat case_bool_decide; simpl; try lia;
        destruct (has_north_exit s), (has_east_exit s), (has_south_exit s),
          (has_west_exit s); simpl; lia. }
    unfold moved_by. simpl.
    destruct n, e, so, we; simpl in *; try lia;
      repeat case_bool_decide; simpl; try done; lia.
  - destruct Hturn as [Hne| ->]; repeat case_bool_decide; done.
Qed.

Lemma exists_valid_draw h w s d p :
  directions_ok → h < 32767 → w < 32767 → in_bounds h w p → 1 ≤ nb_exits s →
  ∃ dir, 0 ≤ dir < 4 ∧ is_valid_move s d p (new_pos s p dir) dir = true.
Proof.
  intros Hdir Hh Hw Hp Hnb.
  pose proof Hdir as (? & ? & ? & ? & ? & ? & _).
  assert (∀ dir,
            (dir = DIR_NORTH ∧ has_north_exit s = true ∨
             dir = DIR_EAST ∧ has_east_exit s = true ∨
             dir = DIR_SOUTH ∧ has_south_exit s = true ∨
             dir = DIR_WEST ∧ has_west_exit s = true) →
            (dir ≠ int8 (3 - d) ∨ nb_exits s = 1) →
            ∃ dir, 0 ≤ dir < 4 ∧ is_valid_move s d p (new_pos s p dir) dir = true) as Hpick.
  { intros dir Hopen Hturn. exists dir. split.
    - destruct Hopen as [[-> _]|[[-> _]|[[-> _]|[-> _]]]]; lia.
    - by apply (is_valid_move_open h w). }
  unfold nb_exits in *.
  destruct (has_north_exit s) eqn:Hn, (has_east_exit s) eqn:He,
    (has_south_exit s) eqn:Hs, (has_west_exit s) eqn:Hwe; simpl in Hnb |- *; try lia.
  all: try (destruct (decide (DIR_NORTH = int8 (3 - d)));
            [|by apply (Hpick DIR_NORTH); [left|left]]).
  all: try (destruct (decide (DIR_EAST = int8 (3 - d)));
            [|by apply (Hpick DIR_EAST); [right; left|left]]).
  all: try (destruct (decide (DIR_SOUTH = int8 (3 - d)));
            [|by apply (Hpick DIR_SOUTH); [right; right; left|left]]).
  all: try (destruct (decide (DIR_WEST = int8 (3 - d)));
            [|by apply (Hpick DIR_WEST); [right; right; right|left]]).
  all: try lia.
  all: first [ by apply (Hpick DIR_NORTH); [left|right]
             | by apply (Hpick DIR_EAST); [right; left|right]
             | by apply (Hpick DIR_SOUTH); [right; right; left|right]
             | by apply (Hpick DIR_WEST); [right; right; right|right] ].
Qed.

Lemma retry_steps_add n m : ∀ r,
  retry_steps (n + m) r = retry_steps n r ≫= retry_steps m.
Proof.
  induction n as [|n IH]; intros r; simpl; [done|].
  destruct (retry_step r); simpl; [apply IH|done].
Qed.

Lemma settles_within_idle n r : pending r = false → settles_within n r.
Proof.
  intros Hp. eexists. rewrite retry_steps_idle by done. split; [done|].
  unfold pending in *. by simpl.
Qed.

Lemma settles_within_mono n m r : settles_within n r → settles_within (n + m) r.
Proof.
  intros (r' & Hr & Hp). destruct (settles_within_idle m r' Hp) as (r'' & Hr'' & Hp'').
  exists r''. rewrite retry_steps_add, Hr. done.
Qed.

(** A row whose [t]-th draw is valid has left the loop after [t] passes. *)
Lemma row_settles t : ∀ r p,
  (1 ≤ t)%nat → pending r = true → position (row_ant r) = Some p →
  (∀ q, is_Some (np_set (historic_path (row_ant r)) (int64 (age (row_ant r) + 1)) q)) →
  is_valid_move (row_sensed r) (directions (row_ant r)) p
    (new_pos (row_sensed r) p (Nat.iter t lcg (seeds (row_ant r)) mod 4))
    (Nat.iter t lcg (seeds (row_ant r)) mod 4) = true →
  settles_within t r.
Proof.
  induction t as [|t IH]; intros r p Ht Hpend Hpos Hset Hvalid; [lia|].
  assert (row_exploring r = true) as Hex.
  { unfold pending in Hpend. by apply andb_prop in Hpend as [? _]. }
  unfold settles_within. cbn [retry_steps]. unfold retry_step.
  rewrite Hpend, position_with_seeds, Hpos. cbn [mbind option_bind].
  cbn [seeds with_seeds directions historic_path age].
  destruct (is_valid_move (row_sensed r) (directions (row_ant r)) p
              (new_pos (row_sensed r) p (lcg (seeds (row_ant r)) mod 4))
              (lcg (seeds (row_ant r)) mod 4)) eqn:Hv1.
  - destruct (Hset (new_pos (row_sensed r) p (lcg (seeds (row_ant r)) mod 4)))
      as [hh Hh].
    rewrite Hh. cbn [mbind option_bind].
    apply settles_within_idle. unfold pending. cbn [valid_moves]. apply andb_false_r.
  - cbn [mbind option_bind]. destruct t as [|t].
    { simpl in Hvalid. congruence. }
    apply (IH _ p); [lia|..].
    + unfold pending. cbn [row_exploring valid_moves]. by rewrite Hex.
    + done.
    + done.
    + cbn [row_ant row_sensed seeds with_seeds directions].
      rewrite <- Nat.iter_succ_r. done.
Qed.

Lemma retry_loop_settles n : ∀ rows,
  Forall (settles_within n) rows → is_Some (retry_loop n rows).
Proof.
  induction n as [|n IH]; intros rows Hall; simpl.
  - destruct (existsb pending rows) eqn:Hex; [|done]. exfalso.
    apply existsb_exists in Hex as (r & Hin & Hp). rewrite Forall_forall in Hall.
    destruct (Hall r Hin) as (r' & Hr' & Hp'). simpl in Hr'. congruence.
  - destruct (existsb pending rows); [|done].
    assert (is_Some (mapM retry_step rows)) as [rows1 H1].
    { apply mapM_is_Some, Forall_lookup. intros i r Hr.
      destruct (Forall_lookup_1 _ _ _ _ Hall Hr) as (r' & Hr' & _). simpl in Hr' |- *.
      destruct (retry_step r); [done|discriminate Hr']. }
    rewrite H1. simpl. apply IH, Forall_lookup. intros i r1 Hr1.
    destruct (mapM_lookup_r _ _ _ _ _ H1 Hr1) as (r & Hr & Hstep).
    destruct (Forall_lookup_1 _ _ _ _ Hall Hr) as (r' & Hr' & Hp').
    simpl in Hr'. rewrite Hstep in Hr'. by exists r'.
Qed.

Lemma Forall_settles rows :
  (∀ r, r ∈ rows → ∃ n, settles_within n r) → ∃ n, Forall (settles_within n) rows.
Proof.
  induction rows as [|r rows IH]; intros Hall.
  - exists 0%nat. constructor.
  - destruct (Hall r) as [n0 Hn0]; [left|].
    destruct IH as [n1 Hn1]; [intros; apply Hall; by right|].
    exists (n0 + n1)%nat. constructor; [by apply settles_within_mono|].
    apply Forall_lookup. intros i r' Hr'.
    rewrite Nat.add_comm. apply settles_within_mono. by eapply Forall_lookup_1.
Qed.

Lemma moved_ant_length k unl s a am :
  moved_ant k unl s a am →
  age am = age a ∧ length (historic_path am) = length (historic_path a).
Proof.
  intros (_ & _ & _ & Hg & Hcase). split; [done|].
  destruct (unl && is_exploring _ s).
  - destruct Hcase as (j & _ & p & h' & _ & _ & Hset & Hh & _).
    rewrite Hh. by eapply np_set_length.
  - destruct (unl && is_following _ s).
    + destruct Hcase as (a2 & Hf & -> & _).
      by apply follow_step_frame in Hf as (_ & _ & _ & _ & _ & ?).
    + by destruct Hcase as [-> _].
Qed.

(** Lines 178-194 raise nothing on ants whose history has room for the
    step just taken. *)
Lemma explore_rest_is_Some moved unl pos_food pos_nest :
  Forall (λ am, 0 ≤ age am ∧ age am + 1 < Z.of_nat (length (historic_path am)) ∧
                age am + 1 < 9223372036854775808) moved →
  is_Some (self ← mapM (kill_step pos_nest)
                    (if bool_decide (0 < length unl)%nat
                     then on_idx unl (λ a, with_age (int64 (age a + 1)) a) moved
                     else moved);
           on_idxM unl (λ _ a, load_step pos_food a) self).
Proof.
  intros Hm.
  set (aged := if bool_decide (0 < length unl)%nat
               then on_idx unl (λ a, with_age (int64 (age a + 1)) a) moved else moved).
  assert (Forall (λ a, 0 ≤ age a < Z.of_nat (length (historic_path a))) aged) as Haged.
  { apply Forall_lookup. intros i a Hi. unfold aged in Hi.
    destruct (bool_decide (0 < length unl)%nat).
    - rewrite lookup_on_idx in Hi. destruct (moved !! i) as [am|] eqn:Ham; simplify_eq/=.
      destruct (Forall_lookup_1 _ _ _ _ Hm Ham) as (? & ? & ?).
      case_bool_decide; simpl; [rewrite int64_small by lia|]; lia.
    - destruct (Forall_lookup_1 _ _ _ _ Hm Hi) as (? & ? & ?). lia. }
  assert (is_Some (mapM (kill_step pos_nest) aged)) as [killed Hk].
  { apply mapM_is_Some, Forall_lookup. intros i a Hi. simpl.
    pose proof (Forall_lookup_1 _ _ _ _ Haged Hi) as Ha. simpl in Ha.
    unfold kill_step. case_bool_decide; [|done].
    rewrite np_set_nonneg by lia. done. }
  rewrite Hk. simpl. apply on_idxM_is_Some. intros i ak Hak _.
  destruct (mapM_lookup_r _ _ _ _ _ Hk Hak) as (a & Ha & Hkill).
  pose proof (Forall_lookup_1 _ _ _ _ Haged Ha) as Hr. simpl in Hr.
  unfold load_step, position.
  assert (0 ≤ age ak < Z.of_nat (length (historic_path ak))) as Hrk.
  { unfold kill_step in Hkill. case_bool_decide; [|by simplify_eq].
    rewrite np_set_nonneg in Hkill by lia. simplify_eq/=.
    rewrite length_insert. lia. }
  destruct (np_get_is_Some (historic_path ak) (age ak) Hrk) as [q ->]. done.
Qed.

(** C7, with the condition on the seeds that it needs. In a maze every
    cell of which has an open side, with ants standing on the grid and
    every unloaded ant carrying a seed in [1, 2^31 - 2] (the seeds that
    [__init__] and the recurrence produce), the retry loop ends: for some
    bound on the number of passes [explore] returns, and every ant of
    [ind_exploring_ants] has by then been given a direction that passed
    the test of lines 149-153. *)
Theorem retry_loop_terminates the_maze h w pheromon self unl pos_food pos_nest :
  directions_ok → maze_ok the_maze h w → every_cell_has_an_exit the_maze h w →
  field_shape pheromon h w → idx_in_range unl self = true →
  Forall (ant_in_range h w) self →
  (∀ i a, i ∈ unl → self !! i = Some a → 1 ≤ seeds a < 2147483647) →
  ∃ fuel moved self',
    explore_moves fuel self unl the_maze pheromon = Some moved ∧
    explore fuel self unl the_maze pos_food pos_nest pheromon = Some self' ∧
    ∀ i a s, i ∈ unl → self !! i = Some a → sense the_maze pheromon a = Some s →
      is_exploring (with_seeds (lcg (seeds a)) a) s = true →
      ∃ a' j, moved !! i = Some a' ∧
              accepted_at s a (Nat.iter j lcg (lcg (seeds a)) mod 4) a'.
Proof.
  intros Hdir Hmz Hexit Hshape Hrange Hants Hseeds.
  pose proof Hmz as (_ & _ & Hh & Hw & _).
  set (self1 := reseed unl self).
  assert (∀ i a1, self1 !! i = Some a1 →
            ∃ a, self !! i = Some a ∧
                 a1 = if bool_decide (i ∈ unl) then with_seeds (lcg (seeds a)) a else a)
    as Hself1.
  { intros i a1 Hi. unfold self1 in Hi. rewrite lookup_reseed in Hi.
    destruct (self !! i) as [a|]; simplify_eq/=. eauto. }
  assert (Forall (ant_in_range h w) self1) as Hants1.
  { apply Forall_lookup. intros i a1 Hi. destruct (Hself1 i a1 Hi) as (a & Ha & ->).
    pose proof (Forall_lookup_1 _ _ _ _ Hants Ha). by case_bool_decide. }
  destruct (mapM_is_Some_2 (sense the_maze pheromon) self1) as [sensed Hsensed].
  { apply Forall_lookup. intros i a1 Hi. simpl.
    eapply sense_is_Some; [done|done|]. by eapply Forall_lookup_1. }
  set (expl := ind_exploring_ants self1 sensed unl).
  assert (∃ n, Forall (settles_within n) (loop_rows self1 sensed expl)) as [n Hn].
  { apply Forall_settles. intros r (i & Hr)%list_elem_of_lookup.
    unfold loop_rows in Hr. rewrite list_lookup_imap, lookup_zip_with in Hr.
    destruct (self1 !! i) as [a1|] eqn:Ha1; simpl in Hr; [|done].
    destruct (sensed !! i) as [s|] eqn:Hs; simpl in Hr; [|done].
    injection Hr as <-.
    destruct (decide (i ∈ expl)) as [Hi|Hi].
    2:{ exists 0%nat. apply settles_within_idle. unfold pending. simpl.
        by rewrite bool_decide_false. }
    rewrite bool_decide_true by done.
    apply elem_of_ind_exploring_ants in Hi as (Hiu & _).
    destruct (Hself1 i a1 Ha1) as (a & Ha & Ha1eq).
    rewrite bool_decide_true in Ha1eq by done.
    destruct (Forall_lookup_1 _ _ _ _ Hants1 Ha1) as (Hage & Hlen & H64 & p & Hp & Hpb).
    destruct (mapM_lookup _ _ _ _ _ Hsensed Ha1) as (s' & Hs' & Hsense).
    assert (s' = s) as -> by congruence.
    assert (position a1 = Some p) as Hpos.
    { unfold position. rewrite np_get_nonneg by lia. done. }
    assert (1 ≤ nb_exits s) as Hnb.
    { destruct (sense_inv _ _ _ _ Hsense)
        as (p' & cell & ? & ? & ? & ? & Hp' & Hcell & _ & _ & _ & _ & ->).
      assert (p' = p) as -> by congruence. destruct Hpb as [Hr Hc].
      destruct (Hexit _ _ _ Hr Hc Hcell) as [?|[?|[?|?]]]; unfold nb_exits; simpl;
        repeat case_bool_decide; simpl; lia. }
    destruct (exists_valid_draw h w s (directions a1) p Hdir Hh Hw Hpb Hnb)
      as (dir & Hdir4 & Hvalid).
    destruct (lcg_draws (seeds a1) dir) as (t & Ht & Hdraw); [|done|].
    { subst a1. simpl. apply lcg_nonzero. by eapply Hseeds. }
    exists t. apply (row_settles t _ p); [done|done|done| |].
    - intros q. simpl. rewrite int64_small by lia. rewrite np_set_nonneg by lia. done.
    - simpl. by rewrite Hdraw. }
  destruct (retry_loop_settles n _ Hn) as [rows' Hrows'].
  assert (∃ self2,
            (if bool_decide (0 < length expl)%nat
             then rows ← retry_loop n (loop_rows self1 sensed expl); Some (map row_ant rows)
             else Some self1) = Some self2) as [self2 Hstage].
  { case_bool_decide; [rewrite Hrows'; simpl; eauto|eauto]. }
  assert (length sensed = length self1) as Hlens by (symmetry; by eapply length_mapM).
  destruct (loop_stage n self1 sensed expl self2) as (k & _ & _ & Hlen2 & Hrows);
    [done| |done|].
  { intros i [_ (a & s & Ha & _)]%elem_of_ind_exploring_ants.
    by apply lookup_lt_Some in Ha. }
  set (foll := ind_following_ants (map choices self1) sensed unl).
  assert (∃ moved, explore_moves n self unl the_maze pheromon = Some moved)
    as [moved Hmoved].
  { unfold explore_moves. rewrite Hrange. simpl. fold self1. rewrite Hsensed. simpl.
    fold expl. rewrite Hstage. simpl. fold foll.
    destruct (bool_decide (0 < length foll)%nat); [|eauto].
    apply on_idxM_is_Some. intros i a2 Ha2 Hi.
    apply elem_of_ind_following_ants in Hi as (Hiu & c & s & Hc & Hs & Hfol).
    rewrite Hs. simpl. rewrite list_lookup_fmap in Hc.
    destruct (self1 !! i) as [a1|] eqn:Ha1; [|done]. injection Hc as <-.
    destruct (Hrows i a1 s Ha1 Hs) as (a2' & Ha2' & _ & Hcase).
    assert (a2' = a2) as -> by congruence.
    assert (i ∉ expl) as Hni.
    { intros (_ & a1' & s' & ? & ? & Hex)%elem_of_ind_exploring_ants.
      assert (a1' = a1) as -> by congruence. assert (s' = s) as -> by congruence.
      apply is_exploring_not_following in Hex. congruence. }
    rewrite bool_decide_false in Hcase by done. subst a2.
    destruct (Forall_lookup_1 _ _ _ _ Hants1 Ha1) as (Hage & Hlen & H64 & p & Hp & Hpb).
    rewrite follow_step_with_seeds, (follow_step_target s a1 p) by (done || lia).
    done. }
  destruct (explore_moves_spec _ _ _ _ _ _ Hmoved)
    as (k' & sensed' & Hs' & _ & _ & Hlenm & Hspec).
  assert (is_Some (explore n self unl the_maze pos_food pos_nest pheromon))
    as [self' Hexplore].
  { unfold explore. rewrite Hmoved. simpl. apply explore_rest_is_Some.
    apply Forall_lookup. intros i am Ham.
    destruct (lookup_lt_is_Some_2 self i) as [a Ha].
    { rewrite <- Hlenm. by eapply lookup_lt_Some. }
    destruct (Hspec i a Ha) as (s & am' & _ & _ & Ham' & Hmv).
    assert (am' = am) as -> by congruence.
    destruct (moved_ant_length _ _ _ _ _ Hmv) as [-> ->].
    destruct (Forall_lookup_1 _ _ _ _ Hants Ha) as (? & ? & ? & _). done. }
  exists n, moved, self'. split; [done|]. split; [done|].
  intros i a s Hiu Ha Hs Hex.
  destruct (Hspec i a Ha) as (s0 & a' & _ & Hs0 & Ha' & Hmv).
  assert (s0 = s) as -> by congruence.
  unfold moved_ant in Hmv. rewrite bool_decide_true in Hmv by done.
  cbn [andb] in Hmv. simpl in Hmv. rewrite Hex in Hmv.
  destruct Hmv as (_ & _ & _ & _ & j & _ & Hacc). by exists a', j.
Qed.

End termination.

(** * Runs of the tick on small mazes *)

Section examples.

#[local] Existing Instance direction_py.
#[local] Existing Instance maze_py.
#[local] Existing Instance quarter_rule.

Local Ltac run := vm_compute; reflexivity.

(** C1. Line 202 hands 0 to [return_to_nest] where the incoming
    [food_counter] was meant. One ant walks between the nest (0,0) and the
    food (0,1) of [corridor]: at its second delivery, in the fourth tick,
    [advance] is given the count 1 and returns 1 again, and the [new_food]
    it sends on is 0, although one ant has just unloaded on the nest. A
    call whose loaded ants deliver nothing returns 0 whatever count it was
    given, and sends on the negated count. *)
Theorem advance_restarts_the_food_count :
  (∃ r1 r2 r3 r4,
     advance 100 (young_ants 1 (0, 0) 3) corridor (0, 1) (0, 0) (no_scent 1 2) [] 0
       = Some r1 ∧
     advance 100 (tick_colony r1) corridor (0, 1) (0, 0) (no_scent 1 2) []
             (tick_food_counter r1) = Some r2 ∧
     advance 100 (tick_colony r2) corridor (0, 1) (0, 0) (no_scent 1 2) []
             (tick_food_counter r2) = Some r3 ∧
     advance 100 (tick_colony r3) corridor (0, 1) (0, 0) (no_scent 1 2) []
             (tick_food_counter r3) = Some r4 ∧
     delivered (tick_colony r1) (tick_colony r2) = 1 ∧
     tick_food_counter r2 = 1 ∧ tick_new_food r2 = 1 ∧
     delivered (tick_colony r2) (tick_colony r3) = 0 ∧
     tick_food_counter r3 = 1 ∧ tick_new_food r3 = 0 ∧
     delivered (tick_colony r3) (tick_colony r4) = 1 ∧
     tick_food_counter r4 = 1 ∧ tick_new_food r4 = 0) ∧
  (∃ r, advance 100 [mkAnt 16807 true 5 2 [(0, 0); (0, 1); (0, 2); (0, 0); (0, 0); (0, 0)] 1]
                [[2; 10; 8]] (0, 2) (0, 0) (no_scent 1 3) [] 7 = Some r ∧
        delivered [mkAnt 16807 true 5 2 [(0, 0); (0, 1); (0, 2); (0, 0); (0, 0); (0, 0)] 1]
                  (tick_colony r) = 0 ∧
        tick_food_counter r = 0 ∧ tick_new_food r = -7).
Proof.
  split.
  - do 4 eexists.
    split; [run|]. split; [run|]. split; [run|]. split; [run|].
    split; [run|]. split; [run|]. split; [run|]. split; [run|].
    split; [run|]. split; [run|]. split; [run|]. split; run.
  - eexists. split; [run|]. split; [run|]. split; run.
Qed.

(** ** The grids of the examples *)

Local Ltac cells Hr Hc Hcell :=
  repeat match goal with
  | H : 0 ≤ ?x < ?n |- _ =>
      first [ assert (x = 0) as -> by lia
            | assert (x = 0 ∨ x = 1) as [-> | ->] by lia
            | assert (x = 0 ∨ x = 1 ∨ x = 2) as [-> | [-> | ->]] by lia ];
      clear H
  end;
  vm_compute in Hcell; injection Hcell as <-; cbn;
  repeat match goal with
  | |- context [Z.land ?a ?b] =>
      let v := eval vm_compute in (Z.land a b) in change (Z.land a b) with v
  end.

Lemma directions_py_ok : directions_ok.
Proof. unfold directions_ok. simpl. lia. Qed.

Lemma corridor_ok : maze_ok corridor 1 2.
Proof.
  split; [done|]. split; [by repeat constructor|]. split; [lia|]. split; [lia|].
  intros r c cell Hr Hc Hcell. cells Hr Hc Hcell; lia.
Qed.

Lemma corridor_exits : every_cell_has_an_exit corridor 1 2.
Proof. intros r c cell Hr Hc Hcell. cells Hr Hc Hcell; lia. Qed.

Lemma ring_ok : maze_ok ring 2 2.
Proof.
  split; [done|]. split; [by repeat constructor|]. split; [lia|]. split; [lia|].
  intros r c cell Hr Hc Hcell. cells Hr Hc Hcell; lia.
Qed.

Lemma no_scent_nonneg h w : field_nonneg (no_scent h w).
Proof.
  unfold field_nonneg, no_scent. apply Forall_replicate, Forall_replicate.
  apply Qle_refl.
Qed.

Lemma no_scent_shape h w : field_shape (no_scent h w) (Z.of_nat h) (Z.of_nat w).
Proof.
  unfold field_shape, no_scent. split.
  - rewrite length_replicate. lia.
  - apply Forall_replicate. rewrite length_replicate. lia.
Qed.

Lemma young_ants_reachable fields the_maze pos_food pos_nest nb_ants max_life0 :
  1 ≤ max_life0 < 2147483648 →
  reachable fields the_maze pos_food pos_nest (young_ants nb_ants pos_nest max_life0).
Proof. intros Hm. apply reachable_init; [done|]. intros _. lia. Qed.

(** ** C2 *)

(** C2, the claim as stated fails: the only ant of a fresh colony stands on
    the cell (0,0) of [corridor] when the tick starts, and the deposit that
    lines 208-216 prepare for it is at the cell (0,1), where its move of
    this tick took it. *)
Lemma deposit_is_at_the_new_cell :
  ∃ r deposits,
    advance 100 (young_ants 1 (0, 0) 3) corridor (0, 1) (0, 0) (no_scent 1 2) [] 0
      = Some r ∧
    position <$> young_ants 1 (0, 0) 3 !! 0%nat = Some (Some (0, 0)) ∧
    mapM (deposit_of corridor) (tick_colony r) = Some deposits ∧
    fst <$> deposits !! 0%nat = Some (0, 1).
Proof. do 2 eexists. split; [run|]. split; [run|]. split; run. Qed.

(** ** C4 and C9 *)

(** C4, the claim as stated fails when the food lies on the nest: the ant
    of a fresh colony with [max_life = 1] is reset on the nest by its first
    tick and loaded there, and the second tick takes its age from 0 to -1. *)
Lemma age_below_zero :
  ∃ r1 r2 a,
    advance 100 (young_ants 1 (0, 0) 1) corridor (0, 0) (0, 0) (no_scent 1 2) [] 0
      = Some r1 ∧
    advance 100 (tick_colony r1) corridor (0, 0) (0, 0) (no_scent 1 2) []
            (tick_food_counter r1) = Some r2 ∧
    tick_colony r2 !! 0%nat = Some a ∧ age a = -1 ∧ ¬ 0 ≤ age a ≤ max_life a.
Proof.
  do 3 eexists. split; [run|]. split; [run|]. split; [run|]. split; [run|].
  vm_compute. intros [H _]. by apply H.
Qed.

Lemma age_within_max_life_witness :
  ∃ r,
    advance 100 (young_ants 1 (0, 0) 3) corridor (0, 1) (0, 0) (no_scent 1 2) [] 0
      = Some r ∧
    ∀ i a', tick_colony r !! i = Some a' →
      0 ≤ age a' ≤ max_life a' ∧ age a' ≠ max_life a' ∧
      ∀ a, young_ants 1 (0, 0) 3 !! i = Some a → is_loaded a = false →
           age a + 1 = max_life a →
           age a' = 0 ∧ position a' = Some (0, 0) ∧ directions a' = DIR_NONE.
Proof.
  eexists. split; [run|].
  apply (age_within_max_life field_nonneg corridor (0, 1) (0, 0)
                             (young_ants 1 (0, 0) 3) 100 (no_scent 1 2) [] 0).
  - discriminate.
  - unfold pos_int16. simpl. lia.
  - simpl. lia.
  - apply young_ants_reachable. lia.
  - run.
Defined.

Lemma loaded_ants_have_positive_age_witness :
  ∃ r1,
    advance 100 (young_ants 1 (0, 0) 3) corridor (0, 1) (0, 0) (no_scent 1 2) [] 0
      = Some r1 ∧
    is_loaded <$> tick_colony r1 !! 0%nat = Some true ∧
    (∀ i a, tick_colony r1 !! i = Some a → is_loaded a = true →
       1 ≤ age a ∧ 0 ≤ int64 (age a - 1) ∧
       np_index (length (historic_path a)) (int64 (age a - 1))
       = Some (Z.to_nat (age a - 1))) ∧
    (∀ fuel pheromon others food_counter r,
       field_nonneg pheromon →
       advance fuel (tick_colony r1) corridor (0, 1) (0, 0) pheromon others
               food_counter = Some r →
       ∀ i a', tick_colony r !! i = Some a' → is_loaded a' = true → 1 ≤ age a').
Proof.
  eexists. split; [run|]. split; [run|].
  apply (loaded_ants_have_positive_age field_nonneg corridor (0, 1) (0, 0)).
  - discriminate.
  - unfold pos_int16. simpl. lia.
  - apply (reachable_advance field_nonneg corridor (0, 1) (0, 0)
             (young_ants 1 (0, 0) 3) 100 (no_scent 1 2) [] 0).
    + apply young_ants_reachable. lia.
    + apply no_scent_nonneg.
    + run.
Defined.
(** ** C5 *)

(** C5, the claim as stated fails: in [ring], with the same scent east and
    south of the nest, the scent-following branch takes a fresh ant from
    (0,0) to (1,1) in one tick, a cell that no single move through an open
    side of (0,0) reaches. *)
Lemma diagonal_move :
  ∃ r a,
    advance 100 (young_ants 1 (0, 0) 5) ring (1, 1) (0, 0) two_trails [] 0 = Some r ∧
    tick_colony r !! 0%nat = Some a ∧ age a = 1 ∧
    np_get (historic_path a) (age a - 1) = Some (0, 0) ∧
    position a = Some (1, 1) ∧
    (1, 1) ≠ (0, 0) ∧ ¬ one_move ring (0, 0) (1, 1).
Proof.
  do 2 eexists. split; [run|]. split; [run|]. split; [run|]. split; [run|].
  split; [run|]. split; [discriminate|].
  intros (n & e & s & w & _ & Hone & Hq).
  destruct n, e, s, w; vm_compute in Hone; vm_compute in Hq; congruence.
Qed.

Lemma history_follows_open_exits_witness :
  ∃ r1,
    advance 100 (young_ants 1 (0, 0) 3) corridor (0, 1) (0, 0) (no_scent 1 2) [] 0
      = Some r1 ∧
    age <$> tick_colony r1 !! 0%nat = Some 1 ∧
    (∀ i a, tick_colony r1 !! i = Some a →
       ∃ q, position a = Some q ∧ in_bounds 1 2 q ∧
            (1 ≤ age a →
             ∃ p, np_get (historic_path a) (age a - 1) = Some p ∧
                  joint_move corridor p q)).
Proof.
  eexists. split; [run|]. split; [run|].
  apply (history_follows_open_exits corridor 1 2 (0, 1) (0, 0)).
  - apply corridor_ok.
  - discriminate.
  - unfold in_bounds. simpl. lia.
  - apply (reachable_advance field_nonneg corridor (0, 1) (0, 0)
             (young_ants 1 (0, 0) 3) 100 (no_scent 1 2) [] 0).
    + apply young_ants_reachable. lia.
    + apply no_scent_nonneg.
    + run.
Defined.

(** ** C6 *)

Lemma no_u_turn_witness :
  tick_colony <$> advance 100 (young_ants 2 (0, 0) 5) ring (1, 1) (0, 0)
                          (no_scent 2 2) [] 0 = Some ring_walkers ∧
  ∃ moved sensed a s,
    explore_moves 100 ring_walkers [0; 1]%nat ring (no_scent 2 2) = Some moved ∧
    mapM (sense ring (no_scent 2 2)) (reseed [0; 1]%nat ring_walkers) = Some sensed ∧
    ring_walkers !! 0%nat = Some a ∧ sensed !! 0%nat = Some s ∧
    nb_exits s = 2 ∧ directions a = DIR_EAST ∧
    ∃ a', moved !! 0%nat = Some a' ∧
          (2 ≤ nb_exits s → opposite (directions a) ≠ Some (directions a')) ∧
          (opposite (directions a) = Some (directions a') → nb_exits s = 1).
Proof.
  split; [run|].
  do 4 eexists. split; [run|]. split; [run|]. split; [run|].
  split; [run|]. split; [run|]. split; [run|].
  eapply (no_u_turn 100 ring_walkers [0; 1]%nat ring (no_scent 2 2));
    [apply directions_py_ok | run | run | vm_compute; in_list | run | run].
Defined.

(** ** C7 *)

Lemma lcg_fixes_0 j : Nat.iter j lcg 0 = 0.
Proof. induction j as [|j IH]; [done|]. simpl. rewrite IH. by vm_compute. Qed.

(** C7, the claim as stated fails for a seed that the recurrence does not
    move: every cell of [corridor] has an open side, but an ant whose seed
    is 0 draws the direction 0 at every pass, the cell (0,0) is closed on
    that side, and no number of passes lets [explore] return. *)
Lemma retry_loop_stuck :
  every_cell_has_an_exit corridor 1 2 ∧
  ∀ fuel, explore fuel [ant_of_seed_0] [0%nat] corridor (0, 1) (0, 0) (no_scent 1 2)
          = None.
Proof.
  split; [apply corridor_exits|]. intros fuel.
  destruct (explore fuel _ _ _ _ _ _) as [self'|] eqn:He; [exfalso|done].
  destruct (explore_spec _ _ _ _ _ _ _ _ He) as (moved & Hm & _).
  destruct (explore_moves_spec _ _ _ _ _ _ Hm) as (k & sensed & _ & _ & _ & _ & Hmoved).
  destruct (Hmoved 0%nat ant_of_seed_0 eq_refl) as (s & a' & _ & Hs & _ & Hmv).
  vm_compute in Hs. injection Hs as <-.
  destruct Hmv as (_ & _ & _ & _ & Hmv).
  rewrite bool_decide_true in Hmv by in_list.
  change (true && is_exploring _ _) with true in Hmv. cbv iota in Hmv.
  destruct Hmv as (j & _ & p & h & Hp & Hval & _).
  vm_compute in Hp. injection Hp as <-.
  match type of Hval with
  | context [Nat.iter j lcg ?x] =>
      replace (Nat.iter j lcg x) with 0 in Hval
        by (symmetry; replace x with 0 by (by vm_compute); apply lcg_fixes_0)
  end.
  by vm_compute in Hval.
Qed.

Lemma retry_loop_terminates_witness :
  ∃ fuel moved self',
    explore_moves fuel (young_ants 1 (0, 0) 3) [0%nat] corridor (no_scent 1 2)
      = Some moved ∧
    explore fuel (young_ants 1 (0, 0) 3) [0%nat] corridor (0, 1) (0, 0) (no_scent 1 2)
      = Some self' ∧
    ∀ i a s, i ∈ [0%nat] → young_ants 1 (0, 0) 3 !! i = Some a →
      sense corridor (no_scent 1 2) a = Some s →
      is_exploring (with_seeds (lcg (seeds a)) a) s = true →
      ∃ a' j, moved !! i = Some a' ∧
              accepted_at s a (Nat.iter j lcg (lcg (seeds a)) mod 4) a'.
Proof.
  apply (retry_loop_terminates corridor 1 2 (no_scent 1 2) (young_ants 1 (0, 0) 3)
                               [0%nat] (0, 1) (0, 0)).
  - apply directions_py_ok.
  - apply corridor_ok.
  - apply corridor_exits.
  - apply (no_scent_shape 1 2).
  - reflexivity.
  - repeat constructor; try (simpl; lia).
    exists (0, 0). split; [reflexivity|]. unfold in_bounds. simpl. lia.
  - intros i a Hi Ha. apply list_elem_of_singleton in Hi as ->.
    injection Ha as <-. vm_compute. split; [discriminate|reflexivity].
Defined.

(** ** C8 and C10 *)

(** C8, the claim as stated fails: two ants leave the nest (0,0) of [fork],
    the first reaches the food (0,2) in two ticks while the second walks
    into the dead end and back. In the third tick the first ant is carried
    one step back by [return_to_nest] and is still loaded when [explore] is
    called for the second one; [explore] returns it with another seed. *)
Lemma loaded_seed_advances :
  ∃ r1 r2 back self' a a',
    advance 100 (young_ants 2 (0, 0) 5) fork (0, 2) (0, 0) (no_scent 2 3) [] 0
      = Some r1 ∧
    advance 100 (tick_colony r1) fork (0, 2) (0, 0) (no_scent 2 3) []
            (tick_food_counter r1) = Some r2 ∧
    nonzero (map is_loaded (tick_colony r2)) = [0%nat] ∧
    nonzero (map (λ a, negb (is_loaded a)) (tick_colony r2)) = [1%nat] ∧
    return_to_nest (tick_colony r2) [0%nat] (0, 0) 0 = Some back ∧
    explore 100 back.1 [1%nat] fork (0, 2) (0, 0) (no_scent 2 3) = Some self' ∧
    back.1 !! 0%nat = Some a ∧ self' !! 0%nat = Some a' ∧
    is_loaded a = true ∧ is_loaded a' = true ∧ seeds a' ≠ seeds a.
Proof.
  do 6 eexists. split; [run|]. split; [run|]. split; [run|]. split; [run|].
  split; [run|]. split; [run|]. split; [run|]. split; [run|].
  split; [run|]. split; [run|]. vm_compute. discriminate.
Qed.

Lemma following_keeps_directions_witness :
  ∃ self' sensed a,
    explore 100 (young_ants 1 (0, 0) 5) [0%nat] ring (1, 1) (0, 0) two_trails
      = Some self' ∧
    mapM (sense ring two_trails) (reseed [0%nat] (young_ants 1 (0, 0) 5)) = Some sensed ∧
    young_ants 1 (0, 0) 5 !! 0%nat = Some a ∧
    (∀ s b b', follow_step s b = Some b' → directions b' = directions b) ∧
    ∃ moved am a',
      explore_moves 100 (young_ants 1 (0, 0) 5) [0%nat] ring two_trails = Some moved ∧
      moved !! 0%nat = Some am ∧ directions am = directions a ∧
      self' !! 0%nat = Some a' ∧
      directions a' = if bool_decide (int64 (age a + 1) = max_life a)
                      then int8 DIR_NONE else directions a.
Proof.
  do 3 eexists. split; [run|]. split; [run|]. split; [run|].
  eapply (following_keeps_directions 100 (young_ants 1 (0, 0) 5) [0%nat] ring (1, 1)
                                     (0, 0) two_trails);
    [run | run | vm_compute; in_list | run].
Defined.

End examples.

(** * Further properties of the code *)

(** ** The recurrence of lines 33, 89 and 135 *)

Lemma iter_lcg_pw (n : nat) e :
  0 ≤ e → Nat.iter n lcg (pw e) = pw (Z.of_nat n + e).
Proof.
  intros He. rewrite iter_lcg_power by apply pw_range.
  rewrite pw_add by lia. unfold pw at 2. by rewrite Z.mul_mod_idemp_l by done.
Qed.

Lemma pw_eq_residue a b :
  0 ≤ a → 0 ≤ b → pw a = pw b → a mod 2147483646 = b mod 2147483646.
Proof.
  intros Ha Hb Hab. apply pw_inj; try (apply Z.mod_pos_bound; lia).
  rewrite <- (pw_congr a (a mod 2147483646)), <- (pw_congr b (b mod 2147483646));
    try done; try (apply Z.mod_pos_bound; lia); by rewrite Z.mod_mod.
Qed.

Lemma iter_lcg_nonzero (n : nat) s :
  1 ≤ s < 2147483647 → 1 ≤ Nat.iter n lcg s < 2147483647.
Proof.
  intros Hs. induction n as [|n IH]; [done|]. simpl. by apply lcg_nonzero.
Qed.

Lemma lcg_inj s s' :
  1 ≤ s < 2147483647 → 1 ≤ s' < 2147483647 → lcg s = lcg s' → s = s'.
Proof.
  intros Hs Hs' Heq.
  destruct (pw_surjective s Hs) as (a & Ha & <-).
  destruct (pw_surjective s' Hs') as (b & Hb & <-).
  change (Nat.iter 1 lcg (pw a) = Nat.iter 1 lcg (pw b)) in Heq.
  rewrite !iter_lcg_pw in Heq by lia.
  apply pw_eq_residue in Heq; [|lia|lia].
  f_equal. apply (Z.add_cancel_l _ _ 1).
  destruct (decide (a = 2147483645)) as [->|]; destruct (decide (b = 2147483645)) as [->|];
    try done.
  - rewrite (Z.mod_small (Z.of_nat 1 + b)) in Heq by lia.
    replace (Z.of_nat 1 + 2147483645) with (0 + 1 * 2147483646) in Heq by lia.
    rewrite Z.mod_add, Z.mod_0_l in Heq by lia. lia.
  - rewrite (Z.mod_small (Z.of_nat 1 + a)) in Heq by lia.
    replace (Z.of_nat 1 + 2147483645) with (0 + 1 * 2147483646) in Heq by lia.
    rewrite Z.mod_add, Z.mod_0_l in Heq by lia. lia.
  - rewrite !Z.mod_small in Heq by lia. lia.
Qed.

(** From a seed in [1, 2^31 - 2] the recurrence stays in that range and
    comes back to the seed after [n] steps exactly when [n] is a multiple
    of [2^31 - 2]: the stream of every ant has the full period. *)
Theorem lcg_full_period s (n : nat) :
  1 ≤ s < 2147483647 →
  1 ≤ Nat.iter n lcg s < 2147483647 ∧
  (Nat.iter n lcg s = s ↔ (2147483646 | Z.of_nat n)).
Proof.
  intros Hs. split; [by apply iter_lcg_nonzero|].
  destruct (pw_surjective s Hs) as (a & Ha & <-).
  rewrite iter_lcg_pw by lia. split.
  - intros Heq. apply pw_eq_residue in Heq; [|lia|lia].
    apply Z.mod_divide; [lia|].
    replace (Z.of_nat n) with (Z.of_nat n + a - a) by lia.
    rewrite Zminus_mod, Heq, Z.sub_diag. by rewrite Z.mod_0_l.
  - intros [k Hk]. assert (0 ≤ k) by lia.
    rewrite Hk, Z.add_comm, (Z.mul_comm k). apply pw_period; lia.
Qed.

Lemma lcg_full_period_witness :
  1 ≤ Nat.iter 3 lcg 1 < 2147483647 ∧
  (Nat.iter 3 lcg 1 = 1 ↔ (2147483646 | Z.of_nat 3)).
Proof. apply (lcg_full_period 1 3). lia. Defined.

(** ** [Colony.__init__] *)

Section init.
Context `{direction}.

Lemma lookup_Colony_init nb_ants pos_init max_life0 scaled i a :
  Colony_init nb_ants pos_init max_life0 scaled !! i = Some a →
  (i < nb_ants)%nat ∧
  a = mkAnt (lcg (Z.of_nat i + 1)) false
            (int32 (int32 max_life0 - int32 (scaled i) / 4)) 0
            ((int16 pos_init.1, int16 pos_init.2)
               :: replicate (Z.to_nat max_life0) (0, 0))
            (int8 DIR_NONE).
Proof.
  unfold Colony_init. rewrite list_lookup_fmap. intros Hi.
  destruct (seq 0 nb_ants !! i) as [j|] eqn:Hj; simplify_eq/=.
  apply lookup_seq in Hj as [-> ?]. done.
Qed.

(** "Each ant has is own unique random seed": in a colony of fewer than
    [2^31 - 1] ants, the seed that line 33 leaves to ant [i] is
    [16807 * (i+1) mod (2^31 - 1)], it lies in [1, 2^31 - 2], and no two
    ants share a seed. *)
Theorem Colony_init_seeds nb_ants pos_init max_life0 scaled :
  Z.of_nat nb_ants < 2147483647 →
  length (Colony_init nb_ants pos_init max_life0 scaled) = nb_ants ∧
  ∀ i a, Colony_init nb_ants pos_init max_life0 scaled !! i = Some a →
    seeds a = (16807 * (Z.of_nat i + 1)) mod 2147483647 ∧
    1 ≤ seeds a < 2147483647 ∧
    ∀ j b, Colony_init nb_ants pos_init max_life0 scaled !! j = Some b →
           seeds b = seeds a → j = i.
Proof.
  intros Hn. split.
  { unfold Colony_init. by rewrite length_fmap, length_seq. }
  intros i a [Hi ->]%lookup_Colony_init. simpl.
  split; [apply lcg_modular; lia|]. split; [apply lcg_nonzero; lia|].
  intros j b [Hj ->]%lookup_Colony_init. simpl. intros Heq%lcg_inj; lia.
Qed.

(** A fresh ant carries no food, has age 0, stands on [pos_init] facing
    [DIR_NONE], has room for [max_life + 1] cells in its history, and is
    given between 75% and 100% of [max_life] to live. *)
Theorem Colony_init_fresh nb_ants pos_init max_life0 scaled i a :
  pos_int16 pos_init → -128 ≤ DIR_NONE < 128 → 1 ≤ max_life0 < 2147483648 →
  (∀ i, 0 ≤ scaled i ≤ max_life0) →
  Colony_init nb_ants pos_init max_life0 scaled !! i = Some a →
  is_loaded a = UNLOADED ∧ age a = 0 ∧ position a = Some pos_init ∧
  directions a = DIR_NONE ∧
  Z.of_nat (length (historic_path a)) = max_life0 + 1 ∧
  max_life a = max_life0 - scaled i / 4 ∧
  3 * max_life0 ≤ 4 * max_life a ≤ 4 * max_life0.
Proof.
  intros [Hp1 Hp2] Hnone Hm Hsc [Hi ->]%lookup_Colony_init. simpl.
  specialize (Hsc i).
  assert (0 ≤ scaled i / 4 ≤ max_life0 / 4).
  { split; [apply Z.div_pos; lia|apply Z.div_le_mono; lia]. }
  pose proof (Z.mul_div_le max_life0 4).
  rewrite (int32_small max_life0), (int32_small (scaled i)) by lia.
  rewrite int32_small, int8_small by lia.
  rewrite length_replicate. unfold position. simpl.
  rewrite !int16_small by lia. destruct pos_init.
  repeat split; try done; lia.
Qed.

End init.

(** ** [Colony.return_to_nest] *)

Lemma length_nonzero_from k mask :
  length (nonzero_from k mask) = length (filter (λ b, b = true) mask).
Proof.
  revert k. induction mask as [|b mask IH]; intros k; [done|].
  simpl. destruct b.
  - rewrite filter_cons_True by done. simpl. by rewrite IH.
  - rewrite filter_cons_False by done. by rewrite IH.
Qed.

Lemma length_nonzero_filter {A} (P : A → Prop) `{!∀ x, Decision (P x)}
    (l : list A) (mask : list bool) :
  Forall2 (λ x b, b = true ↔ P x) l mask →
  length (nonzero mask) = length (filter P l).
Proof.
  unfold nonzero. rewrite length_nonzero_from.
  induction 1 as [|x b l mask Hxb _ IH]; [done|].
  destruct (decide (P x)) as [Hx|Hx].
  - rewrite (filter_cons_True P) by done.
    rewrite filter_cons_True by (by apply Hxb). simpl. by rewrite IH.
  - rewrite (filter_cons_False P) by done.
    rewrite filter_cons_False by (by rewrite Hxb). done.
Qed.

Lemma back_ant_steps_onto pos_nest a ab :
  back_ant pos_nest a = Some ab →
  ab = if steps_onto pos_nest a
       then with_age 0 (with_is_loaded UNLOADED (with_age (int64 (age a - 1)) a))
       else with_age (int64 (age a - 1)) a.
Proof.
  unfold back_ant, steps_onto, position. simpl.
  destruct (np_get _ _) as [p|]; intros; simplify_eq/=.
  repeat case_bool_decide; congruence.
Qed.

Lemma return_to_nest_count self loaded_ants pos_nest food_counter self' fc' :
  return_to_nest self loaded_ants pos_nest food_counter = Some (self', fc') →
  fc' = food_counter + arrivals self loaded_ants pos_nest.
Proof.
  unfold return_to_nest. intros Hr.
  destruct (idx_in_range loaded_ants self) eqn:Hrange; simpl in Hr; [|done].
  set (dec := λ a, with_age (int64 (age a - 1)) a) in *.
  set (self1 := on_idx loaded_ants dec self) in *.
  destruct (mapM _ loaded_ants) as [tmp|] eqn:Htmp; simpl in Hr; [|done].
  set (mask := map (λ t : bool * bool, t.1 && t.2) tmp) in *.
  assert (Forall2 (λ i b, b = true ↔ steps_onto pos_nest <$> self !! i = Some true)
                  loaded_ants mask) as Hmask.
  { apply Forall2_same_length_lookup_2.
    { unfold mask. rewrite length_fmap. by eapply length_mapM. }
    intros n i b Hn Hb.
    destruct (mapM_lookup _ _ _ _ _ Htmp Hn) as (t & Ht & Hf).
    unfold mask in Hb. rewrite list_lookup_fmap, Ht in Hb. simplify_eq/=.
    assert (i ∈ loaded_ants) as Hi by (apply list_elem_of_lookup; eauto).
    pose proof (idx_in_range_lookup _ _ _ Hrange Hi) as Hlt.
    destruct (lookup_lt_is_Some_2 self i Hlt) as [a Ha].
    assert (self1 !! i = Some (dec a)) as H1.
    { unfold self1. by rewrite lookup_on_idx, Ha; simpl; rewrite bool_decide_true. }
    rewrite H1 in Hf. simpl in Hf. rewrite Ha. simpl.
    unfold steps_onto. unfold position, dec in Hf. simpl in Hf.
    destruct (np_get _ _) as [p|]; simplify_eq/=.
    rewrite pos_eq_dec_split. split.
    - intros Hp%bool_decide_eq_true. subst. by rewrite bool_decide_true.
    - intros [=Hp%bool_decide_eq_true]. simplify_eq. by apply bool_decide_eq_true. }
  pose proof (length_nonzero_filter _ _ _ Hmask) as Hlen.
  unfold arrivals. rewrite <- Hlen.
  destruct (existsb _ tmp) eqn:Hany.
  - case_bool_decide as Hpos; simplify_eq; [done|].
    destruct (nonzero mask); simpl in *; lia.
  - simplify_eq.
    assert (nonzero mask = []) as ->; [|simpl; lia].
    apply nonzero_nil_iff. intros n Hn. unfold mask in Hn.
    rewrite list_lookup_fmap in Hn. destruct (tmp !! n) as [t|] eqn:Ht; simplify_eq/=.
    pose proof (existsb_false_lookup _ _ _ _ Hany Ht) as Hf. simpl in Hf.
    destruct t as [[] []]; simpl in *; done.
Qed.

(** [return_to_nest] adds to [food_counter] the number of entries of
    [loaded_ants] whose ant steps onto the nest, so the count it returns is
    never below the one it was given; it takes every ant of [loaded_ants]
    one step back along its recorded path, unloads at age 0 those that step
    onto the nest, and leaves every other ant, and every history, as they
    were. *)
Theorem return_to_nest_counts_arrivals self loaded_ants pos_nest food_counter self' fc' :
  return_to_nest self loaded_ants pos_nest food_counter = Some (self', fc') →
  fc' = food_counter + arrivals self loaded_ants pos_nest ∧
  food_counter ≤ fc' ≤ food_counter + Z.of_nat (length loaded_ants) ∧
  length self' = length self ∧
  ∀ i a, self !! i = Some a →
    ∃ a', self' !! i = Some a' ∧
      a' = if bool_decide (i ∈ loaded_ants) then
             if steps_onto pos_nest a
             then mkAnt (seeds a) UNLOADED (max_life a) 0 (historic_path a) (directions a)
             else with_age (int64 (age a - 1)) a
           else a.
Proof.
  intros Hr. pose proof (return_to_nest_count _ _ _ _ _ _ Hr) as Hc.
  destruct (return_to_nest_spec _ _ _ _ _ _ Hr) as [Hlen Hants].
  split; [done|]. split.
  { rewrite Hc. unfold arrivals.
    pose proof (length_filter (λ i, steps_onto pos_nest <$> self !! i = Some true)
                              loaded_ants). lia. }
  split; [done|]. intros i a Ha. destruct (Hants i a Ha) as (a' & Ha' & Hb).
  exists a'. split; [done|]. case_bool_decide; [|done].
  apply back_ant_steps_onto in Hb. rewrite Hb. by destruct (steps_onto pos_nest a).
Qed.

(** ** The count that [advance] returns *)

Lemma filter_ext_elem {A} (P Q : A → Prop) `{!∀ x, Decision (P x), !∀ x, Decision (Q x)}
    (l : list A) :
  (∀ x, x ∈ l → (P x ↔ Q x)) → filter P l = filter Q l.
Proof.
  induction l as [|x l IH]; intros Hl; [done|].
  rewrite !filter_cons. rewrite IH by (intros y Hy; apply Hl; by right).
  destruct (decide (P x)) as [Hp|Hp], (decide (Q x)) as [Hq|Hq]; try done;
    exfalso; apply (Hl x) in Hp || apply (Hl x) in Hq; try done; by left.
Qed.

Lemma length_filter_nonzero_from {A} (L g : A → bool) (l : list A) : ∀ k,
  length (filter (λ i, g <$> l !! (i - k)%nat = Some true) (nonzero_from k (map L l)))
  = length (List.filter (λ a, L a && g a) l).
Proof.
  induction l as [|a l IH]; intros k; [done|].
  assert (filter (λ i, g <$> (a :: l) !! (i - k)%nat = Some true)
                 (nonzero_from (S k) (map L l))
          = filter (λ i, g <$> l !! (i - S k)%nat = Some true)
                   (nonzero_from (S k) (map L l))) as Htail.
  { apply filter_ext_elem. intros i [Hi _]%elem_of_nonzero_from.
    by replace (i - k)%nat with (S (i - S k)) by lia. }
  simpl. destruct (L a); simpl.
  - destruct (g a) eqn:Hg; simpl.
    + rewrite filter_cons_True by (by rewrite Nat.sub_diag; simpl; rewrite Hg).
      simpl. by rewrite Htail, IH.
    + rewrite filter_cons_False by (by rewrite Nat.sub_diag; simpl; rewrite Hg).
      by rewrite Htail, IH.
  - by rewrite Htail, IH.
Qed.

Lemma delivered_count (Q : Ant → bool) (self self' : Colony) :
  Forall2 (λ a a', is_loaded a && negb (is_loaded a') = is_loaded a && Q a) self self' →
  delivered self self'
  = Z.of_nat (length (filter (λ i, Q <$> self !! i = Some true)
                             (nonzero (map is_loaded self)))).
Proof.
  intros HF. unfold delivered, nonzero. f_equal.
  transitivity (length (List.filter (λ a, is_loaded a && Q a) self)).
  - induction HF as [|a a' l l' Haa _ IH]; [done|].
    simpl. rewrite Haa. destruct (is_loaded a && Q a); simpl; by rewrite IH.
  - rewrite <- (length_filter_nonzero_from is_loaded Q self 0).
    f_equal. apply filter_ext_elem. intros i _. by rewrite Nat.sub_0_r.
Qed.

Section counter.
Context `{direction, maze_bits, pheromone_rule}.

Lemma explored_ant_is_loaded the_maze pheromon pos_food pos_nest a a' :
  explored_ant false the_maze pheromon pos_food pos_nest a a' →
  is_loaded a' = is_loaded a.
Proof.
  intros (k & s & am & _ & (_ & Hl & _) & Hst).
  unfold settle_ant in Hst.
  destruct (kill_step pos_nest am) as [ak|] eqn:Hk; simplify_eq/=.
  apply kill_step_frame in Hk as (_ & -> & _). done.
Qed.

Lemma mem_nonzero_is_loaded (self : Colony) :
  existsb is_loaded self = bool_decide (0 < length (nonzero (map is_loaded self)))%nat.
Proof.
  destruct (existsb is_loaded self) eqn:Hex; symmetry.
  - apply bool_decide_eq_true. apply existsb_exists in Hex as (a & Ha & Hl).
    apply list_elem_of_In, list_elem_of_lookup in Ha as (i & Hi).
    assert (i ∈ nonzero (map is_loaded self)) as Hin.
    { apply elem_of_nonzero. by rewrite list_lookup_fmap, Hi; simpl; rewrite Hl. }
    destruct (nonzero _); [by apply elem_of_nil in Hin|simpl; lia].
  - apply bool_decide_eq_false. intros Hlen.
    destruct (nonzero (map is_loaded self)) as [|i l] eqn:Hnz; [simpl in Hlen; lia|].
    assert (i ∈ nonzero (map is_loaded self)) as Hin by (rewrite Hnz; left).
    apply elem_of_nonzero in Hin. rewrite list_lookup_fmap in Hin.
    destruct (self !! i) as [a|] eqn:Hi; simplify_eq/=.
    assert (existsb is_loaded self = true); [|congruence].
    apply existsb_exists. exists a. split; [|done].
    apply list_elem_of_In, list_elem_of_lookup. eauto.
Qed.

(** What [advance] returns is the number of ants that unloaded during this
    tick, not a running total. When some ant is loaded on entry, the
    [food_counter] returned is the number of ants that were loaded before
    the call and are not after it, whatever count was passed in, and
    [new_food] is that number minus the count passed in; when no ant is
    loaded, the count passed in is returned and [new_food] is 0. The ants
    that unload are the loaded ants that step onto the nest. *)
Theorem advance_returns_the_deliveries fuel self the_maze pos_food pos_nest pheromon
    others food_counter r :
  advance fuel self the_maze pos_food pos_nest pheromon others food_counter = Some r →
  delivered self (tick_colony r)
  = arrivals self (nonzero (map is_loaded self)) pos_nest ∧
  if existsb is_loaded self
  then tick_food_counter r = delivered self (tick_colony r) ∧
       tick_new_food r = delivered self (tick_colony r) - food_counter
  else tick_food_counter r = food_counter ∧ tick_new_food r = 0 ∧
       delivered self (tick_colony r) = 0.
Proof.
  intros Ha. destruct (advance_spec _ _ _ _ _ _ _ _ _ Ha) as [Hlen Hspec].
  assert (delivered self (tick_colony r)
          = arrivals self (nonzero (map is_loaded self)) pos_nest) as Hd.
  { apply (delivered_count (steps_onto pos_nest)).
    apply Forall2_same_length_lookup_2; [done|]. intros i a a' Hi Hi'.
    destruct (Hspec i a Hi) as (a'' & Ha'' & Hc). simplify_eq.
    destruct (is_loaded a) eqn:Hl; [|done]. simpl.
    destruct Hc as (ab & Hab & Hc).
    assert (is_loaded a' = is_loaded ab) as ->.
    { destruct Hc as [->|Hc]; [done|]. by apply explored_ant_is_loaded in Hc. }
    apply back_ant_steps_onto in Hab. rewrite Hab.
    destruct (steps_onto pos_nest a); simpl; by rewrite ?Hl. }
  split; [done|]. rewrite mem_nonzero_is_loaded.
  rewrite advance_unfold in Ha. cbv zeta in Ha.
  set (loaded_ants := nonzero (map is_loaded self)) in *.
  destruct (bool_decide (0 < length loaded_ants)%nat) eqn:Hne.
  - destruct (return_to_nest self loaded_ants pos_nest 0) as [[selfb fcb]|] eqn:Hr;
      simpl in Ha; [|done].
    apply return_to_nest_count in Hr.
    destruct (if bool_decide _ then _ else _) as [selfe|]; simpl in Ha; [|done].
    destruct (mapM (deposit_of the_maze) selfe); simpl in Ha; [|done].
    destruct (mark_all _ _ _); simpl in Ha; [|done].
    destruct (Allreduce_MAX _ _); simplify_eq/=. rewrite Hd. lia.
  - simpl in Ha.
    destruct (if bool_decide _ then _ else _) as [selfe|]; simpl in Ha; [|done].
    destruct (mapM (deposit_of the_maze) selfe); simpl in Ha; [|done].
    destruct (mark_all _ _ _); simpl in Ha; [|done].
    destruct (Allreduce_MAX _ _); simplify_eq/=.
    split; [done|]. split; [done|]. rewrite Hd. unfold arrivals.
    apply bool_decide_eq_false in Hne.
    destruct loaded_ants; [done|simpl in Hne; lia].
Qed.

End counter.

(** ** The merge of lines 219-223 *)

Lemma qmax_le_l a b : (a <= qmax a b)%Q.
Proof.
  unfold qmax. destruct (Qle_bool a b) eqn:Hle; [by apply Qle_bool_iff|apply Qle_refl].
Qed.

Lemma qmax_le_r a b : (b <= qmax a b)%Q.
Proof.
  unfold qmax. destruct (Qle_bool a b) eqn:Hle; [apply Qle_refl|].
  destruct (Qlt_le_dec b a) as [Hlt|Hle']; [by apply Qlt_le_weak|].
  apply Qle_bool_iff in Hle'. congruence.
Qed.

Lemma maximum_is_Some a b : is_Some (maximum a b) ↔ length b = length a.
Proof.
  unfold maximum. case_bool_decide; split; intros Hs; try done; try congruence;
    by destruct Hs.
Qed.

(** The collective returns to every worker, for each cell, the largest
    of the values that the workers hold in that cell: the value of one of
    them, which none of the others exceeds. It succeeds exactly when all
    the buffers have the length of the worker's own. *)
Theorem Allreduce_MAX_is_the_largest buf others :
  (is_Some (Allreduce_MAX buf others) ↔ Forall (λ o, length o = length buf) others) ∧
  ∀ merged, Allreduce_MAX buf others = Some merged →
    length merged = length buf ∧
    ∀ k m, merged !! k = Some m →
      (∃ src, src ∈ buf :: others ∧ src !! k = Some m) ∧
      (∀ src x, src ∈ buf :: others → src !! k = Some x → (x <= m)%Q).
Proof.
  revert buf. induction others as [|o others IH]; intros buf; simpl.
  - split; [by split; [constructor|eauto]|]. intros merged [= <-]. split; [done|].
    intros k m Hm. split.
    + exists buf. split; [left|done].
    + intros src x ->%list_elem_of_singleton Hx. simplify_eq. apply Qle_refl.
  - destruct (maximum buf o) as [b|] eqn:Hb; simpl.
    + pose proof (maximum_length _ _ _ Hb) as Hlb.
      assert (length o = length buf) as Hlo.
      { apply maximum_is_Some. by rewrite Hb. }
      destruct (IH b) as [Hsome Hval]. split.
      * rewrite Hlb in Hsome. rewrite list.Forall_cons. tauto.
      * intros merged Hm. destruct (Hval merged Hm) as [Hlen Hcells].
        split; [congruence|]. intros k m Hk.
        destruct (Hcells k m Hk) as [(src & Hsrc & Hsk) Hub].
        assert (∃ x y, buf !! k = Some x ∧ o !! k = Some y ∧ b !! k = Some (qmax x y))
          as (x & y & Hx & Hy & Hbk).
        { apply lookup_lt_Some in Hk.
          destruct (lookup_lt_is_Some_2 buf k) as [x Hx]; [lia|].
          destruct (lookup_lt_is_Some_2 o k) as [y Hy]; [lia|].
          exists x, y. rewrite (maximum_lookup _ _ _ k Hb), Hx, Hy. done. }
        assert (qmax x y <= m)%Q as Hxy by (apply (Hub b); [left|done]).
        split.
        -- apply elem_of_cons in Hsrc as [->|Hsrc].
           ++ rewrite Hbk in Hsk. simplify_eq.
              destruct (qmax_either x y) as [->| ->].
              ** exists buf. split; [left|done].
              ** exists o. split; [right; left|done].
           ++ exists src. split; [by do 2 right|done].
        -- intros src' z Hsrc' Hz.
           apply elem_of_cons in Hsrc' as [->|Hsrc'];
             [|apply elem_of_cons in Hsrc' as [->|Hsrc']].
           ++ simplify_eq. eapply Qle_trans; [apply qmax_le_l|done].
           ++ simplify_eq. eapply Qle_trans; [apply qmax_le_r|done].
           ++ apply (Hub src'); [by right|done].
    + split; [|done]. split; [by intros []|].
      intros [Hlo _]%list.Forall_cons. exfalso.
      assert (is_Some (maximum buf o)) as [? ?] by (by apply maximum_is_Some).
      congruence.
Qed.

Lemma Allreduce_MAX_is_the_largest_witness :
  length [(1 # 2); (3 # 4)]%Q = length [(1 # 2); (1 # 4)]%Q ∧
  ∀ k m, [(1 # 2); (3 # 4)]%Q !! k = Some m →
    (∃ src, src ∈ [[(1 # 2); (1 # 4)]; [(1 # 2); (3 # 4)]]%Q ∧ src !! k = Some m) ∧
    (∀ src x, src ∈ [[(1 # 2); (1 # 4)]; [(1 # 2); (3 # 4)]]%Q →
              src !! k = Some x → (x <= m)%Q).
Proof.
  apply (proj2 (Allreduce_MAX_is_the_largest [(1 # 2); (1 # 4)]%Q [[(1 # 2); (3 # 4)]%Q])).
  reflexivity.
Defined.

Lemma reshape_concat {A} (m : list (list A)) cols :
  Forall (λ row, length row = cols) m → reshape (length m) cols (concat m) = m.
Proof.
  induction 1 as [|row m Hrow _ IH]; [done|]. simpl.
  rewrite take_app_length' by done. rewrite drop_app_length' by done. by rewrite IH.
Qed.

(** Lines 221-223, flatten then reshape, give back the array they started
    from: a rectangular array flattened and cut again into as many rows of
    the length of its first row is the array itself. *)
Theorem reshape_flatten_round_trip {A} (old_pheromone : list (list A)) cols :
  Forall (λ row, length row = cols) old_pheromone →
  reshape (length old_pheromone) (default 0%nat (length <$> head old_pheromone))
          (concat old_pheromone) = old_pheromone.
Proof.
  intros Hrect. destruct old_pheromone as [|row m]; [done|].
  apply (reshape_concat (row :: m)). simpl.
  apply list.Forall_cons in Hrect as [Hrow Hm]. rewrite Hrow.
  by apply Forall_cons_2.
Qed.

Lemma reshape_flatten_round_trip_witness :
  reshape (length [[1; 2; 3]; [4; 5; 6]])
          (default 0%nat (length <$> head [[1; 2; 3]; [4; 5; 6]]))
          (concat [[1; 2; 3]; [4; 5; 6]]) = [[1; 2; 3]; [4; 5; 6]].
Proof.
  apply (reshape_flatten_round_trip [[1; 2; 3]; [4; 5; 6]] 3). by repeat constructor.
Defined.

(** ** The ants of each worker *)

Lemma foldr_add_app (l1 l2 : list Z) :
  foldr Z.add 0 (l1 ++ l2) = foldr Z.add 0 l1 + foldr Z.add 0 l2.
Proof. induction l1 as [|x l1 IH]; simpl; lia. Qed.

Lemma mapM_total {A B} (f : A → option B) (g : A → B) (l : list A) :
  (∀ x, f x = Some (g x)) → mapM f l = Some (map g l).
Proof.
  intros Hf. induction l as [|x l IH]; [done|].
  simpl. rewrite Hf. simpl. by rewrite IH.
Qed.

Lemma sum_of_shares (q m : Z) (n : nat) :
  foldr Z.add 0 (map (λ rank : nat, q + (if bool_decide (Z.of_nat rank < m) then 1 else 0))
                     (seq 0 n))
  = Z.of_nat n * q + Z.min (Z.of_nat n) (Z.max 0 m).
Proof.
  induction n as [|n IH]; [simpl; lia|].
  rewrite seq_S, map_app, foldr_add_app, IH. simpl. case_bool_decide; lia.
Qed.

(** The workers of a communicator share the ants of the maze without loss:
    their numbers of ants add up to a quarter of the number of cells,
    rounded down, and two workers differ by one ant at most. *)
Theorem nb_ants_share_the_colony size_laby size :
  0 < size →
  all_ants size_laby size = Some ((size_laby.1 * size_laby.2) / 4) ∧
  ∀ rank rank' n n', 0 ≤ rank < size → 0 ≤ rank' < size →
    nb_ants size_laby size rank = Some n → nb_ants size_laby size rank' = Some n' →
    -1 ≤ n - n' ≤ 1.
Proof.
  intros Hs. split.
  - unfold all_ants.
    rewrite (mapM_total _ (λ rank : nat,
               (size_laby.1 * size_laby.2) / 4 / size
               + (if bool_decide (Z.of_nat rank < ((size_laby.1 * size_laby.2) / 4) mod size)
                  then 1 else 0))).
    + simpl. rewrite sum_of_shares. f_equal.
      pose proof (Z.mod_pos_bound ((size_laby.1 * size_laby.2) / 4) size Hs).
      rewrite Z2Nat.id by lia.
      pose proof (Z.div_mod ((size_laby.1 * size_laby.2) / 4) size). lia.
    + intros rank. unfold nb_ants. by rewrite bool_decide_false by lia.
  - intros rank rank' n n' _ _. unfold nb_ants.
    rewrite bool_decide_false by lia. intros [= <-] [= <-].
    repeat case_bool_decide; lia.
Qed.

Lemma nb_ants_share_the_colony_witness :
  all_ants (25, 25) 3 = Some ((25 * 25) / 4) ∧
  ∀ rank rank' n n', 0 ≤ rank < 3 → 0 ≤ rank' < 3 →
    nb_ants (25, 25) 3 rank = Some n → nb_ants (25, 25) 3 rank' = Some n' →
    -1 ≤ n - n' ≤ 1.
Proof. apply (nb_ants_share_the_colony (25, 25) 3). lia. Defined.

(** ** Which branch an ant takes *)

Lemma choices_positive a : 1 ≤ seeds a → Qle_bool (choices a) exploration_coefs = false.
Proof.
  intros Hs. destruct (Qle_bool _ _) eqn:Hle; [|done].
  apply Qle_bool_iff in Hle. unfold choices, exploration_coefs, Qle in Hle.
  simpl in Hle. lia.
Qed.

Section branch.
Context `{direction, maze_bits}.

(** [exploration_coefs] is 0 and [choices] is positive for a seed that is
    not 0, so no ant explores by choice: with a scent field without
    negative values, an unloaded ant takes the random-exploration branch
    exactly when no open side of its cell leads to a cell that carries
    scent, and the scent-following branch otherwise. *)
Theorem scent_decides_the_branch self unl the_maze pheromon sensed i s :
  field_nonneg pheromon →
  mapM (sense the_maze pheromon) (reseed unl self) = Some sensed →
  (∀ j a, j ∈ unl → self !! j = Some a → 1 ≤ seeds a < 2147483647) →
  i ∈ unl → sensed !! i = Some s →
  (i ∈ ind_exploring_ants (reseed unl self) sensed unl ↔ (max_pheromones s == 0)%Q) ∧
  (i ∈ ind_following_ants (map choices (reseed unl self)) sensed unl
   ↔ ¬ (max_pheromones s == 0)%Q).
Proof.
  intros Hf Hsensed Hseeds Hi Hs.
  destruct (mapM_lookup_r _ _ _ _ _ Hsensed Hs) as (a1 & Ha1 & Hsa).
  pose proof (sense_nonneg _ _ _ _ Hf Hsa) as Hmax.
  pose proof Ha1 as Ha. rewrite lookup_reseed in Ha.
  destruct (self !! i) as [a|] eqn:Hai; simplify_eq/=.
  rewrite bool_decide_true in Ha1, Hsa by done.
  assert (Qle_bool (choices (with_seeds (lcg (seeds a)) a)) exploration_coefs = false)
    as Hch.
  { apply choices_positive. simpl. pose proof (lcg_nonzero (seeds a)).
    specialize (Hseeds i a Hi Hai). lia. }
  split.
  - rewrite elem_of_ind_exploring_ants. split.
    + intros (_ & a' & s' & Ha' & Hs' & Hex).
      assert (s' = s) as -> by congruence.
      assert (a' = with_seeds (lcg (seeds a)) a) as -> by congruence.
      unfold is_exploring in Hex. rewrite Hch in Hex. simpl in Hex.
      by apply Qeq_bool_iff.
    + intros Hz. split; [done|]. eexists _, s. split; [done|]. split; [done|].
      unfold is_exploring. rewrite Hch. simpl. by apply Qeq_bool_iff.
  - rewrite elem_of_ind_following_ants. split.
    + intros (_ & c & s' & Hc & Hs' & Hfol) Hz.
      assert (s' = s) as -> by congruence.
      unfold is_following in Hfol. apply andb_prop in Hfol as [_ Hfol].
      apply negb_true_iff in Hfol.
      assert (Qle_bool (max_pheromones s) 0 = true); [|congruence].
      apply Qle_bool_iff. rewrite Hz. apply Qle_refl.
    + intros Hnz. split; [done|]. eexists _, s.
      split; [by rewrite list_lookup_fmap, Ha1|]. split; [done|].
      unfold is_following. rewrite Hch. simpl. apply negb_true_iff.
      destruct (Qle_bool (max_pheromones s) 0) eqn:Hle; [|done].
      exfalso. apply Hnz. apply Qle_bool_iff in Hle. by apply Qle_antisym.
Qed.

End branch.

(** ** What a tick does to each kind of ant *)

Section kinds.
Context `{direction, maze_bits, pheromone_rule}.

Lemma settle_ant_loaded pos_food pos_nest am a' :
  settle_ant true pos_food pos_nest am = Some a' →
  ∃ p, position a' = Some p ∧
       is_loaded a' = bool_decide (p = pos_food) || is_loaded am.
Proof.
  unfold settle_ant. intros Hs.
  destruct (kill_step _ _) as [ak|] eqn:Hk; simpl in Hs; [|done].
  apply kill_step_frame in Hk as (_ & Hl & _). simpl in Hl.
  unfold load_step in Hs. destruct (position ak) as [p|] eqn:Hp; simplify_eq/=.
  exists p. rewrite pos_eq_dec_split.
  case_bool_decide; simpl; [|by rewrite Hp, Hl].
  split; [|done]. by unfold position in *.
Qed.

(** An ant that enters the tick without food leaves it carrying food
    exactly when it ends the tick on the food cell. *)
Theorem food_is_taken_on_the_food_cell fuel self the_maze pos_food pos_nest pheromon
    others food_counter r i a a' :
  advance fuel self the_maze pos_food pos_nest pheromon others food_counter = Some r →
  self !! i = Some a → is_loaded a = false → tick_colony r !! i = Some a' →
  (is_loaded a' = true ↔ position a' = Some pos_food).
Proof.
  intros Ha Hi Hl Hi'.
  destruct (advance_spec _ _ _ _ _ _ _ _ _ Ha) as [_ Hspec].
  destruct (Hspec i a Hi) as (a'' & Ha'' & Hc). simplify_eq. rewrite Hl in Hc.
  destruct Hc as (k & s & am & _ & (_ & Hlm & _) & Hst).
  apply settle_ant_loaded in Hst as (p & Hp & Hld).
  rewrite Hld, Hlm, Hl, orb_false_r, Hp. split.
  - by intros ->%bool_decide_eq_true.
  - intros [= ->]. by apply bool_decide_eq_true.
Qed.

Lemma explored_ant_aside the_maze pheromon pos_food pos_nest a a' :
  age a ≠ max_life a →
  explored_ant false the_maze pheromon pos_food pos_nest a a' →
  ∃ k : nat, a' = with_seeds (Nat.iter k lcg (seeds a)) a.
Proof.
  intros Hage (k & s & am & _ & (Hsd & Hl & Hm & Hg & Hh & Hd) & Hst).
  simpl in *. exists k. unfold settle_ant, kill_step in Hst.
  rewrite bool_decide_false in Hst by congruence. simplify_eq/=.
  destruct a, a'. simpl in *. by subst.
Qed.

(** [explore] leaves an ant outside [unloaded_ants] as it was, its seed
    apart, unless the age of that ant equals its [max_life]: line 182 tests
    every ant of the colony. *)
Theorem explore_leaves_the_others fuel self unl the_maze pos_food pos_nest pheromon
    self' i a :
  explore fuel self unl the_maze pos_food pos_nest pheromon = Some self' →
  i ∉ unl → self !! i = Some a → age a ≠ max_life a →
  ∃ k : nat, self' !! i = Some (with_seeds (Nat.iter k lcg (seeds a)) a).
Proof.
  intros He Hi Ha Hage.
  destruct (explore_explored_ant _ _ _ _ _ _ _ _ He) as [_ Hspec].
  destruct (Hspec i a Ha) as (a' & Ha' & Hex).
  rewrite bool_decide_false in Hex by done.
  destruct (explored_ant_aside _ _ _ _ _ _ Hage Hex) as [k ->]. eauto.
Qed.

Lemma loaded_ant_steps_back fuel self the_maze pos_food pos_nest pheromon others
    food_counter r i a :
  Forall (ant_ok pos_nest) self →
  advance fuel self the_maze pos_food pos_nest pheromon others food_counter = Some r →
  self !! i = Some a → is_loaded a = true →
  ∃ a' p,
    tick_colony r !! i = Some a' ∧
    historic_path a !! Z.to_nat (age a - 1) = Some p ∧ position a' = Some p ∧
    historic_path a' = historic_path a ∧ directions a' = directions a ∧
    max_life a' = max_life a ∧
    if bool_decide (p = pos_nest)
    then is_loaded a' = false ∧ age a' = 0
    else is_loaded a' = true ∧ age a' = age a - 1.
Proof.
  intros Hok Ha Hi Hl.
  pose proof (Forall_lookup_1 _ _ _ _ Hok Hi) as Hoka.
  destruct Hoka as (Hage & Hlen & H31 & Hnest & Hload). specialize (Hload Hl).
  destruct (advance_spec _ _ _ _ _ _ _ _ _ Ha) as [_ Hspec].
  destruct (Hspec i a Hi) as (a' & Ha' & Hc). rewrite Hl in Hc.
  destruct Hc as (ab & Hab & Hc).
  pose proof (back_ant_ok pos_nest a ab
                (conj Hage (conj Hlen (conj H31 (conj Hnest (λ _, Hload))))) Hl Hab)
    as Hokb.
  assert (∃ k : nat, a' = with_seeds (Nat.iter k lcg (seeds ab)) ab) as [k ->].
  { destruct Hc as [->|Hc].
    - exists 0%nat. by destruct ab.
    - apply explored_ant_aside in Hc; [done|]. destruct Hokb as (? & _). lia. }
  unfold back_ant, position in Hab. simpl in Hab.
  rewrite int64_small in Hab by lia. rewrite np_get_nonneg in Hab by lia.
  destruct (historic_path a !! Z.to_nat (age a - 1)) as [p|] eqn:Hp; [|done].
  simpl in Hab. injection Hab as <-.
  eexists _, p. split; [done|]. split; [done|].
  unfold position. case_bool_decide as Hpn; simpl.
  - subst p. rewrite np_get_nonneg by lia.
    change (Z.to_nat 0) with 0%nat. by rewrite Hnest.
  - rewrite np_get_nonneg by lia. by rewrite Hp, Hl.
Qed.

(** In a run with the food away from the nest, a loaded ant walks back
    along its recorded path: a tick takes it to the cell recorded one step
    earlier, leaving its history, its direction and its [max_life] as they
    were; if that cell is the nest it unloads and its age becomes 0,
    otherwise it stays loaded and its age goes down by one. *)
Theorem loaded_ants_walk_back fields fuel self the_maze pos_food pos_nest pheromon
    others food_counter r i a :
  pos_food ≠ pos_nest → pos_int16 pos_nest →
  reachable fields the_maze pos_food pos_nest self →
  advance fuel self the_maze pos_food pos_nest pheromon others food_counter = Some r →
  self !! i = Some a → is_loaded a = true →
  ∃ a' p,
    tick_colony r !! i = Some a' ∧
    historic_path a !! Z.to_nat (age a - 1) = Some p ∧ position a' = Some p ∧
    historic_path a' = historic_path a ∧ directions a' = directions a ∧
    max_life a' = max_life a ∧
    if bool_decide (p = pos_nest)
    then is_loaded a' = false ∧ age a' = 0
    else is_loaded a' = true ∧ age a' = age a - 1.
Proof.
  intros Hfn Hn Hr Ha Hi Hl.
  pose proof (reachable_ant_ok _ _ _ _ _ Hfn Hn Hr) as Hok.
  by apply (loaded_ant_steps_back fuel self the_maze pos_food pos_nest pheromon others
                                  food_counter).
Qed.

(** Line 182 comes before line 190: an ant without food whose age reaches
    its [max_life] in this tick is put back on the nest before the food is
    looked for, so it ends the tick on the nest at age 0 and without food,
    even if its last move took it onto the food. *)
Theorem last_tick_takes_no_food fields fuel self the_maze pos_food pos_nest pheromon
    others food_counter r i a :
  pos_food ≠ pos_nest → pos_int16 pos_nest →
  reachable fields the_maze pos_food pos_nest self →
  advance fuel self the_maze pos_food pos_nest pheromon others food_counter = Some r →
  self !! i = Some a → is_loaded a = false → age a + 1 = max_life a →
  ∃ a', tick_colony r !! i = Some a' ∧
        is_loaded a' = false ∧ age a' = 0 ∧ position a' = Some pos_nest.
Proof.
  intros Hfn Hn Hr Ha Hi Hl Hdie.
  pose proof (reachable_ant_ok _ _ _ _ _ Hfn Hn Hr) as Hok.
  pose proof (Forall_lookup_1 _ _ _ _ Hok Hi) as Hoka.
  destruct (advance_spec _ _ _ _ _ _ _ _ _ Ha) as [_ Hspec].
  destruct (Hspec i a Hi) as (a' & Ha' & Hc). rewrite Hl in Hc.
  destruct Hc as (k & s & am & _ & Hmv & Hst).
  destruct (moved_ant_ok _ _ _ _ _ _ Hoka Hmv) as [Hokm Hlm].
  destruct Hmv as (_ & _ & Hm & Hg & _).
  destruct (settle_ant_reset pos_food pos_nest am a' Hn Hokm) as (Hage' & Hpos' & _);
    [by rewrite Hm, Hg|done|].
  apply settle_ant_loaded in Hst as (p & Hp & Hld).
  exists a'. split; [done|]. split; [|done].
  rewrite Hld, Hlm, Hl, orb_false_r. apply bool_decide_eq_false. congruence.
Qed.

(** [advance] keeps the shape of the six arrays of the colony: the number
    of ants, the [max_life] of each and the room in each history. *)
Theorem advance_keeps_the_shape fuel self the_maze pos_food pos_nest pheromon others
    food_counter r :
  advance fuel self the_maze pos_food pos_nest pheromon others food_counter = Some r →
  length (tick_colony r) = length self ∧
  ∀ i a a', self !! i = Some a → tick_colony r !! i = Some a' →
    max_life a' = max_life a ∧ length (historic_path a') = length (historic_path a).
Proof.
  intros Ha. destruct (advance_spec _ _ _ _ _ _ _ _ _ Ha) as [Hlen Hspec].
  split; [done|]. intros i a a' Hi Hi'.
  destruct (Hspec i a Hi) as (a'' & Ha'' & Hc). simplify_eq.
  assert (∀ unl b b', explored_ant unl the_maze pheromon pos_food pos_nest b b' →
            max_life b' = max_life b ∧
            length (historic_path b') = length (historic_path b)) as Hex.
  { intros unl b b' (k & s & am & _ & Hmv & Hst).
    pose proof (moved_ant_length _ _ _ _ _ Hmv) as [_ Hlm].
    destruct Hmv as (_ & _ & Hm & _).
    unfold settle_ant in Hst.
    destruct (kill_step _ _) as [ak|] eqn:Hk; simpl in Hst; [|done].
    apply kill_step_frame in Hk as (_ & _ & Hmk & Hlk).
    assert (max_life b' = max_life ak ∧ historic_path b' = historic_path ak) as [-> ->].
    { destruct unl; [|by simplify_eq].
      by apply load_step_frame in Hst as (_ & ? & _ & ? & _). }
    destruct unl; simpl in *; split; congruence. }
  destruct (is_loaded a).
  - destruct Hc as (ab & Hab & Hc).
    assert (max_life ab = max_life a ∧ historic_path ab = historic_path a) as [Hm Hh].
    { apply back_ant_steps_onto in Hab. rewrite Hab. by destruct (steps_onto _ _). }
    destruct Hc as [->|Hc]; [by rewrite Hh|].
    apply Hex in Hc as [-> ->]. by rewrite Hh.
  - by apply Hex in Hc.
Qed.

End kinds.

(** ** The seeds of a run *)

Section seeds.
Context `{direction, maze_bits, pheromone_rule}.

Lemma explored_ant_seeds unl the_maze pheromon pos_food pos_nest a a' :
  explored_ant unl the_maze pheromon pos_food pos_nest a a' →
  ∃ n : nat, seeds a' = Nat.iter n lcg (seeds a).
Proof.
  intros (k & s & am & _ & (Hsd & _) & Hst).
  rewrite (settle_ant_seeds _ _ _ _ _ Hst), Hsd.
  destruct unl; [|by exists k]. exists (S k). simpl. by rewrite <- Nat.iter_succ_r.
Qed.

Lemma back_ant_seeds pos_nest a ab : back_ant pos_nest a = Some ab → seeds ab = seeds a.
Proof. intros ->%back_ant_steps_onto. by destruct (steps_onto _ _). Qed.

Lemma advance_seeds fuel self the_maze pos_food pos_nest pheromon others food_counter r
    i a a' :
  advance fuel self the_maze pos_food pos_nest pheromon others food_counter = Some r →
  self !! i = Some a → tick_colony r !! i = Some a' →
  ∃ n : nat, seeds a' = Nat.iter n lcg (seeds a).
Proof.
  intros Ha Hi Hi'. destruct (advance_spec _ _ _ _ _ _ _ _ _ Ha) as [_ Hspec].
  destruct (Hspec i a Hi) as (a'' & Ha'' & Hc). simplify_eq.
  destruct (is_loaded a).
  - destruct Hc as (ab & Hab%back_ant_seeds & [->|Hc]).
    + by exists 0%nat.
    + apply explored_ant_seeds in Hc as [n Hn]. exists n. congruence.
  - by apply explored_ant_seeds in Hc.
Qed.

Lemma reachable_seed_steps fields the_maze pos_food pos_nest self :
  reachable fields the_maze pos_food pos_nest self →
  ∀ i a, self !! i = Some a →
    ∃ n : nat, (1 ≤ n)%nat ∧ seeds a = Nat.iter n lcg (Z.of_nat i + 1).
Proof.
  induction 1 as [nb_ants max_life0 scaled Hm Hsc
                 |self fuel pheromon others fc r Hr IH Hf Ha]; intros i a Hi.
  - apply lookup_Colony_init in Hi as [_ ->]. exists 1%nat. by split.
  - destruct (advance_spec _ _ _ _ _ _ _ _ _ Ha) as [Hl _].
    destruct (lookup_lt_is_Some_2 self i) as [a0 Ha0].
    { rewrite <- Hl. by eapply lookup_lt_Some. }
    destruct (IH i a0) as (n & Hn & Hs); [done|].
    destruct (advance_seeds _ _ _ _ _ _ _ _ _ _ _ _ Ha Ha0 Hi) as [m Hm'].
    exists (m + n)%nat. split; [lia|]. by rewrite Nat.iter_add, <- Hs.
Qed.

Lemma reachable_seeds fields the_maze pos_food pos_nest self i a :
  reachable fields the_maze pos_food pos_nest self →
  Z.of_nat (length self) < 2147483647 → self !! i = Some a →
  1 ≤ seeds a < 2147483647.
Proof.
  intros Hr Hlen Hi.
  destruct (reachable_seed_steps _ _ _ _ _ Hr i a Hi) as (n & _ & ->).
  apply iter_lcg_nonzero. apply lookup_lt_Some in Hi. lia.
Qed.

(** In a run of a colony of fewer than [2^31 - 1] ants, the seed of ant
    [i] is at every tick the number [i + 1] moved one or more steps along
    the recurrence, and a number of [1, 2^31 - 2]: no seed of a run is ever
    0, the value that the recurrence cannot leave. *)
Theorem seeds_of_a_run fields the_maze pos_food pos_nest self i a :
  reachable fields the_maze pos_food pos_nest self →
  Z.of_nat (length self) < 2147483647 →
  self !! i = Some a →
  (∃ n : nat, (1 ≤ n)%nat ∧ seeds a = Nat.iter n lcg (Z.of_nat i + 1)) ∧
  1 ≤ seeds a < 2147483647.
Proof.
  intros Hr Hlen Hi. split.
  - by eapply reachable_seed_steps.
  - by eapply reachable_seeds.
Qed.

End seeds.

(** ** A tick of a run always completes *)

Lemma nonzero_in_range {A} (mask : list bool) (l : list A) :
  length mask = length l → idx_in_range (nonzero mask) l = true.
Proof.
  intros Hlen. unfold idx_in_range. apply forallb_forall.
  intros i Hi%list_elem_of_In%elem_of_nonzero%lookup_lt_Some.
  apply bool_decide_eq_true. lia.
Qed.

Lemma Allreduce_MAX_is_Some buf others :
  Forall (λ o, length o = length buf) others → is_Some (Allreduce_MAX buf others).
Proof.
  revert buf. induction others as [|o others IH]; intros buf Hl; simpl; [done|].
  apply list.Forall_cons in Hl as [Ho Hl].
  unfold maximum. rewrite bool_decide_true by done. simpl. apply IH.
  rewrite length_zip_with. replace (length buf `min` length o)%nat with (length buf) by lia.
  done.
Qed.

Lemma np_upd2_in_range {A} (m : list (list A)) rows cols r c f :
  Z.of_nat (length m) = rows → Forall (λ row, Z.of_nat (length row) = cols) m →
  0 ≤ r < rows → 0 ≤ c < cols →
  ∃ m', np_upd2 m r c f = Some m' ∧ Z.of_nat (length m') = rows ∧
        Forall (λ row, Z.of_nat (length row) = cols) m'.
Proof.
  intros Hrows Hcols Hr Hc. rewrite np_upd2_alter. unfold cell_of.
  rewrite np_index_nonneg by lia. simpl.
  destruct (lookup_lt_is_Some_2 m (Z.to_nat r)) as [row Hrow]; [lia|].
  rewrite Hrow. simpl.
  assert (Z.of_nat (length row) = cols) as Hlr by (by eapply Forall_lookup_1 in Hcols).
  rewrite np_index_nonneg by lia. simpl. eexists. split; [done|].
  split; [by rewrite length_alter|].
  apply Forall_alter; [done|]. intros row' _ Hrow'. by rewrite length_alter.
Qed.

Section fuel.
Context `{direction, maze_bits, pheromone_rule}.

Lemma retry_loop_more fuel k : ∀ rows rows',
  retry_loop fuel rows = Some rows' → retry_loop (fuel + k) rows = Some rows'.
Proof.
  induction fuel as [|fuel IH]; intros rows rows' Hl.
  - simpl in Hl. destruct (existsb pending rows) eqn:Hp; [done|].
    destruct k; simpl; by rewrite Hp.
  - simpl in *. destruct (existsb pending rows); [|done].
    destruct (mapM retry_step rows) as [rows1|]; simpl in *; [|done]. by apply IH.
Qed.

Lemma explore_moves_more fuel k self unl the_maze pheromon moved :
  explore_moves fuel self unl the_maze pheromon = Some moved →
  explore_moves (fuel + k) self unl the_maze pheromon = Some moved.
Proof.
  unfold explore_moves. destruct (negb _); [done|].
  destruct (mapM _ _) as [sensed|]; simpl; [|done].
  destruct (bool_decide (0 < length (ind_exploring_ants _ _ _))%nat); [|done].
  destruct (retry_loop fuel _) as [rows|] eqn:Hl; simpl; [|done].
  by rewrite (retry_loop_more _ k _ _ Hl).
Qed.

Lemma explore_more fuel k self unl the_maze pos_food pos_nest pheromon self' :
  explore fuel self unl the_maze pos_food pos_nest pheromon = Some self' →
  explore (fuel + k) self unl the_maze pos_food pos_nest pheromon = Some self'.
Proof.
  unfold explore.
  destruct (explore_moves fuel _ _ _ _) as [moved|] eqn:Hm; simpl; [|done].
  by rewrite (explore_moves_more _ k _ _ _ _ _ Hm).
Qed.

Lemma advance_more fuel k self the_maze pos_food pos_nest pheromon others food_counter r :
  advance fuel self the_maze pos_food pos_nest pheromon others food_counter = Some r →
  advance (fuel + k) self the_maze pos_food pos_nest pheromon others food_counter
  = Some r.
Proof.
  rewrite !advance_unfold. cbv zeta.
  destruct (if bool_decide _ then _ else _) as [[[selfb fcb] nf]|]; simpl; [|done].
  destruct (bool_decide (0 < length (nonzero (map (λ a, negb (is_loaded a)) self)))%nat);
    [|done].
  destruct (explore fuel _ _ _ _ _ _) as [selfe|] eqn:He; simpl; [|done].
  by rewrite (explore_more _ k _ _ _ _ _ _ _ He).
Qed.

End fuel.

Section total.
Context `{direction, maze_bits, pheromone_rule}.

Lemma mark_all_in_range h w deposits snapshot : ∀ live,
  field_shape live h w → Forall (λ d : pos * list bool, in_bounds h w d.1) deposits →
  is_Some (mark_all live deposits snapshot).
Proof.
  induction deposits as [|d deposits IH]; intros live [Hrows Hcols] Hd; simpl; [done|].
  apply list.Forall_cons in Hd as [[Hr Hc] Hd]. unfold mark.
  destruct (np_upd2_in_range live (h + 2) (w + 2) (d.1.1 + 1) (d.1.2 + 1)
              (λ v, (v + reinforcement snapshot d.1 d.2)%Q))
    as (live' & -> & Hrows' & Hcols'); [done|done|lia|lia|].
  simpl. by apply IH.
Qed.

Lemma walk_position the_maze h w pos_nest a :
  ant_ok pos_nest a → path_ok the_maze h w a →
  ∃ p, historic_path a !! Z.to_nat (age a) = Some p ∧ position a = Some p ∧
       in_bounds h w p.
Proof.
  intros (Hage & Hlen & _) [Hb _].
  destruct (lookup_lt_is_Some_2 (historic_path a) (Z.to_nat (age a))) as [p Hp]; [lia|].
  exists p. split; [done|]. split; [|by apply (Hb (Z.to_nat (age a)))].
  unfold position. by rewrite np_get_nonneg by lia.
Qed.

Lemma walk_in_range the_maze h w pos_nest a :
  ant_ok pos_nest a → path_ok the_maze h w a → ant_in_range h w a.
Proof.
  intros Hok Hpath. destruct (walk_position _ _ _ _ _ Hok Hpath) as (p & Hp & _ & Hpb).
  destruct Hok as (Hage & Hlen & H31 & _).
  split; [lia|]. split; [lia|]. split; [lia|]. eauto.
Qed.

Lemma deposit_of_in_range the_maze h w pos_nest a :
  maze_ok the_maze h w → ant_ok pos_nest a → path_ok the_maze h w a →
  ∃ d, deposit_of the_maze a = Some d ∧ in_bounds h w d.1.
Proof.
  intros (Hh & Hw & _) Hok Hpath.
  destruct (walk_position _ _ _ _ _ Hok Hpath) as (p & _ & Hp & Hpb).
  unfold deposit_of. rewrite Hp. simpl.
  destruct (np_get2_is_Some the_maze h w p.1 p.2) as [cell ->]; [done|done|apply Hpb..|].
  simpl. eauto.
Qed.

Lemma return_to_nest_in_range self loaded_ants pos_nest food_counter :
  idx_in_range loaded_ants self = true →
  (∀ i a, i ∈ loaded_ants → self !! i = Some a →
          0 ≤ age a - 1 < Z.of_nat (length (historic_path a)) ∧
          age a < 9223372036854775808) →
  is_Some (return_to_nest self loaded_ants pos_nest food_counter).
Proof.
  intros Hrange Hages. unfold return_to_nest. rewrite Hrange. simpl.
  match goal with
  | |- is_Some (mapM ?f _ ≫= _) => destruct (mapM_is_Some_2 f loaded_ants) as [tmp ->]
  end.
  { apply Forall_lookup. intros n i Hn. simpl.
    assert (i ∈ loaded_ants) as Hi by (apply list_elem_of_lookup; eauto).
    pose proof (idx_in_range_lookup _ _ _ Hrange Hi) as Hlt.
    destruct (lookup_lt_is_Some_2 self i Hlt) as [a Ha].
    rewrite lookup_on_idx, Ha. simpl. rewrite bool_decide_true by done. simpl.
    destruct (Hages i a Hi Ha) as [Hage H64]. unfold position. simpl.
    rewrite int64_small by lia.
    destruct (np_get_is_Some (historic_path a) (age a - 1) Hage) as [p ->]. done. }
  simpl. destruct (existsb _ tmp); [|done]. by case_bool_decide.
Qed.

Lemma explore_returns the_maze h w pheromon self unl pos_food pos_nest :
  directions_ok → maze_ok the_maze h w → every_cell_has_an_exit the_maze h w →
  field_shape pheromon h w → idx_in_range unl self = true →
  Forall (ant_in_range h w) self →
  (∀ i a, i ∈ unl → self !! i = Some a → 1 ≤ seeds a < 2147483647) →
  ∃ fuel self', explore fuel self unl the_maze pos_food pos_nest pheromon = Some self'.
Proof.
  intros Hdir Hmz Hexit Hshape Hrange Hants Hseeds.
  pose proof Hmz as (_ & _ & Hh & Hw & _).
  set (self1 := reseed unl self).
  assert (∀ i a1, self1 !! i = Some a1 →
            ∃ a, self !! i = Some a ∧
                 a1 = if bool_decide (i ∈ unl) then with_seeds (lcg (seeds a)) a else a)
    as Hself1.
  { intros i a1 Hi. unfold self1 in Hi. rewrite lookup_reseed in Hi.
    destruct (self !! i) as [a|]; simplify_eq/=. eauto. }
  assert (Forall (ant_in_range h w) self1) as Hants1.
  { apply Forall_lookup. intros i a1 Hi. destruct (Hself1 i a1 Hi) as (a & Ha & ->).
    pose proof (Forall_lookup_1 _ _ _ _ Hants Ha). by case_bool_decide. }
  destruct (mapM_is_Some_2 (sense the_maze pheromon) self1) as [sensed Hsensed].
  { apply Forall_lookup. intros i a1 Hi. simpl.
    eapply sense_is_Some; [done|done|]. by eapply Forall_lookup_1. }
  set (expl := ind_exploring_ants self1 sensed unl).
  assert (∃ n, Forall (settles_within n) (loop_rows self1 sensed expl)) as [n Hn].
  { apply Forall_settles. intros r (i & Hr)%list_elem_of_lookup.
    unfold loop_rows in Hr. rewrite list_lookup_imap, lookup_zip_with in Hr.
    destruct (self1 !! i) as [a1|] eqn:Ha1; simpl in Hr; [|done].
    destruct (sensed !! i) as [s|] eqn:Hs; simpl in Hr; [|done].
    injection Hr as <-.
    destruct (decide (i ∈ expl)) as [Hi|Hi].
    2:{ exists 0%nat. apply settles_within_idle. unfold pending. simpl.
        by rewrite bool_decide_false. }
    rewrite bool_decide_true by done.
    apply elem_of_ind_exploring_ants in Hi as (Hiu & _).
    destruct (Hself1 i a1 Ha1) as (a & Ha & Ha1eq).
    rewrite bool_decide_true in Ha1eq by done.
    destruct (Forall_lookup_1 _ _ _ _ Hants1 Ha1) as (Hage & Hlen & H64 & p & Hp & Hpb).
    destruct (mapM_lookup _ _ _ _ _ Hsensed Ha1) as (s' & Hs' & Hsense).
    assert (s' = s) as -> by congruence.
    assert (position a1 = Some p) as Hpos.
    { unfold position. rewrite np_get_nonneg by lia. done. }
    assert (1 ≤ nb_exits s) as Hnb.
    { destruct (sense_inv _ _ _ _ Hsense)
        as (p' & cell & ? & ? & ? & ? & Hp' & Hcell & _ & _ & _ & _ & ->).
      assert (p' = p) as -> by congruence. destruct Hpb as [Hr Hc].
      destruct (Hexit _ _ _ Hr Hc Hcell) as [?|[?|[?|?]]]; unfold nb_exits; simpl;
        repeat case_bool_decide; simpl; lia. }
    destruct (exists_valid_draw h w s (directions a1) p Hdir Hh Hw Hpb Hnb)
      as (dir & Hdir4 & Hvalid).
    destruct (lcg_draws (seeds a1) dir) as (t & Ht & Hdraw); [|done|].
    { subst a1. simpl. apply lcg_nonzero. by eapply Hseeds. }
    exists t. apply (row_settles t _ p); [done|done|done| |].
    - intros q. simpl. rewrite int64_small by lia. rewrite np_set_nonneg by lia. done.
    - simpl. by rewrite Hdraw. }
  destruct (retry_loop_settles n _ Hn) as [rows' Hrows'].
  assert (∃ self2,
            (if bool_decide (0 < length expl)%nat
             then rows ← retry_loop n (loop_rows self1 sensed expl); Some (map row_ant rows)
             else Some self1) = Some self2) as [self2 Hstage].
  { case_bool_decide; [rewrite Hrows'; simpl; eauto|eauto]. }
  assert (length sensed = length self1) as Hlens by (symmetry; by eapply length_mapM).
  destruct (loop_stage n self1 sensed expl self2) as (k & _ & _ & Hlen2 & Hrows);
    [done| |done|].
  { intros i [_ (a & s & Ha & _)]%elem_of_ind_exploring_ants.
    by apply lookup_lt_Some in Ha. }
  set (foll := ind_following_ants (map choices self1) sensed unl).
  assert (∃ moved, explore_moves n self unl the_maze pheromon = Some moved)
    as [moved Hmoved].
  { unfold explore_moves. rewrite Hrange. simpl. fold self1. rewrite Hsensed. simpl.
    fold expl. rewrite Hstage. simpl. fold foll.
    destruct (bool_decide (0 < length foll)%nat); [|eauto].
    apply on_idxM_is_Some. intros i a2 Ha2 Hi.
    apply elem_of_ind_following_ants in Hi as (Hiu & c & s & Hc & Hs & Hfol).
    rewrite Hs. simpl. rewrite list_lookup_fmap in Hc.
    destruct (self1 !! i) as [a1|] eqn:Ha1; [|done]. injection Hc as <-.
    destruct (Hrows i a1 s Ha1 Hs) as (a2' & Ha2' & _ & Hcase).
    assert (a2' = a2) as -> by congruence.
    assert (i ∉ expl) as Hni.
    { intros (_ & a1' & s' & ? & ? & Hex)%elem_of_ind_exploring_ants.
      assert (a1' = a1) as -> by congruence. assert (s' = s) as -> by congruence.
      apply is_exploring_not_following in Hex. congruence. }
    rewrite bool_decide_false in Hcase by done. subst a2.
    destruct (Forall_lookup_1 _ _ _ _ Hants1 Ha1) as (Hage & Hlen & H64 & p & Hp & Hpb).
    rewrite follow_step_with_seeds, (follow_step_target s a1 p) by (done || lia).
    done. }
  destruct (explore_moves_spec _ _ _ _ _ _ Hmoved)
    as (k' & sensed' & Hs' & _ & _ & Hlenm & Hspec).
  assert (is_Some (explore n self unl the_maze pos_food pos_nest pheromon))
    as [self' Hexplore]; [|by exists n, self'].
  unfold explore. rewrite Hmoved. simpl. apply explore_rest_is_Some.
  apply Forall_lookup. intros i am Ham.
  destruct (lookup_lt_is_Some_2 self i) as [a Ha].
  { rewrite <- Hlenm. by eapply lookup_lt_Some. }
  destruct (Hspec i a Ha) as (s & am' & _ & _ & Ham' & Hmv).
  assert (am' = am) as -> by congruence.
  destruct (moved_ant_length _ _ _ _ _ Hmv) as [-> ->].
  destruct (Forall_lookup_1 _ _ _ _ Hants Ha) as (? & ? & ? & _). done.
Qed.

Lemma advance_from_stages fuel self the_maze pos_food pos_nest pheromon others
    food_counter selfb fcb nf selfe deposits :
  (if bool_decide (0 < length (nonzero (map is_loaded self)))%nat then
     r ← return_to_nest self (nonzero (map is_loaded self)) pos_nest 0;
     Some (r.1, r.2, r.2 - food_counter)
   else Some (self, food_counter, 0)) = Some (selfb, fcb, nf) →
  (if bool_decide (0 < length (nonzero (map (λ a, negb (is_loaded a)) self)))%nat then
     explore fuel selfb (nonzero (map (λ a, negb (is_loaded a)) self)) the_maze
             pos_food pos_nest pheromon
   else Some selfb) = Some selfe →
  mapM (deposit_of the_maze) selfe = Some deposits →
  is_Some (mark_all pheromon deposits pheromon) →
  is_Some (Allreduce_MAX (concat pheromon) others) →
  ∃ r, advance fuel self the_maze pos_food pos_nest pheromon others food_counter
       = Some r ∧ tick_colony r = selfe.
Proof.
  intros H1' H2' H3' [live H4'] [merged H5']. rewrite advance_unfold. cbv zeta.
  rewrite H1'. simpl. rewrite H2'. simpl. rewrite H3'. simpl. rewrite H4'. simpl.
  rewrite H5'. simpl. eauto.
Qed.

(** In a run, on a maze every cell of which has an open side, a tick
    raises no IndexError and its retry loop ends: [advance] returns, and
    returns the same result, for every bound on the number of passes from
    some bound on. *)
Theorem advance_completes the_maze h w pos_food pos_nest self pheromon others
    food_counter :
  directions_ok → maze_ok the_maze h w → every_cell_has_an_exit the_maze h w →
  pos_food ≠ pos_nest → in_bounds h w pos_nest →
  reachable field_nonneg the_maze pos_food pos_nest self →
  Z.of_nat (length self) < 2147483647 →
  field_nonneg pheromon → field_shape pheromon h w →
  Forall (λ o, length o = length (concat pheromon)) others →
  ∃ fuel r, ∀ fuel', (fuel ≤ fuel')%nat →
    advance fuel' self the_maze pos_food pos_nest pheromon others food_counter = Some r.
Proof.
  intros Hdir Hmz Hexit Hfn Hnb Hr Hlen Hf Hshape Hothers.
  pose proof (in_bounds_int16 _ _ _ _ Hmz Hnb) as Hn.
  pose proof (reachable_walk_ok _ _ _ _ _ _ Hmz Hfn Hn Hnb Hr) as Hinv.
  set (loaded_ants := nonzero (map is_loaded self)).
  set (unloaded_ants := nonzero (map (λ a, negb (is_loaded a)) self)).
  assert (∀ i a, self !! i = Some a →
            bool_decide (i ∈ loaded_ants) = is_loaded a ∧
            bool_decide (i ∈ unloaded_ants) = negb (is_loaded a)) as Hidx.
  { intros i a Hi. unfold loaded_ants, unloaded_ants.
    split; destruct (is_loaded a) eqn:Hl; simpl;
      (apply bool_decide_eq_true || apply bool_decide_eq_false);
      rewrite elem_of_nonzero, list_lookup_fmap, Hi; simpl; rewrite Hl; done. }
  (* 199-203 *)
  assert (∃ selfb fcb nf,
    (if bool_decide (0 < length loaded_ants)%nat then
       r ← return_to_nest self loaded_ants pos_nest 0;
       Some (r.1, r.2, r.2 - food_counter)
     else Some (self, food_counter, 0)) = Some (selfb, fcb, nf) ∧
    length selfb = length self ∧
    ∀ i a, self !! i = Some a →
      ∃ ab, selfb !! i = Some ab ∧
            if is_loaded a then back_ant pos_nest a = Some ab else ab = a)
    as (selfb & fcb & nf & Hst1 & Hlenb & Hb).
  { destruct (bool_decide (0 < length loaded_ants)%nat) eqn:Hne.
    - destruct (return_to_nest_in_range self loaded_ants pos_nest 0) as [[s1 f1] Hret].
      + apply nonzero_in_range. by rewrite length_fmap.
      + intros i a Hin Hi.
        destruct (Forall_lookup_1 _ _ _ _ Hinv Hi) as [(Hage & Hl & H31 & _ & Hload) _].
        assert (is_loaded a = true) as Hla.
        { destruct (Hidx i a Hi) as [<- _]. by apply bool_decide_eq_true. }
        specialize (Hload Hla). lia.
      + rewrite Hret. simpl. eexists _, _, _. split; [done|].
        destruct (return_to_nest_spec _ _ _ _ _ _ Hret) as [Hl Hspec].
        split; [done|]. intros i a Hi. destruct (Hspec i a Hi) as (a' & Ha' & Hc).
        exists a'. split; [done|]. by rewrite (proj1 (Hidx i a Hi)) in Hc.
    - eexists _, _, _. split; [done|]. split; [done|]. intros i a Hi.
      exists a. split; [done|]. destruct (is_loaded a) eqn:Hl; [|done]. exfalso.
      apply bool_decide_eq_false in Hne.
      pose proof (proj1 (Hidx i a Hi)) as Hin. rewrite Hl in Hin.
      apply bool_decide_eq_true in Hin.
      destruct loaded_ants; [by apply elem_of_nil in Hin|simpl in Hne; lia]. }
  assert (Forall (λ a, ant_ok pos_nest a ∧ path_ok the_maze h w a) selfb) as Hinvb.
  { apply Forall_lookup. intros i ab Hab.
    destruct (lookup_lt_is_Some_2 self i) as [a Hi].
    { rewrite <- Hlenb. by eapply lookup_lt_Some. }
    destruct (Forall_lookup_1 _ _ _ _ Hinv Hi) as [Hoka Hpa].
    destruct (Hb i a Hi) as (ab' & Hab' & Hc). simplify_eq.
    destruct (is_loaded a) eqn:Hl; [|by subst].
    split; [by eapply back_ant_ok|by eapply back_ant_path]. }
  (* 205-206 *)
  assert (∃ fuel selfe,
    (if bool_decide (0 < length unloaded_ants)%nat then
       explore fuel selfb unloaded_ants the_maze pos_food pos_nest pheromon
     else Some selfb) = Some selfe ∧
    Forall (λ a, ant_ok pos_nest a ∧ path_ok the_maze h w a) selfe)
    as (fuel & selfe & Hst2 & Hinve).
  { destruct (bool_decide (0 < length unloaded_ants)%nat) eqn:Hne;
      [|by exists 0%nat, selfb].
    destruct (explore_returns the_maze h w pheromon selfb unloaded_ants pos_food pos_nest)
      as (fuel & selfe & He); try done.
    - apply nonzero_in_range. by rewrite length_fmap.
    - apply Forall_lookup. intros i ab Hab.
      destruct (Forall_lookup_1 _ _ _ _ Hinvb Hab). by eapply walk_in_range.
    - intros i ab Hiu Hab.
      destruct (lookup_lt_is_Some_2 self i) as [a Hi].
      { rewrite <- Hlenb. by eapply lookup_lt_Some. }
      destruct (Hb i a Hi) as (ab' & Hab' & Hc). simplify_eq.
      assert (seeds ab = seeds a) as ->.
      { destruct (is_loaded a); [by apply back_ant_seeds in Hc|by subst]. }
      by eapply reachable_seeds.
    - exists fuel, selfe. split; [done|].
      destruct (explore_explored_ant _ _ _ _ _ _ _ _ He) as [Hlene Hspec].
      apply Forall_lookup. intros i a' Ha'.
      destruct (lookup_lt_is_Some_2 selfb i) as [ab Hab].
      { rewrite <- Hlene. by eapply lookup_lt_Some. }
      destruct (Forall_lookup_1 _ _ _ _ Hinvb Hab) as [Hokb Hpb].
      destruct (Hspec i ab Hab) as (a'' & Ha'' & Hex). simplify_eq.
      assert (bool_decide (i ∈ unloaded_ants) = true → is_loaded ab = false) as Hunl.
      { intros Hiu.
        destruct (lookup_lt_is_Some_2 self i) as [a Hi].
        { rewrite <- Hlenb. by eapply lookup_lt_Some. }
        destruct (Hb i a Hi) as (ab' & Hab' & Hc). simplify_eq.
        rewrite (proj2 (Hidx i a Hi)) in Hiu. apply negb_true_iff in Hiu.
        rewrite Hiu in Hc. by subst. }
      split.
      + by eapply explored_ant_ok.
      + by eapply explored_ant_walk_ok. }
  (* 208-216 *)
  destruct (mapM_is_Some_2 (deposit_of the_maze) selfe) as [deposits Hdeps].
  { apply Forall_lookup. intros i a' Ha'. simpl.
    destruct (Forall_lookup_1 _ _ _ _ Hinve Ha') as [Hok' Hp'].
    by destruct (deposit_of_in_range _ _ _ _ _ Hmz Hok' Hp') as (d & -> & _). }
  assert (Forall (λ d : pos * list bool, in_bounds h w d.1) deposits) as Hdb.
  { apply Forall_lookup. intros i d Hd.
    destruct (mapM_lookup_r _ _ _ _ _ Hdeps Hd) as (a' & Ha' & Hda).
    destruct (Forall_lookup_1 _ _ _ _ Hinve Ha') as [Hok' Hp'].
    destruct (deposit_of_in_range _ _ _ _ _ Hmz Hok' Hp') as (d' & Hd' & Hin).
    congruence. }
  destruct (advance_from_stages fuel self the_maze pos_food pos_nest pheromon others
              food_counter selfb fcb nf selfe deposits) as (r & Hadv & _); try done.
  - by eapply mark_all_in_range.
  - by apply Allreduce_MAX_is_Some.
  - exists fuel, r. intros fuel' Hle.
    replace fuel' with (fuel + (fuel' - fuel))%nat by lia. by apply advance_more.
Qed.

End total.

(** ** The direction stored by the random-exploration branch *)

Section drawn.
Context `{direction, maze_bits}.

Lemma accepted_direction h w s p d dir :
  directions_ok → h < 32767 → w < 32767 → in_bounds h w p →
  is_valid_move s d p (new_pos s p dir) dir = true →
  dir = DIR_NORTH ∧ has_north_exit s = true ∧ new_pos s p dir = (p.1 - 1, p.2) ∨
  dir = DIR_EAST ∧ has_east_exit s = true ∧ new_pos s p dir = (p.1, p.2 + 1) ∨
  dir = DIR_SOUTH ∧ has_south_exit s = true ∧ new_pos s p dir = (p.1 + 1, p.2) ∨
  dir = DIR_WEST ∧ has_west_exit s = true ∧ new_pos s p dir = (p.1, p.2 - 1).
Proof.
  intros (? & ? & ? & ? & ? & ? & _) Hh Hw Hp Hv.
  set (n := bool_decide (dir = DIR_NORTH) && has_north_exit s).
  set (e := bool_decide (dir = DIR_EAST) && has_east_exit s).
  set (so := bool_decide (dir = DIR_SOUTH) && has_south_exit s).
  set (we := bool_decide (dir = DIR_WEST) && has_west_exit s).
  assert (new_pos s p dir = moved_by p n e so we) as Hnp.
  { unfold new_pos. fold n e so we. by apply (int16_moved_by h w). }
  unfold is_valid_move in Hv. apply andb_prop in Hv as [Hmoved _].
  rewrite Hnp in Hmoved |- *. unfold moved_by in *. simpl in Hmoved.
  unfold n, e, so, we in *.
  destruct (has_north_exit s), (has_east_exit s), (has_south_exit s), (has_west_exit s);
    repeat case_bool_decide; simpl in *; try done; try lia;
    first [ left; repeat split; try done; f_equal; lia
          | right; left; repeat split; try done; f_equal; lia
          | right; right; left; repeat split; try done; f_equal; lia
          | right; right; right; repeat split; try done; f_equal; lia ].
Qed.

(** The direction that the retry loop stores for an ant is the direction
    of the move it records: the ant is one cell to the north, east, south
    or west of the cell it stood on, through an open side of that cell, and
    [directions] holds the constant of that side. *)
Theorem random_move_follows_its_direction fuel self unl the_maze h w pheromon moved
    sensed i a s :
  directions_ok → maze_ok the_maze h w → ant_in_range h w a →
  explore_moves fuel self unl the_maze pheromon = Some moved →
  mapM (sense the_maze pheromon) (reseed unl self) = Some sensed →
  i ∈ ind_exploring_ants (reseed unl self) sensed unl →
  self !! i = Some a → sensed !! i = Some s →
  ∃ a' p q,
    moved !! i = Some a' ∧ position a = Some p ∧
    historic_path a' !! Z.to_nat (age a + 1) = Some q ∧
    (directions a' = DIR_NORTH ∧ has_exit the_maze p NORTH ∧ q = (p.1 - 1, p.2) ∨
     directions a' = DIR_EAST ∧ has_exit the_maze p EAST ∧ q = (p.1, p.2 + 1) ∨
     directions a' = DIR_SOUTH ∧ has_exit the_maze p SOUTH ∧ q = (p.1 + 1, p.2) ∨
     directions a' = DIR_WEST ∧ has_exit the_maze p WEST ∧ q = (p.1, p.2 - 1)).
Proof.
  intros Hdir Hmz (Hage & Hlen & H64 & p & Hp & Hpb) Hm Hsensed Hi Ha Hs.
  pose proof Hmz as (_ & _ & Hh & Hw & _).
  destruct (explore_moves_spec _ _ _ _ _ _ Hm)
    as (k & sensed' & Hs' & _ & _ & _ & Hmoved).
  assert (sensed' = sensed) as -> by congruence.
  destruct (Hmoved i a Ha) as (s' & a' & Hs'' & Hsense & Ha' & Hmv).
  assert (s' = s) as -> by congruence.
  apply elem_of_ind_exploring_ants in Hi as (Hunl & a0 & s0 & Ha0 & Hs0 & Hex).
  rewrite lookup_reseed, Ha in Ha0. simpl in Ha0.
  rewrite bool_decide_true in Ha0 by done.
  assert (s0 = s) as -> by congruence. injection Ha0 as <-.
  unfold moved_ant in Hmv. rewrite bool_decide_true in Hmv by done. simpl in Hmv.
  rewrite Hex in Hmv.
  destruct Hmv as (_ & _ & _ & _ & j & _ & p' & hist & Hp' & Hval & Hset & Hh' & Hd & _).
  assert (position a = Some p) as Hpos.
  { unfold position. by rewrite np_get_nonneg by lia. }
  assert (p' = p) as -> by congruence.
  pose proof (sense_exits _ _ _ _ _ Hsense Hpos) as (Hn & He & Hso & Hwe).
  rewrite int64_small in Hset by lia. rewrite np_set_nonneg in Hset by lia.
  injection Hset as <-.
  eexists a', p, _. split; [done|]. split; [done|].
  split.
  { rewrite Hh'. apply list_lookup_insert_eq, Nat2Z.inj_lt.
    rewrite Z2Nat.id by lia. exact Hlen. }
  rewrite Hd.
  destruct (accepted_direction h w s p _ _ Hdir Hh Hw Hpb Hval)
    as [(? & ? & ?)|[(? & ? & ?)|[(? & ? & ?)|(? & ? & ?)]]]; auto 10.
Qed.

End drawn.

(** ** The way out and the way back *)

Section ways.
Context `{direction, maze_bits, pheromone_rule}.

Lemma settle_ant_alive pos_food pos_nest am a' :
  int64 (age am + 1) ≠ max_life am →
  settle_ant true pos_food pos_nest am = Some a' →
  historic_path a' = historic_path am ∧ age a' = int64 (age am + 1) ∧
  directions a' = directions am.
Proof.
  intros Hage Hst. unfold settle_ant, kill_step in Hst. simpl in Hst.
  rewrite bool_decide_false in Hst by done. simpl in Hst.
  by apply load_step_frame in Hst as (_ & _ & ? & ? & ?).
Qed.

(** An ant without food that is not reset gets one tick older and records
    the cell it moves to after the cells it has recorded so far, none of
    which changes: the way out is kept for the way back. *)
Theorem outward_path_is_kept the_maze h w pos_food pos_nest self fuel pheromon others
    food_counter r i a a' :
  maze_ok the_maze h w → pos_food ≠ pos_nest → in_bounds h w pos_nest →
  reachable field_nonneg the_maze pos_food pos_nest self → field_nonneg pheromon →
  advance fuel self the_maze pos_food pos_nest pheromon others food_counter = Some r →
  self !! i = Some a → tick_colony r !! i = Some a' →
  is_loaded a = false → age a + 1 ≠ max_life a →
  age a' = age a + 1 ∧
  ∃ q, position a' = Some q ∧
       historic_path a' = <[Z.to_nat (age a + 1) := q]> (historic_path a) ∧
       ∀ k, (k ≤ Z.to_nat (age a))%nat → historic_path a' !! k = historic_path a !! k.
Proof.
  intros Hmz Hfn Hnb Hr Hf Ha Hi Hi' Hl Hage.
  pose proof (in_bounds_int16 _ _ _ _ Hmz Hnb) as Hn.
  pose proof (reachable_walk_ok _ _ _ _ _ _ Hmz Hfn Hn Hnb Hr) as Hinv.
  destruct (Forall_lookup_1 _ _ _ _ Hinv Hi) as [Hok Hpath].
  destruct (advance_spec _ _ _ _ _ _ _ _ _ Ha) as [_ Hspec].
  destruct (Hspec i a Hi) as (a'' & Ha'' & Hc). simplify_eq. rewrite Hl in Hc.
  destruct Hc as (k & s & am & Hs & Hmv & Hst).
  destruct (moved_ant_path _ _ _ _ _ _ _ _ _ Hmz Hf Hok Hpath Hs Hmv)
    as (p & q & Hp & Hh & _).
  destruct Hmv as (_ & _ & Hm & Hg & _).
  destruct Hok as (Hage0 & Hlen & H31 & _).
  apply settle_ant_alive in Hst as (Hh' & Hg' & _);
    [|rewrite Hg, Hm, int64_small by lia; done].
  rewrite Hg, int64_small in Hg' by lia.
  split; [done|]. exists q. split; [|split; [congruence|]].
  - unfold position. rewrite Hg', Hh', Hh. rewrite np_get_nonneg.
    + apply list_lookup_insert_eq, Nat2Z.inj_lt. rewrite Z2Nat.id by lia.
      pose proof Hlen as Hlen'. lia.
    + rewrite length_insert. lia.
  - intros j Hj. rewrite Hh', Hh. apply list_lookup_insert_ne. lia.
Qed.

Lemma ticks_reachable fields the_maze pos_food pos_nest n self self' :
  ticks fields the_maze pos_food pos_nest n self self' →
  reachable fields the_maze pos_food pos_nest self →
  reachable fields the_maze pos_food pos_nest self'.
Proof.
  induction 1 as [|n self fuel pheromon others fc r self' Hf Ha _ IH]; [done|].
  intros Hr. apply IH. by eapply reachable_advance.
Qed.

(** In a run with the food away from the nest, an ant that carries food at
    age [n] has unloaded on the nest after [n] ticks at the latest: it
    does so at the first of the cells it recorded, going back, that is the
    nest, and cell 0 of every history is the nest. *)
Theorem loaded_ant_gets_home fields the_maze pos_food pos_nest (n : nat) : ∀ self i a
    self',
  pos_food ≠ pos_nest → pos_int16 pos_nest →
  reachable fields the_maze pos_food pos_nest self →
  self !! i = Some a → is_loaded a = true → age a = Z.of_nat n →
  ticks fields the_maze pos_food pos_nest n self self' →
  ∃ (j : nat) selfj aj,
    (1 ≤ j ≤ n)%nat ∧
    ticks fields the_maze pos_food pos_nest j self selfj ∧
    ticks fields the_maze pos_food pos_nest (n - j) selfj self' ∧
    selfj !! i = Some aj ∧ is_loaded aj = false ∧ age aj = 0 ∧
    position aj = Some pos_nest.
Proof.
  induction n as [|n IH]; intros self i a self' Hfn Hn Hr Hi Hl Hage Ht.
  { pose proof (reachable_ant_ok _ _ _ _ _ Hfn Hn Hr) as Hok.
    destruct (Forall_lookup_1 _ _ _ _ Hok Hi) as (_ & _ & _ & _ & Hload).
    specialize (Hload Hl). lia. }
  inversion Ht as [|n' self0 fuel pheromon others fc r self0' Hf Ha Ht']; subst.
  pose proof (reachable_ant_ok _ _ _ _ _ Hfn Hn Hr) as Hok.
  destruct (loaded_ant_steps_back _ _ _ _ _ _ _ _ _ _ _ Hok Ha Hi Hl)
    as (a' & p & Ha' & Hp & Hpos & Hh & _ & _ & Hcase).
  assert (ticks fields the_maze pos_food pos_nest 1 self (tick_colony r)) as Hone.
  { eapply ticks_S; [done|done|]. constructor. }
  assert (reachable fields the_maze pos_food pos_nest (tick_colony r)) as Hr'
    by (by eapply reachable_advance).
  case_bool_decide as Hpn.
  - destruct Hcase as [Hl' Hage']. subst p.
    exists 1%nat, (tick_colony r), a'. split; [lia|]. split; [done|].
    split; [by replace (S n - 1)%nat with n by lia|]. done.
  - destruct Hcase as [Hl' Hage'].
    destruct (IH (tick_colony r) i a' self') as (j & selfj & aj & Hj & Htj & Hrest & Hres);
      try done; [lia|].
    exists (S j), selfj, aj. split; [lia|]. split; [by eapply ticks_S|].
    split; [by replace (S n - S j)%nat with (n - j)%nat by lia|]. done.
Qed.

End ways.

(** ** [Colony.display] *)

Section drawing.
Context `{direction, maze_bits, pheromone_rule}.

Lemma explored_ant_directions unl the_maze pheromon pos_food pos_nest a a' :
  explored_ant unl the_maze pheromon pos_food pos_nest a a' →
  directions a' = int8 DIR_NONE ∨ directions a' = directions a ∨
  0 ≤ directions a' ≤ 3.
Proof.
  intros (k & s & am & _ & Hmv & Hst).
  rewrite (settle_ant_directions _ _ _ _ _ Hst). case_bool_decide; [by left|].
  right. destruct Hmv as (_ & _ & _ & _ & Hcase).
  destruct (unl && is_exploring _ s).
  - destruct Hcase as (j & _ & p & hist & _ & _ & _ & _ & -> & _).
    right. pose proof (Z.mod_pos_bound (Nat.iter j lcg
      (seeds (if unl then with_seeds (lcg (seeds a)) a else a))) 4). lia.
  - left. destruct (unl && is_following _ s).
    + by destruct Hcase as (a2 & _ & _ & ->).
    + by destruct Hcase as [_ ->].
Qed.

Lemma reachable_directions fields the_maze pos_food pos_nest self :
  reachable fields the_maze pos_food pos_nest self →
  ∀ i a, self !! i = Some a → directions a = int8 DIR_NONE ∨ 0 ≤ directions a ≤ 3.
Proof.
  induction 1 as [nb_ants max_life0 scaled Hm Hsc
                 |self fuel pheromon others fc r Hr IH Hf Ha]; intros i a Hi.
  - apply lookup_Colony_init in Hi as [_ ->]. by left.
  - destruct (advance_spec _ _ _ _ _ _ _ _ _ Ha) as [Hl Hspec].
    destruct (lookup_lt_is_Some_2 self i) as [a0 Ha0].
    { rewrite <- Hl. by eapply lookup_lt_Some. }
    specialize (IH i a0 Ha0).
    destruct (Hspec i a0 Ha0) as (a' & Ha' & Hc). simplify_eq.
    destruct (is_loaded a0).
    + destruct Hc as (ab & Hab & Hc).
      assert (directions ab = directions a0) as Hd.
      { apply back_ant_steps_onto in Hab. rewrite Hab. by destruct (steps_onto _ _). }
      destruct Hc as [->|Hc]; [by rewrite Hd|].
      apply explored_ant_directions in Hc as [?|[Hc|?]]; auto. rewrite Hc, Hd. done.
    + apply explored_ant_directions in Hc as [?|[Hc|?]]; auto. by rewrite Hc.
Qed.

Lemma np_get_nil {A} i : np_get (@nil A) i = None.
Proof.
  unfold np_get, np_index. simpl. by rewrite !bool_decide_false by lia.
Qed.

(** In a run on a maze of at most 4096 rows and columns, with four sprites
    and a [DIR_NONE] that names one of them, [display] draws every ant: the
    sprite of its stored direction, at eight times its column and its row,
    a pixel at which an 8 by 8 sprite lies inside the window of line 261.
    Without sprites, as on the workers, nothing can be drawn. *)
Theorem display_draws_every_ant {Sprite} the_maze h w pos_food pos_nest self
    (sprites : list Sprite) :
  maze_ok the_maze h w → h ≤ 4096 → w ≤ 4096 →
  pos_food ≠ pos_nest → in_bounds h w pos_nest →
  reachable field_nonneg the_maze pos_food pos_nest self →
  length sprites = 4%nat → -4 ≤ int8 DIR_NONE < 4 →
  (∃ calls, display self sprites = Some calls ∧ length calls = length self ∧
     ∀ i a, self !! i = Some a →
       ∃ sprite p,
         calls !! i = Some (sprite, (8 * p.2, 8 * p.1)) ∧
         position a = Some p ∧ np_get sprites (directions a) = Some sprite ∧
         0 ≤ 8 * p.2 ∧ 8 * p.2 + 8 ≤ w * 8 ∧ 0 ≤ 8 * p.1 ∧ 8 * p.1 + 8 ≤ h * 8) ∧
  (self ≠ [] → display self (@nil Sprite) = None).
Proof.
  intros Hmz Hh Hw Hfn Hnb Hr Hsp Hnone.
  pose proof (in_bounds_int16 _ _ _ _ Hmz Hnb) as Hn.
  pose proof (reachable_walk_ok _ _ _ _ _ _ Hmz Hfn Hn Hnb Hr) as Hinv.
  assert (∀ i a, self !! i = Some a →
            ∃ sprite p,
              np_get sprites (directions a) = Some sprite ∧ position a = Some p ∧
              in_bounds h w p) as Hant.
  { intros i a Hi.
    destruct (Forall_lookup_1 _ _ _ _ Hinv Hi) as [Hok Hpath].
    assert (is_Some (np_get sprites (directions a))) as [sprite Hs].
    { unfold np_get, np_index. rewrite Hsp.
      destruct (reachable_directions _ _ _ _ _ Hr i a Hi) as [-> | Hd].
      - repeat case_bool_decide; simpl; try lia; apply lookup_lt_is_Some_2; lia.
      - rewrite bool_decide_true by lia. simpl. apply lookup_lt_is_Some_2. lia. }
    assert (∃ p, position a = Some p ∧ in_bounds h w p) as (p & Hp & Hpb).
    { destruct Hok as (Hage & Hlen & _). destruct Hpath as [Hb _].
      destruct (lookup_lt_is_Some_2 (historic_path a) (Z.to_nat (age a))) as [p Hp];
        [lia|].
      exists p. split; [|by apply (Hb (Z.to_nat (age a)))].
      unfold position. by rewrite np_get_nonneg by lia. }
    eauto. }
  split.
  - destruct (mapM_is_Some_2 (λ a : Ant,
        sprite ← np_get sprites (directions a); p ← position a;
        Some (sprite, (int16 (8 * p.2), int16 (8 * p.1)))) self) as [calls Hcalls].
    { apply Forall_lookup. intros i a Hi. simpl.
      destruct (Hant i a Hi) as (sprite & p & -> & -> & _). done. }
    exists calls. split; [done|]. split; [symmetry; by eapply length_mapM|].
    intros i a Hi. destruct (Hant i a Hi) as (sprite & p & Hs & Hp & [Hr1 Hr2]).
    destruct (mapM_lookup _ _ _ _ _ Hcalls Hi) as (c & Hc & Hca).
    rewrite Hs, Hp in Hca. simpl in Hca. rewrite !int16_small in Hca by lia.
    exists sprite, p. split; [congruence|]. repeat split; try done; lia.
  - intros Hne. destruct self as [|a self]; [done|].
    unfold display. simpl. by rewrite np_get_nil.
Qed.

End drawing.

(** ** What every ant of a run satisfies *)

Section run.
Context `{direction, maze_bits, pheromone_rule}.

(** In a run with the food away from the nest, cell 0 of every history is
    the nest, an ant of age 0 stands on the nest, the age of an ant is
    below its [max_life] and its history has room for [max_life + 1]
    cells or more; and the stored direction of an ant is [DIR_NONE] or one
    of the four draws 0, 1, 2, 3. *)
Theorem every_path_starts_at_the_nest fields the_maze pos_food pos_nest self i a :
  pos_food ≠ pos_nest → pos_int16 pos_nest →
  reachable fields the_maze pos_food pos_nest self →
  self !! i = Some a →
  np_get (historic_path a) 0 = Some pos_nest ∧
  (age a = 0 → position a = Some pos_nest) ∧
  0 ≤ age a < max_life a ∧ max_life a < Z.of_nat (length (historic_path a)) ∧
  (directions a = int8 DIR_NONE ∨ 0 ≤ directions a ≤ 3).
Proof.
  intros Hfn Hn Hr Hi.
  pose proof (reachable_ant_ok _ _ _ _ _ Hfn Hn Hr) as Hok.
  destruct (Forall_lookup_1 _ _ _ _ Hok Hi) as (Hage & Hlen & _ & Hnest & _).
  assert (np_get (historic_path a) 0 = Some pos_nest) as Hfirst.
  { rewrite np_get_nonneg by lia. done. }
  split; [exact Hfirst|]. split; [by unfold position; intros ->|].
  split; [done|]. split; [done|]. by eapply reachable_directions.
Qed.

End run.
(** ** Which draw the retry loop accepts *)

Section first.
Context `{direction, maze_bits}.

Lemma retry_steps_first k : ∀ r r' p,
  pending r = true → retry_steps k r = Some r' → pending r' = false →
  position (row_ant r) = Some p →
  ∃ j, (1 ≤ j ≤ k)%nat ∧
    directions (row_ant r') = draw (seeds (row_ant r)) j ∧
    np_set (historic_path (row_ant r)) (int64 (age (row_ant r) + 1))
      (new_pos (row_sensed r) p (draw (seeds (row_ant r)) j))
    = Some (historic_path (row_ant r')) ∧
    is_valid_move (row_sensed r) (directions (row_ant r)) p
      (new_pos (row_sensed r) p (draw (seeds (row_ant r)) j))
      (draw (seeds (row_ant r)) j) = true ∧
    ∀ j', (1 ≤ j' < j)%nat →
      is_valid_move (row_sensed r) (directions (row_ant r)) p
        (new_pos (row_sensed r) p (draw (seeds (row_ant r)) j'))
        (draw (seeds (row_ant r)) j') = false.
Proof.
  induction k as [|k IH]; intros r r' p Hp Hs Hp' Hpos; simpl in Hs.
  - simplify_eq. congruence.
  - destruct (retry_step r) as [r1|] eqn:H1; simplify_eq/=.
    assert (row_exploring r = true) as He.
    { unfold pending in Hp. by apply andb_prop in Hp as [? _]. }
    unfold retry_step in H1. rewrite Hp, position_with_seeds, Hpos in H1.
    cbn [mbind option_bind] in H1.
    destruct (is_valid_move _ _ _ _ _) eqn:Hv.
    + destruct (np_set _ _ _) as [h|] eqn:Hh; [|discriminate H1].
      cbn [mbind option_bind] in H1. injection H1 as <-.
      rewrite retry_steps_idle in Hs by (unfold pending; simpl; apply andb_false_r).
      injection Hs as <-. exists 1%nat. split; [lia|]. split; [done|].
      split; [exact Hh|]. split; [exact Hv|]. intros j' Hj'. lia.
    + injection H1 as <-.
      match type of Hs with
      | retry_steps k ?r1 = _ =>
          destruct (IH r1 r' p) as (j & Hj & Hd & Hset & Hval & Hmin);
            [unfold pending; simpl; by rewrite He|exact Hs|exact Hp'|exact Hpos|]
      end.
      exists (S j). unfold draw in *. cbn [row_ant row_sensed] in *.
      split; [lia|]. rewrite Nat.iter_succ_r. split; [exact Hd|]. split; [exact Hset|].
      split; [exact Hval|].
      intros [|[|j']] Hj'; [lia|exact Hv|].
      rewrite Nat.iter_succ_r. apply Hmin. lia.
Qed.

(** An ant of [ind_exploring_ants] takes the first direction of its own
    stream of draws that passes the test of lines 149-153 on its cell: that
    direction is stored, the cell it leads to is written after the current
    one, and every earlier draw of the stream fails the test. The number of
    passes that the other ants of the colony need plays no part. *)
Theorem exploring_ant_takes_its_first_valid_draw fuel self unl the_maze pheromon moved
    sensed i a s p :
  explore_moves fuel self unl the_maze pheromon = Some moved →
  mapM (sense the_maze pheromon) (reseed unl self) = Some sensed →
  i ∈ ind_exploring_ants (reseed unl self) sensed unl →
  self !! i = Some a → sensed !! i = Some s → position a = Some p →
  ∃ a' j,
    moved !! i = Some a' ∧ (1 ≤ j)%nat ∧
    directions a' = draw (lcg (seeds a)) j ∧
    np_set (historic_path a) (int64 (age a + 1)) (new_pos s p (draw (lcg (seeds a)) j))
    = Some (historic_path a') ∧
    is_valid_move s (directions a) p
      (new_pos s p (draw (lcg (seeds a)) j)) (draw (lcg (seeds a)) j) = true ∧
    ∀ j', (1 ≤ j' < j)%nat →
      is_valid_move s (directions a) p
        (new_pos s p (draw (lcg (seeds a)) j')) (draw (lcg (seeds a)) j') = false.
Proof.
  intros Hm Hsensed Hi Ha Hs Hpos. unfold explore_moves in Hm.
  destruct (idx_in_range unl self) eqn:Hrange; simpl in Hm; [|done].
  rewrite Hsensed in Hm. simpl in Hm.
  set (self1 := reseed unl self) in *.
  set (expl := ind_exploring_ants self1 sensed unl) in *.
  set (foll := ind_following_ants (map choices self1) sensed unl) in *.
  pose proof Hi as (Hunl & a1 & s1 & Ha1 & Hs1 & Hex)%elem_of_ind_exploring_ants.
  assert (s1 = s) as -> by congruence.
  assert (a1 = with_seeds (lcg (seeds a)) a) as ->.
  { unfold self1 in Ha1. rewrite lookup_reseed, Ha in Ha1. simpl in Ha1.
    rewrite bool_decide_true in Ha1 by done. congruence. }
  rewrite (bool_decide_true (0 < length expl)%nat) in Hm.
  2:{ pose proof Hi as [n Hn%lookup_lt_Some]%list_elem_of_lookup.
      eapply Nat.le_lt_trans; [apply Nat.le_0_l|exact Hn]. }
  destruct (retry_loop _ _) as [rows|] eqn:Hl; simpl in Hm; [|done].
  destruct (retry_loop_steps _ _ _ Hl) as (k & _ & HF & Hp' & _).
  pose proof (lookup_loop_rows self1 sensed expl i _ s Ha1 Hs) as Hr.
  rewrite bool_decide_true in Hr by done.
  destruct (Forall2_lookup_l _ _ _ _ _ HF Hr) as (r' & Hr' & Hsteps).
  pose proof (existsb_false_lookup _ _ _ _ Hp' Hr') as Hpd'.
  destruct (retry_steps_first _ _ _ p (eq_refl : pending (mkRow _ s true false) = true)
              Hsteps Hpd' Hpos) as (j & Hj & Hd & Hset & Hval & Hmin).
  cbn [row_ant row_sensed seeds directions with_seeds] in Hd, Hset, Hval, Hmin.
  assert (moved !! i = Some (row_ant r')) as Ha'.
  { assert (i ∉ foll) as Hnf.
    { intros (_ & c & s0 & Hc & Hs0 & Hfo)%elem_of_ind_following_ants.
      rewrite list_lookup_fmap, Ha1 in Hc. simplify_eq/=.
      by rewrite (is_exploring_not_following _ _ Hex) in Hfo. }
    assert (map row_ant rows !! i = Some (row_ant r')) as H2.
    { by rewrite list_lookup_fmap, Hr'. }
    case_bool_decide.
    - destruct (on_idxM_lookup _ _ _ _ _ _ Hm H2) as (a' & Ha' & Hf).
      rewrite bool_decide_false in Hf by done. by subst a'.
    - by simplify_eq. }
  exists (row_ant r'), j. split; [done|]. split; [lia|]. split; [done|].
  split; [exact Hset|]. by split.
Qed.

End first.
(** ** How many passes the retry loop makes *)

Section passes.
Context `{direction, maze_bits}.

Lemma retry_steps_pending_before k : ∀ r r1,
  retry_steps k r = Some r1 → pending r1 = true → pending r = true.
Proof.
  intros r r1 Hs Hp1. destruct (pending r) eqn:Hp; [done|].
  rewrite retry_steps_idle in Hs by done. injection Hs as <-.
  unfold pending in *. simpl in Hp1. congruence.
Qed.

(** A row still waiting after [k] passes was refused its first [k]
    draws. *)
Lemma retry_steps_still_pending k : ∀ r r1 p,
  retry_steps k r = Some r1 → pending r1 = true → position (row_ant r) = Some p →
  ∀ j, (1 ≤ j ≤ k)%nat →
    is_valid_move (row_sensed r) (directions (row_ant r)) p
      (new_pos (row_sensed r) p (draw (seeds (row_ant r)) j))
      (draw (seeds (row_ant r)) j) = false.
Proof.
  induction k as [|k IH]; intros r r1 p Hs Hp1 Hpos j Hj; [lia|].
  pose proof (retry_steps_pending_before _ _ _ Hs Hp1) as Hp.
  simpl in Hs. destruct (retry_step r) as [r0|] eqn:H0'; simplify_eq/=.
  assert (row_exploring r = true) as He.
  { unfold pending in Hp. by apply andb_prop in Hp as [? _]. }
  unfold retry_step in H0'. rewrite Hp, position_with_seeds, Hpos in H0'.
  cbn [mbind option_bind] in H0'.
  destruct (is_valid_move _ _ _ _ _) eqn:Hv.
  - destruct (np_set _ _ _) as [h|] eqn:Hh; [|discriminate H0'].
    cbn [mbind option_bind] in H0'. injection H0' as <-.
    apply retry_steps_pending_before in Hs; [|done].
    unfold pending in Hs. simpl in Hs. by rewrite andb_false_r in Hs.
  - injection H0' as <-.
    destruct j as [|[|j]]; [lia|exact Hv|].
    unfold draw. rewrite Nat.iter_succ_r.
    match type of Hs with
    | retry_steps k ?r0 = _ => apply (IH r0 r1 p Hs Hp1 Hpos (S j))
    end. lia.
Qed.

(** The passes of the loop are counted by a row: when the loop makes
    [S k'] passes, some row is still waiting after [k'] of them. *)
Lemma retry_loop_last fuel : ∀ rows rows',
  retry_loop fuel rows = Some rows' →
  ∃ k, Forall2 (λ r r', retry_steps k r = Some r') rows rows' ∧
       existsb pending rows' = false ∧
       (existsb pending rows = false ↔ k = 0%nat) ∧
       ∀ k', k = S k' →
         ∃ i r r1, rows !! i = Some r ∧ retry_steps k' r = Some r1 ∧ pending r1 = true.
Proof.
  induction fuel as [|fuel IH]; intros rows rows' Hl; simpl in Hl.
  - destruct (existsb pending rows) eqn:Hp; simplify_eq.
    exists 0%nat. split; [|done].
    apply Forall2_same_length_lookup_2; [done|]. intros i r r' ??. simpl. congruence.
  - destruct (existsb pending rows) eqn:Hp; simplify_eq.
    + destruct (mapM retry_step rows) as [rows1|] eqn:Hm; simplify_eq/=.
      destruct (IH _ _ Hl) as (k & HF & Hp' & Hk0 & Hlast).
      exists (S k). split.
      { eapply Forall2_retry_steps_S; [by apply mapM_Some_1|done]. }
      split; [done|]. split; [split; [congruence|lia]|].
      intros k' [= <-]. destruct k as [|k1].
      * apply existsb_exists in Hp as (r & Hin & Hpr).
        apply list_elem_of_In, list_elem_of_lookup in Hin as [i Hi].
        by exists i, r, r.
      * destruct (Hlast k1 eq_refl) as (i & r1 & r2 & Hi1 & Hs2 & Hp2).
        destruct (mapM_lookup_r _ _ _ _ _ Hm Hi1) as (r & Hi & Hr).
        exists i, r, r2. split; [done|]. split; [|done]. simpl. by rewrite Hr.
    + exists 0%nat. split; [|done].
      apply Forall2_same_length_lookup_2; [done|]. intros i r r' ??. simpl. congruence.
Qed.

End passes.

(** *** The stream of draws over one period *)

Lemma iter_lcg_period (n : nat) s :
  1 ≤ s < 2147483647 → Nat.iter (n + Z.to_nat 2147483646) lcg s = Nat.iter n lcg s.
Proof.
  intros Hs. destruct (pw_surjective s Hs) as (a & Ha & <-).
  rewrite !iter_lcg_pw by lia.
  replace (Z.of_nat (n + Z.to_nat 2147483646) + a)
    with (Z.of_nat n + a + 2147483646 * 1) by lia.
  apply pw_period; lia.
Qed.

(** A stream that comes back to its seed after [n < 2^31 - 2] steps has
    made no step. *)
Lemma iter_lcg_returns (n : nat) s :
  1 ≤ s < 2147483647 → Z.of_nat n < 2147483646 → Nat.iter n lcg s = s → n = 0%nat.
Proof.
  intros Hs Hn Heq. destruct (pw_surjective s Hs) as (a & Ha & <-).
  rewrite iter_lcg_pw in Heq by lia.
  apply pw_eq_residue in Heq; [|lia|lia].
  rewrite (Z.mod_small a) in Heq by lia.
  destruct (Z_lt_dec (Z.of_nat n + a) 2147483646) as [Hlt|Hge].
  - rewrite Z.mod_small in Heq by lia. lia.
  - rewrite <- (Z.mod_unique_pos (Z.of_nat n + a) 2147483646 1
                  (Z.of_nat n + a - 2147483646)) in Heq by lia. lia.
Qed.

(** From the [2^31 - 2]-th draw on, every draw repeats an earlier one. *)
Lemma draw_repeats s (k : nat) :
  1 ≤ s < 2147483647 → 2147483646 ≤ Z.of_nat k →
  ∃ j, (1 ≤ j < k)%nat ∧ draw s j = draw s k.
Proof.
  intros Hs Hk. unfold draw.
  destruct (Z_lt_dec 2147483646 (Z.of_nat k)) as [Hgt|Heq].
  - remember (Z.to_nat (Z.of_nat k - 2147483646)) as j eqn:Hj.
    exists j. split; [lia|].
    assert (k = (j + Z.to_nat 2147483646)%nat) as Hkj by lia.
    rewrite Hkj. by rewrite iter_lcg_period.
  - assert (Nat.iter k lcg s = s) as Hback.
    { replace k with (0 + Z.to_nat 2147483646)%nat by lia.
      by rewrite iter_lcg_period. }
    rewrite Hback.
    set (t := if bool_decide (s + 4 < 2147483647) then s + 4 else s - 4).
    assert (1 ≤ t < 2147483647 ∧ t ≠ s ∧ t mod 4 = s mod 4) as (Ht & Hts & Ht4).
    { unfold t. case_bool_decide.
      - split; [lia|]. split; [lia|]. apply (Z_mod_plus_full s 1 4).
      - split; [lia|]. split; [lia|]. apply (Z_mod_plus_full s (-1) 4). }
    destruct (pw_surjective s Hs) as (a & Ha & Hpa).
    destruct (pw_surjective t Ht) as (b & Hb & Hpb).
    assert (a ≠ b) as Hab by congruence.
    assert (0 ≤ (b - a) mod 2147483646 < 2147483646) as Hm
      by (apply Z.mod_pos_bound; lia).
    assert ((b - a) mod 2147483646 ≠ 0) as Hnz.
    { intros H0'. apply Z.mod_divide in H0' as [q Hq]; [|lia]. nia. }
    exists (Z.to_nat ((b - a) mod 2147483646)). split; [lia|].
    rewrite <- Ht4, <- Hpb, <- Hpa. f_equal.
    rewrite iter_lcg_pw by lia. rewrite Z2Nat.id by lia.
    apply pw_congr; [lia|lia|].
    rewrite Z.add_mod_idemp_l by lia. f_equal. lia.
Qed.

Section seeds_of_explore.
Context `{direction, maze_bits}.

(** The pass that ends the wait of a row is below the period of its
    stream: the draw it accepts has not come up before. *)
Lemma last_pass_below_period k' r r1 r' p :
  1 ≤ seeds (row_ant r) < 2147483647 → position (row_ant r) = Some p →
  retry_steps k' r = Some r1 → pending r1 = true →
  retry_steps (S k') r = Some r' → pending r' = false →
  Z.of_nat (S k') < 2147483646.
Proof.
  intros Hseed Hpos Hs1 Hp1 Hs' Hp'.
  pose proof (retry_steps_pending_before _ _ _ Hs1 Hp1) as Hp.
  pose proof (retry_steps_still_pending _ _ _ _ Hs1 Hp1 Hpos) as Hrefused.
  destruct (retry_steps_first _ _ _ _ Hp Hs' Hp' Hpos) as (j & Hj & _ & _ & Hval & _).
  assert (j = S k') as ->.
  { destruct (decide (j ≤ k')%nat) as [Hle|]; [|lia].
    rewrite Hrefused in Hval by lia. discriminate Hval. }
  destruct (Z_lt_dec (Z.of_nat (S k')) 2147483646) as [|Hge]; [done|exfalso].
  destruct (draw_repeats (seeds (row_ant r)) (S k')) as (j & Hj' & Hdraw); [done|lia|].
  rewrite <- Hdraw, Hrefused in Hval by lia. discriminate Hval.
Qed.

(** Lines 89-175 and the seeds: the [k] passes of the retry loop advance
    every seed [k] times, after line 89 has advanced those of
    [unloaded_ants] once; and with seeds in [1, 2^31 - 2] the loop makes
    fewer than [2^31 - 2] passes. *)
Lemma explore_moves_passes fuel self unl the_maze pheromon moved :
  explore_moves fuel self unl the_maze pheromon = Some moved →
  ∃ (k : nat) sensed,
    mapM (sense the_maze pheromon) (reseed unl self) = Some sensed ∧
    (ind_exploring_ants (reseed unl self) sensed unl = [] ↔ k = 0%nat) ∧
    (∀ i a, self !! i = Some a →
       ∃ am, moved !! i = Some am ∧
             seeds am = Nat.iter (if bool_decide (i ∈ unl) then S k else k) lcg (seeds a)) ∧
    (Forall (λ a, 1 ≤ seeds a < 2147483647) self → Z.of_nat k < 2147483646).
Proof.
  unfold explore_moves. intros Hm.
  destruct (idx_in_range unl self) eqn:Hrange; simpl in Hm; [|done].
  destruct (mapM (sense the_maze pheromon) (reseed unl self)) as [sensed|] eqn:Hsense;
    simpl in Hm; [|done].
  set (self1 := reseed unl self) in *.
  set (expl := ind_exploring_ants self1 sensed unl) in *.
  set (foll := ind_following_ants (map choices self1) sensed unl) in *.
  assert (length sensed = length self1) as Hlens by (symmetry; by eapply length_mapM).
  assert (∀ i a, self !! i = Some a →
            self1 !! i = Some (if bool_decide (i ∈ unl)
                               then with_seeds (lcg (seeds a)) a else a)) as Hself1.
  { intros i a Ha. unfold self1. by rewrite lookup_reseed, Ha. }
  assert (∀ (k i : nat) (a : Ant),
            Nat.iter (if bool_decide (i ∈ unl) then S k else k) lcg (seeds a)
            = Nat.iter k lcg (seeds (if bool_decide (i ∈ unl)
                                     then with_seeds (lcg (seeds a)) a else a)))
    as Hiter.
  { intros k i a. destruct (bool_decide (i ∈ unl)); [|done].
    simpl seeds. by rewrite <- Nat.iter_succ_r. }
  match type of Hm with
  | (?stage ≫= _) = _ => destruct stage as [self2|] eqn:Hstage; simpl in Hm; [|done]
  end.
  assert (∀ i a2, self2 !! i = Some a2 →
            ∃ am, moved !! i = Some am ∧ seeds am = seeds a2) as Hfollow.
  { intros i a2 Ha2. case_bool_decide; [|simplify_eq; eauto].
    destruct (on_idxM_lookup _ _ _ _ _ _ Hm Ha2) as (am & Ham & Hf).
    exists am. split; [done|]. case_bool_decide; [|by subst].
    destruct (sensed !! i) as [s|]; simpl in Hf; [|done].
    by apply follow_step_frame in Hf as [-> _]. }
  destruct (bool_decide (0 < length expl)%nat) eqn:Hne.
  - destruct (retry_loop _ _) as [rows'|] eqn:Hl; simplify_eq/=.
    destruct (retry_loop_last _ _ _ Hl) as (k & HF & Hp' & Hk0 & Hlast).
    assert (∀ i a1 s, self1 !! i = Some a1 → sensed !! i = Some s →
              ∃ r', rows' !! i = Some r' ∧ pending r' = false ∧
                    retry_steps k (mkRow a1 s (bool_decide (i ∈ expl)) false) = Some r' ∧
                    seeds (row_ant r') = Nat.iter k lcg (seeds a1)) as Hrows.
    { intros i a1 s Ha1 Hs.
      pose proof (lookup_loop_rows self1 sensed expl i a1 s Ha1 Hs) as Hr.
      destruct (Forall2_lookup_l _ _ _ _ _ HF Hr) as (r' & Hr' & Hsteps).
      pose proof (existsb_false_lookup _ _ _ _ Hp' Hr') as Hpd'.
      exists r'. split; [done|]. split; [done|]. split; [done|].
      case_bool_decide.
      - by destruct (retry_steps_pending _ _ _ (eq_refl : pending (mkRow a1 s true false)
                                                           = true) Hsteps Hpd')
          as (_ & -> & _).
      - rewrite retry_steps_idle in Hsteps by done. by simplify_eq/=. }
    assert (k ≠ 0%nat) as Hk.
    { intros ->. apply bool_decide_eq_true in Hne.
      destruct (lookup_lt_is_Some_2 expl 0 Hne) as [i Hi0].
      pose proof (list_elem_of_lookup_2 _ _ _ Hi0) as Hi.
      pose proof Hi as (_ & a1 & s & Ha1 & Hs & _)%elem_of_ind_exploring_ants.
      pose proof (lookup_loop_rows self1 sensed expl i a1 s Ha1 Hs) as Hr.
      assert (existsb pending (loop_rows self1 sensed expl) = true) as Hex.
      { eapply existsb_true_lookup; [done|]. unfold pending. simpl.
        by rewrite bool_decide_true. }
      destruct Hk0 as [_ Hk0]. rewrite Hk0 in Hex; done. }
    exists k, sensed. split; [done|]. split.
    { split; [|done]. intros Hnil. apply bool_decide_eq_true in Hne.
      unfold expl in Hne. rewrite Hnil in Hne. simpl in Hne. lia. }
    split.
    + intros i a Ha. pose proof (Hself1 i a Ha) as Ha1.
      destruct (lookup_lt_is_Some_2 sensed i) as [s Hs].
      { rewrite Hlens. by eapply lookup_lt_Some. }
      destruct (Hrows i _ s Ha1 Hs) as (r' & Hr' & _ & _ & Hsd).
      destruct (Hfollow i (row_ant r')) as (am & Ham & Hsam).
      { by rewrite list_lookup_fmap, Hr'. }
      exists am. split; [done|]. by rewrite Hsam, Hsd, Hiter.
    + intros Hseeds. destruct k as [|k']; [done|].
      destruct (Hlast k' eq_refl) as (i & r & r1 & Hi & Hs1 & Hp1).
      pose proof (lookup_lt_Some _ _ _ Hi) as Hlt.
      unfold loop_rows in Hlt. rewrite length_imap, length_zip_with in Hlt.
      destruct (lookup_lt_is_Some_2 self1 i) as [a1 Ha1]; [lia|].
      destruct (lookup_lt_is_Some_2 sensed i) as [s Hs]; [lia|].
      rewrite (lookup_loop_rows self1 sensed expl i a1 s Ha1 Hs) in Hi.
      injection Hi as <-.
      destruct (Hrows i a1 s Ha1 Hs) as (r' & _ & Hpd' & Hsteps & _).
      pose proof (retry_steps_pending_before _ _ _ Hs1 Hp1) as Hp.
      destruct (position a1) as [p|] eqn:Hpos.
      2:{ simpl in Hsteps. unfold retry_step in Hsteps.
          rewrite Hp, position_with_seeds in Hsteps. simpl in Hsteps.
          rewrite Hpos in Hsteps. discriminate Hsteps. }
      eapply (last_pass_below_period k' (mkRow a1 s (bool_decide (i ∈ expl)) false) r1 r' p);
        [|exact Hpos|done..].
      simpl. destruct (lookup_lt_is_Some_2 self i) as [a Ha].
      { unfold self1, reseed in Ha1. apply lookup_lt_Some in Ha1.
        by rewrite length_on_idx in Ha1. }
      rewrite (Hself1 i a Ha) in Ha1. injection Ha1 as <-.
      pose proof (Forall_lookup_1 _ _ _ _ Hseeds Ha) as Hsa. simpl in Hsa.
      case_bool_decide; [by apply lcg_nonzero|done].
  - simplify_eq/=. apply bool_decide_eq_false in Hne.
    assert (expl = []) as Hnil by (destruct expl; [done|simpl in Hne; lia]).
    exists 0%nat, sensed. split; [done|]. split; [by split|]. split; [|lia].
    intros i a Ha. destruct (Hfollow i _ (Hself1 i a Ha)) as (am & Ham & Hsam).
    exists am. split; [done|]. by rewrite Hsam, Hiter.
Qed.

(** C8, as the code has it. [explore] advances the seed of every
    unloaded ant once at line 89, and then the seed of every ant of the
    colony, loaded or not, once per pass of the retry loop (line 135): with
    [k] passes an ant outside [unloaded_ants] ends with its seed advanced
    [k] times and an ant of [unloaded_ants] with its seed advanced [k+1]
    times. [k] is 0 exactly when no ant takes the random-exploration
    branch. When the seeds are in [1, 2^31 - 2], as they are in a run, the
    loop makes fewer than [2^31 - 2] passes, less than the period of the
    recurrence: the seed of an ant outside [unloaded_ants] is then left
    as it was exactly when no ant takes the random-exploration branch. *)
Theorem explore_seeds fuel self unl the_maze pos_food pos_nest pheromon self' :
  explore fuel self unl the_maze pos_food pos_nest pheromon = Some self' →
  ∃ (k : nat) sensed,
    mapM (sense the_maze pheromon) (reseed unl self) = Some sensed ∧
    (ind_exploring_ants (reseed unl self) sensed unl = [] ↔ k = 0%nat) ∧
    (∀ i a, self !! i = Some a →
       ∃ a', self' !! i = Some a' ∧
             seeds a' = Nat.iter (if bool_decide (i ∈ unl) then S k else k) lcg (seeds a)) ∧
    (Forall (λ a, 1 ≤ seeds a < 2147483647) self →
       Z.of_nat k < 2147483646 ∧
       ∀ i a a', self !! i = Some a → self' !! i = Some a' → i ∉ unl →
         (seeds a' = seeds a ↔ ind_exploring_ants (reseed unl self) sensed unl = [])).
Proof.
  intros He. destruct (explore_spec _ _ _ _ _ _ _ _ He) as (moved & Hm & _ & Hsettle).
  destruct (explore_moves_passes _ _ _ _ _ _ Hm) as (k & sensed & Hs & Hk0 & Hsd & Hbound).
  assert (∀ i a, self !! i = Some a →
            ∃ a', self' !! i = Some a' ∧
                  seeds a' = Nat.iter (if bool_decide (i ∈ unl) then S k else k) lcg
                                      (seeds a)) as Hseeds.
  { intros i a Ha. destruct (Hsd i a Ha) as (am & Ham & Hsam).
    destruct (Hsettle i am Ham) as (a' & Ha' & Hst).
    exists a'. split; [done|]. by rewrite (settle_ant_seeds _ _ _ _ _ Hst). }
  exists k, sensed. split; [done|]. split; [done|]. split; [done|].
  intros Hrange. specialize (Hbound Hrange). split; [done|].
  intros i a a' Ha Ha' Hi. destruct (Hseeds i a Ha) as (a'' & Ha'' & Hsa).
  assert (a'' = a') as -> by congruence.
  rewrite bool_decide_false in Hsa by done. rewrite Hsa, Hk0. split.
  - apply iter_lcg_returns; [|done].
    exact (Forall_lookup_1 _ _ _ _ Hrange Ha).
  - by intros ->.
Qed.

End seeds_of_explore.
(** ** The deposits and the merge of a tick *)





Section tick_field.
Context `{direction, maze_bits, pheromone_rule}.

(** [advance] is [advance_marking] followed by the merge of lines 221-223,
    which takes the copy of line 214 and not the field the deposits were
    written to. *)
Lemma advance_marked fuel self the_maze pos_food pos_nest pheromon others food_counter r :
  advance fuel self the_maze pos_food pos_nest pheromon others food_counter = Some r →
  ∃ live merged,
    advance_marking fuel self the_maze pos_food pos_nest pheromon food_counter
    = Some (tick_colony r, tick_food_counter r, tick_new_food r, live) ∧
    Allreduce_MAX (concat pheromon) others = Some merged ∧
    tick_pheromon r
    = reshape (length pheromon) (default 0%nat (length <$> head pheromon)) merged.
Proof.
  unfold advance. intros Ha.
  destruct (advance_marking _ _ _ _ _ _ _) as [[[[selfe fc] nf] live]|];
    simpl in Ha; [|done].
  destruct (Allreduce_MAX _ _) as [merged|]; simplify_eq/=. eauto.
Qed.

Lemma advance_marking_deposits fuel self the_maze pos_food pos_nest pheromon food_counter
    selfe fc nf live :
  advance_marking fuel self the_maze pos_food pos_nest pheromon food_counter
  = Some (selfe, fc, nf, live) →
  ∃ deposits,
    mapM (deposit_of the_maze) selfe = Some deposits ∧
    mark_all pheromon deposits pheromon = Some live.
Proof.
  unfold advance_marking. intros Ha.
  match type of Ha with
  | (?st ≫= _) = _ => destruct st as [[[selfb fcb] nfb]|]; simpl in Ha; [|done]
  end.
  match type of Ha with
  | (?st ≫= _) = _ => destruct st as [selfe'|]; simpl in Ha; [|done]
  end.
  destruct (mapM (deposit_of the_maze) selfe') as [deps|] eqn:Hd; simpl in Ha; [|done].
  destruct (mark_all _ _ _) as [live'|] eqn:Hm; simplify_eq/=. eauto.
Qed.

(** C2, as the code has it. The deposit of an ant goes to the cell on
    which the ant stands once the moves of the tick are made, that is at
    its position in the colony that [advance] leaves, not at the cell it
    left. Every deposit is computed from the copy of the field taken at
    line 214, before the first deposit: the field in which lines 215-216
    leave the deposits is the same in whatever order the ants are taken.
    Line 223 then stores the merged copies, which no deposit enters. *)
Theorem deposits_use_snapshot fuel self the_maze pos_food pos_nest pheromon others
    food_counter r :
  advance fuel self the_maze pos_food pos_nest pheromon others food_counter = Some r →
  ∃ deposits live merged,
    advance_marking fuel self the_maze pos_food pos_nest pheromon food_counter
    = Some (tick_colony r, tick_food_counter r, tick_new_food r, live) ∧
    mapM (deposit_of the_maze) (tick_colony r) = Some deposits ∧
    (∀ i a', tick_colony r !! i = Some a' →
       ∃ d, deposits !! i = Some d ∧ position a' = Some d.1) ∧
    mark_all pheromon deposits pheromon = Some live ∧
    (∀ deposits', deposits' ≡ₚ deposits →
       mark_all pheromon deposits' pheromon = Some live) ∧
    Allreduce_MAX (concat pheromon) others = Some merged ∧
    tick_pheromon r
    = reshape (length pheromon) (default 0%nat (length <$> head pheromon)) merged.
Proof.
  intros Ha. destruct (advance_marked _ _ _ _ _ _ _ _ _ Ha) as (live & merged & Hmk & Hr & Hf).
  destruct (advance_marking_deposits _ _ _ _ _ _ _ _ _ _ _ Hmk) as (deps & Hd & Hm).
  exists deps, live, merged. split; [done|]. split; [done|]. split.
  { intros i a' Ha'. destruct (mapM_lookup _ _ _ _ _ Hd Ha') as (d & Hdi & Hdep).
    exists d. split; [done|]. unfold deposit_of in Hdep.
    destruct (position a') as [p|]; simplify_eq/=.
    destruct (np_get2 _ _ _); simplify_eq/=. done. }
  split; [done|]. split; [|done].
  intros deps' Hp. by rewrite (mark_all_Permutation _ _ _ Hp).
Qed.




End tick_field.

(** * The further properties on small mazes *)

Section more_examples.

#[local] Existing Instance direction_py.
#[local] Existing Instance maze_py.
#[local] Existing Instance quarter_rule.

Local Ltac evaluate := vm_compute; reflexivity.

Lemma corridor_carrier_reachable fields :
  fields (no_scent 1 2) →
  reachable fields corridor (0, 1) (0, 0) corridor_carrier.
Proof.
  intros Hf.
  apply (reachable_advance fields corridor (0, 1) (0, 0) (young_ants 1 (0, 0) 3) 100
           (no_scent 1 2) [] 0 (mkTick corridor_carrier (no_scent 1 2) 0 0)).
  - apply young_ants_reachable. lia.
  - done.
  - evaluate.
Qed.

Lemma Colony_init_seeds_witness :
  length (young_ants 3 (0, 0) 5) = 3%nat ∧
  ∀ i a, young_ants 3 (0, 0) 5 !! i = Some a →
    seeds a = (16807 * (Z.of_nat i + 1)) mod 2147483647 ∧
    1 ≤ seeds a < 2147483647 ∧
    ∀ j b, young_ants 3 (0, 0) 5 !! j = Some b → seeds b = seeds a → j = i.
Proof. apply (Colony_init_seeds 3 (0, 0) 5 (λ _, 0)). simpl. lia. Defined.

Lemma Colony_init_fresh_witness :
  ∃ a, young_ants 3 (0, 0) 5 !! 1%nat = Some a ∧
    is_loaded a = UNLOADED ∧ age a = 0 ∧ position a = Some (0, 0) ∧
    directions a = DIR_NONE ∧
    Z.of_nat (length (historic_path a)) = 5 + 1 ∧
    max_life a = 5 - 0 / 4 ∧
    3 * 5 ≤ 4 * max_life a ≤ 4 * 5.
Proof.
  eexists. split; [evaluate|].
  apply (Colony_init_fresh 3 (0, 0) 5 (λ _, 0) 1).
  - unfold pos_int16. simpl. lia.
  - simpl. lia.
  - lia.
  - intros _. lia.
  - evaluate.
Defined.

Lemma return_to_nest_counts_arrivals_witness :
  ∃ self' fc',
    return_to_nest corridor_carrier [0%nat] (0, 0) 4 = Some (self', fc') ∧
    fc' = 4 + arrivals corridor_carrier [0%nat] (0, 0) ∧
    4 ≤ fc' ≤ 4 + Z.of_nat (length [0%nat]) ∧
    length self' = length corridor_carrier ∧
    ∀ i a, corridor_carrier !! i = Some a →
      ∃ a', self' !! i = Some a' ∧
        a' = if bool_decide (i ∈ [0%nat]) then
               if steps_onto (0, 0) a
               then mkAnt (seeds a) UNLOADED (max_life a) 0 (historic_path a)
                          (directions a)
               else with_age (int64 (age a - 1)) a
             else a.
Proof.
  do 2 eexists. split; [evaluate|].
  apply (return_to_nest_counts_arrivals corridor_carrier [0%nat] (0, 0) 4).
  evaluate.
Defined.

Lemma advance_returns_the_deliveries_witness :
  ∃ r,
    advance 100 corridor_carrier corridor (0, 1) (0, 0) (no_scent 1 2) [] 4 = Some r ∧
    delivered corridor_carrier (tick_colony r)
    = arrivals corridor_carrier (nonzero (map is_loaded corridor_carrier)) (0, 0) ∧
    if existsb is_loaded corridor_carrier
    then tick_food_counter r = delivered corridor_carrier (tick_colony r) ∧
         tick_new_food r = delivered corridor_carrier (tick_colony r) - 4
    else tick_food_counter r = 4 ∧ tick_new_food r = 0 ∧
         delivered corridor_carrier (tick_colony r) = 0.
Proof.
  eexists. split; [evaluate|].
  apply (advance_returns_the_deliveries 100 corridor_carrier corridor (0, 1) (0, 0)
           (no_scent 1 2) [] 4).
  evaluate.
Defined.

Lemma two_trails_nonneg : field_nonneg two_trails.
Proof. repeat constructor; by vm_compute. Qed.

Lemma scent_decides_the_branch_witness :
  ∃ sensed s,
    mapM (sense ring two_trails) (reseed [0%nat] (young_ants 1 (0, 0) 5)) = Some sensed ∧
    sensed !! 0%nat = Some s ∧ max_pheromones s = 1%Q ∧
    (0%nat ∈ ind_exploring_ants (reseed [0%nat] (young_ants 1 (0, 0) 5)) sensed [0%nat]
     ↔ (max_pheromones s == 0)%Q) ∧
    (0%nat ∈ ind_following_ants (map choices (reseed [0%nat] (young_ants 1 (0, 0) 5)))
                                sensed [0%nat]
     ↔ ¬ (max_pheromones s == 0)%Q).
Proof.
  do 2 eexists. split; [evaluate|]. split; [evaluate|]. split; [evaluate|].
  apply (scent_decides_the_branch (young_ants 1 (0, 0) 5) [0%nat] ring two_trails).
  - apply two_trails_nonneg.
  - evaluate.
  - intros j a Hj Ha. apply list_elem_of_singleton in Hj as ->.
    injection Ha as <-. vm_compute. split; [discriminate|reflexivity].
  - in_list.
  - evaluate.
Defined.

Lemma food_is_taken_on_the_food_cell_witness :
  ∃ r a a',
    advance 100 (young_ants 1 (0, 0) 3) corridor (0, 1) (0, 0) (no_scent 1 2) [] 0
      = Some r ∧
    young_ants 1 (0, 0) 3 !! 0%nat = Some a ∧ tick_colony r !! 0%nat = Some a' ∧
    is_loaded a' = true ∧
    (is_loaded a' = true ↔ position a' = Some (0, 1)).
Proof.
  do 3 eexists. split; [evaluate|]. split; [evaluate|]. split; [evaluate|].
  split; [evaluate|].
  apply (food_is_taken_on_the_food_cell 100 (young_ants 1 (0, 0) 3) corridor (0, 1) (0, 0)
           (no_scent 1 2) [] 0 (mkTick corridor_carrier (no_scent 1 2) 0 0) 0
           (mkAnt 16807 false 3 0 [(0, 0); (0, 0); (0, 0); (0, 0)] (-1))); evaluate.
Defined.

Lemma explore_leaves_the_others_witness :
  ∃ self' a,
    explore 100 (corridor_carrier ++ young_ants 1 (0, 0) 3) [1%nat] corridor (0, 1) (0, 0)
            (no_scent 1 2) = Some self' ∧
    (corridor_carrier ++ young_ants 1 (0, 0) 3) !! 0%nat = Some a ∧
    is_loaded a = true ∧
    ∃ k : nat, self' !! 0%nat = Some (with_seeds (Nat.iter k lcg (seeds a)) a).
Proof.
  do 2 eexists. split; [evaluate|]. split; [evaluate|]. split; [evaluate|].
  apply (explore_leaves_the_others 100 (corridor_carrier ++ young_ants 1 (0, 0) 3)
           [1%nat] corridor (0, 1) (0, 0) (no_scent 1 2)).
  - evaluate.
  - intros Hin. apply list_elem_of_singleton in Hin. discriminate.
  - evaluate.
  - vm_compute. discriminate.
Defined.

Lemma loaded_ants_walk_back_witness :
  ∃ a' p,
    tick_colony (mkTick corridor_home (no_scent 1 2) 1 (-3)) !! 0%nat = Some a' ∧
    [(0, 0); (0, 1); (0, 0); (0, 0)] !! Z.to_nat (1 - 1) = Some p ∧
    position a' = Some p ∧
    historic_path a' = [(0, 0); (0, 1); (0, 0); (0, 0)] ∧ directions a' = 1 ∧
    max_life a' = 3 ∧
    if bool_decide (p = (0, 0))
    then is_loaded a' = false ∧ age a' = 0
    else is_loaded a' = true ∧ age a' = 1 - 1.
Proof.
  apply (loaded_ants_walk_back (λ _, True) 100 corridor_carrier corridor (0, 1) (0, 0)
           (no_scent 1 2) [] 4 (mkTick corridor_home (no_scent 1 2) 1 (-3)) 0
           (mkAnt 1622650073 true 3 1 [(0, 0); (0, 1); (0, 0); (0, 0)] 1)).
  - discriminate.
  - unfold pos_int16. simpl. lia.
  - by apply corridor_carrier_reachable.
  - evaluate.
  - reflexivity.
  - reflexivity.
Defined.

Lemma advance_keeps_the_shape_witness :
  length (tick_colony (mkTick corridor_carrier (no_scent 1 2) 0 0))
  = length (young_ants 1 (0, 0) 3) ∧
  ∀ i a a', young_ants 1 (0, 0) 3 !! i = Some a →
    tick_colony (mkTick corridor_carrier (no_scent 1 2) 0 0) !! i = Some a' →
    max_life a' = max_life a ∧ length (historic_path a') = length (historic_path a).
Proof.
  apply (advance_keeps_the_shape 100 (young_ants 1 (0, 0) 3) corridor (0, 1) (0, 0)
           (no_scent 1 2) [] 0).
  evaluate.
Defined.

Lemma seeds_of_a_run_witness :
  (∃ n : nat, (1 ≤ n)%nat ∧ 1622650073 = Nat.iter n lcg (Z.of_nat 0 + 1)) ∧
  1 ≤ 1622650073 < 2147483647.
Proof.
  apply (seeds_of_a_run (λ _, True) corridor (0, 1) (0, 0) corridor_carrier 0
           (mkAnt 1622650073 true 3 1 [(0, 0); (0, 1); (0, 0); (0, 0)] 1)).
  - by apply corridor_carrier_reachable.
  - simpl. lia.
  - reflexivity.
Defined.

Lemma advance_completes_witness :
  ∃ fuel r, ∀ fuel', (fuel ≤ fuel')%nat →
    advance fuel' (young_ants 1 (0, 0) 3) corridor (0, 1) (0, 0) (no_scent 1 2) [] 0
    = Some r.
Proof.
  apply (advance_completes corridor 1 2 (0, 1) (0, 0) (young_ants 1 (0, 0) 3)
           (no_scent 1 2) [] 0).
  - apply directions_py_ok.
  - apply corridor_ok.
  - apply corridor_exits.
  - discriminate.
  - unfold in_bounds. simpl. lia.
  - apply young_ants_reachable. lia.
  - simpl. lia.
  - apply no_scent_nonneg.
  - apply (no_scent_shape 1 2).
  - constructor.
Defined.

Lemma random_move_follows_its_direction_witness :
  ∃ moved sensed a s,
    explore_moves 100 ring_walkers [0; 1]%nat ring (no_scent 2 2) = Some moved ∧
    mapM (sense ring (no_scent 2 2)) (reseed [0; 1]%nat ring_walkers) = Some sensed ∧
    ring_walkers !! 0%nat = Some a ∧ sensed !! 0%nat = Some s ∧
    ∃ a' p q,
      moved !! 0%nat = Some a' ∧ position a = Some p ∧
      historic_path a' !! Z.to_nat (age a + 1) = Some q ∧
      (directions a' = DIR_NORTH ∧ has_exit ring p NORTH ∧ q = (p.1 - 1, p.2) ∨
       directions a' = DIR_EAST ∧ has_exit ring p EAST ∧ q = (p.1, p.2 + 1) ∨
       directions a' = DIR_SOUTH ∧ has_exit ring p SOUTH ∧ q = (p.1 + 1, p.2) ∨
       directions a' = DIR_WEST ∧ has_exit ring p WEST ∧ q = (p.1, p.2 - 1)).
Proof.
  do 4 eexists. split; [evaluate|]. split; [evaluate|]. split; [evaluate|].
  split; [evaluate|].
  eapply (random_move_follows_its_direction 100 ring_walkers [0; 1]%nat ring 2 2
            (no_scent 2 2));
    [apply directions_py_ok | apply ring_ok | | evaluate | evaluate
    | vm_compute; in_list | evaluate | evaluate].
  repeat split; try (simpl; lia).
  exists (0, 1). split; [reflexivity|]. unfold in_bounds. simpl. lia.
Defined.

Lemma outward_path_is_kept_witness :
  ∃ a',
    tick_colony (mkTick corridor_carrier (no_scent 1 2) 0 0) !! 0%nat = Some a' ∧
    age a' = 0 + 1 ∧
    ∃ q, position a' = Some q ∧
         historic_path a'
         = <[Z.to_nat (0 + 1) := q]> [(0, 0); (0, 0); (0, 0); (0, 0)] ∧
         ∀ k, (k ≤ Z.to_nat 0)%nat →
              historic_path a' !! k = [(0, 0); (0, 0); (0, 0); (0, 0)] !! k.
Proof.
  eexists. split; [reflexivity|].
  apply (outward_path_is_kept corridor 1 2 (0, 1) (0, 0) (young_ants 1 (0, 0) 3) 100
           (no_scent 1 2) [] 0 (mkTick corridor_carrier (no_scent 1 2) 0 0) 0
           (mkAnt 16807 false 3 0 [(0, 0); (0, 0); (0, 0); (0, 0)] (-1))).
  - apply corridor_ok.
  - discriminate.
  - unfold in_bounds. simpl. lia.
  - apply young_ants_reachable. lia.
  - apply no_scent_nonneg.
  - evaluate.
  - evaluate.
  - reflexivity.
  - reflexivity.
  - simpl. lia.
Defined.

Lemma loaded_ant_gets_home_witness :
  ∃ (j : nat) selfj aj,
    (1 ≤ j ≤ 1)%nat ∧
    ticks (λ _, True) corridor (0, 1) (0, 0) j corridor_carrier selfj ∧
    ticks (λ _, True) corridor (0, 1) (0, 0) (1 - j) selfj corridor_home ∧
    selfj !! 0%nat = Some aj ∧ is_loaded aj = false ∧ age aj = 0 ∧
    position aj = Some (0, 0).
Proof.
  apply (loaded_ant_gets_home (λ _, True) corridor (0, 1) (0, 0) 1 corridor_carrier 0
           (mkAnt 1622650073 true 3 1 [(0, 0); (0, 1); (0, 0); (0, 0)] 1)).
  - discriminate.
  - unfold pos_int16. simpl. lia.
  - by apply corridor_carrier_reachable.
  - reflexivity.
  - reflexivity.
  - reflexivity.
  - apply (ticks_S (λ _, True) corridor (0, 1) (0, 0) 0 corridor_carrier 100
             (no_scent 1 2) [] 4 (mkTick corridor_home (no_scent 1 2) 1 (-3))).
    + done.
    + evaluate.
    + apply ticks_O.
Defined.

Lemma display_draws_every_ant_witness :
  (∃ calls, display corridor_carrier [0; 1; 2; 3]%nat = Some calls ∧
     length calls = length corridor_carrier ∧
     ∀ i a, corridor_carrier !! i = Some a →
       ∃ sprite p,
         calls !! i = Some (sprite, (8 * p.2, 8 * p.1)) ∧
         position a = Some p ∧
         np_get [0; 1; 2; 3]%nat (directions a) = Some sprite ∧
         0 ≤ 8 * p.2 ∧ 8 * p.2 + 8 ≤ 2 * 8 ∧ 0 ≤ 8 * p.1 ∧ 8 * p.1 + 8 ≤ 1 * 8) ∧
  (corridor_carrier ≠ [] → display corridor_carrier (@nil nat) = None).
Proof.
  apply (display_draws_every_ant corridor 1 2 (0, 1) (0, 0) corridor_carrier
           [0; 1; 2; 3]%nat).
  - apply corridor_ok.
  - lia.
  - lia.
  - discriminate.
  - unfold in_bounds. simpl. lia.
  - apply corridor_carrier_reachable, no_scent_nonneg.
  - reflexivity.
  - vm_compute. split; [discriminate|reflexivity].
Defined.

Lemma last_tick_takes_no_food_witness :
  ∃ r,
    advance 100 (young_ants 1 (0, 0) 1) corridor (0, 1) (0, 0) (no_scent 1 2) [] 0
      = Some r ∧
    ∃ a', tick_colony r !! 0%nat = Some a' ∧
          is_loaded a' = false ∧ age a' = 0 ∧ position a' = Some (0, 0).
Proof.
  eexists. split; [evaluate|].
  apply (last_tick_takes_no_food (λ _, True) 100 (young_ants 1 (0, 0) 1) corridor (0, 1)
           (0, 0) (no_scent 1 2) [] 0 _ 0
           (mkAnt 16807 false 1 0 [(0, 0); (0, 0)] (-1))).
  - discriminate.
  - unfold pos_int16. simpl. lia.
  - apply young_ants_reachable. lia.
  - evaluate.
  - reflexivity.
  - reflexivity.
  - reflexivity.
Defined.

Lemma every_path_starts_at_the_nest_witness :
  np_get [(0, 0); (0, 1); (0, 0); (0, 0)] 0 = Some (0, 0) ∧
  (1 = 0 → position (mkAnt 1622650073 true 3 1 [(0, 0); (0, 1); (0, 0); (0, 0)] 1)
           = Some (0, 0)) ∧
  0 ≤ 1 < 3 ∧ 3 < Z.of_nat (length [(0, 0); (0, 1); (0, 0); (0, 0)]) ∧
  (1 = int8 DIR_NONE ∨ 0 ≤ 1 ≤ 3).
Proof.
  apply (every_path_starts_at_the_nest (λ _, True) corridor (0, 1) (0, 0)
           corridor_carrier 0
           (mkAnt 1622650073 true 3 1 [(0, 0); (0, 1); (0, 0); (0, 0)] 1)).
  - discriminate.
  - unfold pos_int16. simpl. lia.
  - by apply corridor_carrier_reachable.
  - reflexivity.
Defined.

Lemma exploring_ant_takes_its_first_valid_draw_witness :
  ∃ moved sensed a s p,
    explore_moves 100 ring_walkers [0; 1]%nat ring (no_scent 2 2) = Some moved ∧
    mapM (sense ring (no_scent 2 2)) (reseed [0; 1]%nat ring_walkers) = Some sensed ∧
    ring_walkers !! 0%nat = Some a ∧ sensed !! 0%nat = Some s ∧ position a = Some p ∧
    ∃ a' j,
      moved !! 0%nat = Some a' ∧ (1 ≤ j)%nat ∧
      directions a' = draw (lcg (seeds a)) j ∧
      np_set (historic_path a) (int64 (age a + 1)) (new_pos s p (draw (lcg (seeds a)) j))
      = Some (historic_path a') ∧
      is_valid_move s (directions a) p
        (new_pos s p (draw (lcg (seeds a)) j)) (draw (lcg (seeds a)) j) = true ∧
      ∀ j', (1 ≤ j' < j)%nat →
        is_valid_move s (directions a) p
          (new_pos s p (draw (lcg (seeds a)) j')) (draw (lcg (seeds a)) j') = false.
Proof.
  do 5 eexists. split; [evaluate|]. split; [evaluate|]. split; [evaluate|].
  split; [evaluate|]. split; [evaluate|].
  eapply (exploring_ant_takes_its_first_valid_draw 100 ring_walkers [0; 1]%nat ring
            (no_scent 2 2));
    [evaluate | evaluate | vm_compute; in_list | evaluate | evaluate | evaluate].
Defined.

(** *** C2, C3 and C8 on concrete ticks *)

Lemma deposits_use_snapshot_witness :
  ∃ r,
    advance 100 (young_ants 3 (0, 0) 5) ring (1, 1) (0, 0) (no_scent 2 2) [] 0 = Some r ∧
    ∃ deposits live merged,
      (advance_marking 100 (young_ants 3 (0, 0) 5) ring (1, 1) (0, 0) (no_scent 2 2) 0
       = Some (tick_colony r, tick_food_counter r, tick_new_food r, live) ∧
       mapM (deposit_of ring) (tick_colony r) = Some deposits ∧
       (∀ i a', tick_colony r !! i = Some a' →
          ∃ d, deposits !! i = Some d ∧ position a' = Some d.1) ∧
       mark_all (no_scent 2 2) deposits (no_scent 2 2) = Some live ∧
       (∀ deposits', deposits' ≡ₚ deposits →
          mark_all (no_scent 2 2) deposits' (no_scent 2 2) = Some live) ∧
       Allreduce_MAX (concat (no_scent 2 2)) [] = Some merged ∧
       tick_pheromon r
       = reshape (length (no_scent 2 2))
                 (default 0%nat (length <$> head (no_scent 2 2))) merged) ∧
      deposits = [((0, 1), [false; false; true; true]);
                  ((1, 0), [true; true; false; false]);
                  ((0, 1), [false; false; true; true])] ∧
      mark_all (no_scent 2 2)
               [((1, 0), [true; true; false; false]);
                ((0, 1), [false; false; true; true]);
                ((0, 1), [false; false; true; true])] (no_scent 2 2) = Some live.
Proof.
  eexists. split; [evaluate|].
  match goal with
  | |- context [tick_colony ?r] =>
      assert (advance 100 (young_ants 3 (0, 0) 5) ring (1, 1) (0, 0) (no_scent 2 2) [] 0
              = Some r) as Hrun by evaluate;
      pose proof (deposits_use_snapshot _ _ _ _ _ _ _ _ _ Hrun) as Hwit; clear Hrun
  end.
  destruct Hwit as (deposits & live & merged & Hmk & Hd & Hpos & Hall & Hperm & Hr & Hf).
  exists deposits, live, merged.
  assert (deposits = [((0, 1), [false; false; true; true]);
                      ((1, 0), [true; true; false; false]);
                      ((0, 1), [false; false; true; true])]) as Hdeps.
  { vm_compute in Hd. by injection Hd as <-. }
  split; [exact (conj Hmk (conj Hd (conj Hpos (conj Hall (conj Hperm (conj Hr Hf))))))|].
  split; [exact Hdeps|].
  apply Hperm. rewrite Hdeps. apply perm_swap.
Defined.



Lemma explore_seeds_witness :
  Forall (λ a, 1 ≤ seeds a < 2147483647) fork_walkers ∧
  ∃ self',
    explore 100 fork_walkers [1%nat] fork (0, 2) (0, 0) (no_scent 2 3) = Some self' ∧
    ∃ (k : nat) sensed,
      mapM (sense fork (no_scent 2 3)) (reseed [1%nat] fork_walkers) = Some sensed ∧
      (ind_exploring_ants (reseed [1%nat] fork_walkers) sensed [1%nat] = [] ↔ k = 0%nat) ∧
      (∀ i a, fork_walkers !! i = Some a →
         ∃ a', self' !! i = Some a' ∧
               seeds a' = Nat.iter (if bool_decide (i ∈ [1%nat]) then S k else k)
                                   lcg (seeds a)) ∧
      (Forall (λ a, 1 ≤ seeds a < 2147483647) fork_walkers →
         Z.of_nat k < 2147483646 ∧
         ∀ i a a', fork_walkers !! i = Some a → self' !! i = Some a' → i ∉ [1%nat] →
           (seeds a' = seeds a
            ↔ ind_exploring_ants (reseed [1%nat] fork_walkers) sensed [1%nat] = [])).
Proof.
  split; [repeat constructor; simpl; lia|].
  eexists. split; [evaluate|].
  apply (explore_seeds 100 fork_walkers [1%nat] fork (0, 2) (0, 0) (no_scent 2 3)).
  evaluate.
Defined.

End more_examples.
